(** * WUID: a shallow embedding of the identifier generator

    The development follows the Go sources of the repository:

    - [H32]   : the 32/32 split of package [internal]
                (constants, [NewWUID], [Next], [renewImpl], [RenewNow],
                [Reset], [Verifyh32] and the options);
    - [H28]   : the 28/36 split of package [internal];
    - [Redis] : [Loadh32FromRedis] of [redis/v8/wuid/wuid.go].

    Go values are modelled as follows.  An [int64] is a [Z] inside
    [-2^63, 2^63); arithmetic that can leave the range is wrapped with
    [Int64.wrap]; the bit operations [&], [|], [^], [&^] and [>>] are
    [Z.land], [Z.lor], [Z.lxor], [Z.ldiff] and [Z.shiftr], which agree with
    two's complement on that range.  An [error] is its message, [nil] is
    [None].  A call that panics yields [Panic] with the panic value; the
    generator state is threaded explicitly, so that the state left behind by
    a panicking call is visible.  The atomic operations on the counter word
    are single steps; [Next] is cut in two at the point where another
    goroutine can run between its fetch-and-add and its compare-and-swap.
    The goroutine that [Next] starts is recorded as a flag of the call; its
    body is [renewImpl] ([workerRenew] in the 28/36 split).  Logging and the
    mutex around [Renew] have no counterpart here. *)

From Stdlib Require Import ZArith List String Bool Lia DecimalString.
From Stdlib Require Import Permutation.
Import ListNotations.
Local Open Scope string_scope.
Local Open Scope Z_scope.

(** ** Go runtime values *)

Definition error : Type := string.

Inductive result (A : Type) : Type :=
| Ok (a : A)
| Panic (reason : string).
Arguments Ok {A} a.
Arguments Panic {A} reason.

Definition is_panic {A : Type} (r : result A) : bool :=
  match r with Ok _ => false | Panic _ => true end.

(** [fmt]'s verb [%d] on an integer. *)
Definition fmt_d (z : Z) : string := NilZero.string_of_int (Z.to_int z).

Definition nil_call : string :=
  "runtime error: invalid memory address or nil pointer dereference".

Definition divide_by_zero : string :=
  "runtime error: integer divide by zero".

(** What one call of [Next] shows: the low segment of the word its
    fetch-and-add produced (before any output transform), the value returned
    or the panic raised, and whether a renewal goroutine was started. *)
Record observation : Type := mkObservation {
  raw : Z;
  ret : result Z;
  renew : bool
}.

(** [n] successive calls on one generator, with nothing else touching it. *)
Fixpoint calls {W : Type} (next : W -> observation * W) (n : nat) (w : W)
  : list observation * W :=
  match n with
  | O => ([], w)
  | S n' =>
      let '(o, w1) := next w in
      let '(os, w2) := calls next n' w1 in
      (o :: os, w2)
  end.

(** Calls of several goroutines on one generator.  Each call is two atomic
    steps: its fetch-and-add, which hands it a value, and the rest of its
    body, run later on the state of that moment.  A schedule says in which
    order the steps happen: [Fetch] lets a new call do its fetch-and-add,
    [Finish k] lets the [k]-th call still under way run to its end. *)
Inductive action : Type :=
| Fetch
| Finish (k : nat).

Record pool (W : Type) : Type := mkPool {
  shared : W;
  under_way : list Z;
  fetched : list Z;
  finished : list (Z * result Z * bool)
}.
Arguments mkPool {W} shared under_way fetched finished.
Arguments shared {W} p.
Arguments under_way {W} p.
Arguments fetched {W} p.
Arguments finished {W} p.

Fixpoint drop_nth {A : Type} (k : nat) (l : list A) : list A :=
  match l, k with
  | [], _ => []
  | _ :: l', O => l'
  | a :: l', S k' => a :: drop_nth k' l'
  end.

Definition schedule_step {W : Type} (add : W -> Z * W)
           (rest : Z -> W -> result Z * bool * W)
           (p : pool W) (a : action) : pool W :=
  match a with
  | Fetch =>
      let '(v, w) := add (shared p) in
      mkPool w (under_way p ++ [v]) (fetched p ++ [v]) (finished p)
  | Finish k =>
      match nth_error (under_way p) k with
      | None => p
      | Some v =>
          let '(r, go, w) := rest v (shared p) in
          mkPool w (drop_nth k (under_way p)) (fetched p)
                 (finished p ++ [(v, r, go)])
      end
  end.

(** The number of calls a schedule starts. *)
Fixpoint fetches (acts : list action) : nat :=
  match acts with
  | [] => O
  | Fetch :: acts' => S (fetches acts')
  | Finish _ :: acts' => fetches acts'
  end.

Definition schedule {W : Type} (add : W -> Z * W)
           (rest : Z -> W -> result Z * bool * W)
           (acts : list action) (w : W) : pool W :=
  fold_left (schedule_step add rest) acts (mkPool w [] [] []).

Module Int64.

Definition min_int : Z := - 2 ^ 63.
Definition max_int : Z := 2 ^ 63 - 1.

Definition in_range (z : Z) : Prop := min_int <= z <= max_int.

(** Two's complement reduction to 64 bits. *)
Definition wrap (z : Z) : Z := (z + 2 ^ 63) mod 2 ^ 64 - 2 ^ 63.

Definition add (a b : Z) : Z := wrap (a + b).
Definition sub (a b : Z) : Z := wrap (a - b).
Definition mul (a b : Z) : Z := wrap (a * b).
Definition shl (a : Z) (n : Z) : Z := wrap (Z.shiftl a n).

(** Go's [/] truncates toward zero and panics on a zero divisor. *)
Definition div (a b : Z) : result Z :=
  if b =? 0 then Panic divide_by_zero else Ok (wrap (Z.quot a b)).

End Int64.

Module Uint64.

Definition wrap (z : Z) : Z := z mod 2 ^ 64.
Definition mul (a b : Z) : Z := wrap (a * b).

End Uint64.

(** ** Package internal, 32/32 split *)

Module H32.

(** [PanicValue] indicates when [Next] starts to panic. *)
Definition PanicValue : Z :=
  Z.land (Z.quot (Z.shiftl 1 32 * 96) 100) (Z.lnot 1023).

(** [CriticalValue] indicates when to renew the high bits. *)
Definition CriticalValue : Z :=
  Z.land (Z.quot (Z.shiftl 1 32 * 80) 100) (Z.lnot 1023).

(** [RenewIntervalMask] indicates the 'time' between two renewal
    attempts. *)
Definition RenewIntervalMask : Z := 0x2000000 - 1.

Definition Bye : Z :=
  Z.land (CriticalValue + RenewIntervalMask) (Z.lnot RenewIntervalMask) - 1.

Definition H32Mask : Z := Z.shiftl 0x1FFFFF 32.
Definition L32Mask : Z := 0x0FFFFFFFF.
Definition L60Mask : Z := 0x0FFFFFFFFFFFFFFF.

Record Stats_t : Type := mkStats {
  NumRenewAttempts : Z;
  NumRenewed : Z
}.

Section Generator.

(** [Fn] stands for the function values bound to [Renew], [Ext] for the
    state of the external collaborators such a function talks to. *)
Context {Fn : Type} {Ext : Type}.

Record WUID : Type := mkWUID {
  N : Z;
  Step : Z;
  Floor : Z;
  Flags : Z;
  Obfuscation : bool;
  Monolithic : bool;
  ObfuscationMask : Z;
  Section_ : Z;
  Name : string;
  h32Verifier : option (Z -> option error);
  Renew : option Fn;
  Stats : Stats_t
}.

Definition set_N (w : WUID) (n : Z) : WUID :=
  mkWUID n (Step w) (Floor w) (Flags w) (Obfuscation w) (Monolithic w)
         (ObfuscationMask w) (Section_ w) (Name w) (h32Verifier w)
         (Renew w) (Stats w).

Definition set_Renew (w : WUID) (f : option Fn) : WUID :=
  mkWUID (N w) (Step w) (Floor w) (Flags w) (Obfuscation w) (Monolithic w)
         (ObfuscationMask w) (Section_ w) (Name w) (h32Verifier w)
         f (Stats w).

Definition set_Stats (w : WUID) (s : Stats_t) : WUID :=
  mkWUID (N w) (Step w) (Floor w) (Flags w) (Obfuscation w) (Monolithic w)
         (ObfuscationMask w) (Section_ w) (Name w) (h32Verifier w)
         (Renew w) s.

(** *** Atomic operations on the counter word *)

Definition AddInt64 (w : WUID) (delta : Z) : Z * WUID :=
  let v := Int64.add (N w) delta in (v, set_N w v).

Definition CompareAndSwapInt64 (w : WUID) (old new : Z) : WUID :=
  if N w =? old then set_N w new else w.

Definition StoreInt64 (w : WUID) (n : Z) : WUID := set_N w n.

Definition LoadInt64 (w : WUID) : Z := N w.

(** *** Options *)

(** An [Option] is a closure over the arguments of the function that
    built it; [apply_Option] is the closure body. *)
Inductive Option : Type :=
| Withh32Verifier_fn (cb : option (Z -> option error))
| WithSection_fn (section : Z)
| WithStep_fn (step floor : Z)
| WithObfuscation_fn (seed : Z).

Definition Withh32Verifier (cb : option (Z -> option error))
  : result Option :=
  Ok (Withh32Verifier_fn cb).

Definition WithSection (section : Z) : result Option :=
  if (section <? 0) || (section >? 7)
  then Panic "section must be in between [0, 7]"
  else Ok (WithSection_fn section).

Definition steps : list Z := [1; 2; 4; 8; 16; 32; 64; 128; 256; 512; 1024].

Definition WithStep (step floor : Z) : result Option :=
  if existsb (Z.eqb step) steps then
    if negb (floor =? 0) && ((floor <? 0) || (floor >=? step))
    then Panic ("floor must be in between [0, " ++ fmt_d step ++ ")")
    else Ok (WithStep_fn step floor)
  else Panic "the step must be one of these values: 1, 2, 4, 8, 16, 32, 64, 128, 256, 512, 1024".

Definition WithObfuscation (seed : Z) : result Option :=
  if seed =? 0 then Panic "seed cannot be zero"
  else Ok (WithObfuscation_fn seed).

(** The bit mixing of [WithObfuscation], on [uint64]; the seed is an [int],
    taken to be 64 bits wide. *)
Definition mix (seed : Z) : Z :=
  let x := Uint64.wrap seed in
  let x := Uint64.mul (Z.lxor x (Z.shiftr x 30)) 0xbf58476d1ce4e5b9 in
  let x := Uint64.mul (Z.lxor x (Z.shiftr x 27)) 0x94d049bb133111eb in
  Z.land (Z.lxor x (Z.shiftr x 31)) 0x7FFFFFFFFFFFFFFF.

Definition apply_Option (o : Option) (w : WUID) : result WUID :=
  match o with
  | Withh32Verifier_fn cb =>
      Ok (mkWUID (N w) (Step w) (Floor w) (Flags w) (Obfuscation w)
                 (Monolithic w) (ObfuscationMask w) (Section_ w) (Name w)
                 cb (Renew w) (Stats w))
  | WithSection_fn section =>
      Ok (mkWUID (N w) (Step w) (Floor w) (Flags w) (Obfuscation w)
                 false (ObfuscationMask w) (Int64.shl section 60) (Name w)
                 (h32Verifier w) (Renew w) (Stats w))
  | WithStep_fn step floor =>
      if negb (Step w =? 1) then Panic "a second WithStep detected"
      else if floor >=? 2 then
        Ok (mkWUID (N w) step floor (Z.lor (Flags w) 2) (Obfuscation w)
                   (Monolithic w) (ObfuscationMask w) (Section_ w) (Name w)
                   (h32Verifier w) (Renew w) (Stats w))
      else
        Ok (mkWUID (N w) step (Floor w) (Flags w) (Obfuscation w)
                   (Monolithic w) (ObfuscationMask w) (Section_ w) (Name w)
                   (h32Verifier w) (Renew w) (Stats w))
  | WithObfuscation_fn seed =>
      Ok (mkWUID (N w) (Step w) (Floor w) (Z.lor (Flags w) 1) true
                 (Monolithic w) (mix seed) (Section_ w) (Name w)
                 (h32Verifier w) (Renew w) (Stats w))
  end.

Fixpoint apply_Options (opts : list Option) (w : WUID) : result WUID :=
  match opts with
  | [] => Ok w
  | opt :: rest =>
      match apply_Option opt w with
      | Ok w' => apply_Options rest w'
      | Panic m => Panic m
      end
  end.

Definition NewWUID (name : string) (opts : list Option) : result WUID :=
  let w := mkWUID 0 1 0 0 false true 0 0 name None None (mkStats 0 0) in
  match apply_Options opts w with
  | Panic m => Panic m
  | Ok w =>
      if negb (Obfuscation w) || (Floor w =? 0) then Ok w
      else
        let ones := Int64.sub (Step w) 1 in
        Ok (mkWUID (N w) (Step w) (Floor w) (Flags w) (Obfuscation w)
                   (Monolithic w) (Z.lor (ObfuscationMask w) ones)
                   (Section_ w) (Name w) (h32Verifier w) (Renew w)
                   (Stats w))
  end.

(** *** Next *)

(** The fetch-and-add that opens [Next]. *)
Definition Next_add (w : WUID) : Z * WUID := AddInt64 w (Step w).

(** The output transforms: the [switch w.Flags] that closes [Next]. *)
Definition Next_switch (w : WUID) (v1 : Z) : result Z :=
  match Flags w with
  | 0 => Ok v1
  | 1 =>
      let x := Z.lxor v1 (ObfuscationMask w) in
      let r := Z.lor (Z.land v1 H32Mask) (Z.land x L32Mask) in
      Ok r
  | 2 =>
      match Int64.div v1 (Floor w) with
      | Ok d => Ok (Int64.mul d (Floor w))
      | Panic m => Panic m
      end
  | 3 =>
      let x := Z.lxor v1 (ObfuscationMask w) in
      let q := Z.lor (Z.land v1 H32Mask) (Z.land x L32Mask) in
      match Int64.div q (Floor w) with
      | Ok d => Ok (Int64.mul d (Floor w))
      | Panic m => Panic m
      end
  | _ => Panic "impossible"
  end.

(** What a call does after its fetch-and-add returned [v1], run on the
    state [w] the generator is in by then.  The result is the value
    returned or the panic raised, whether [go renewImpl(w)] was
    started, and the state left behind. *)
Definition Next_rest (v1 : Z) (w : WUID) : result Z * bool * WUID :=
  let v2 := Z.land v1 L32Mask in
  if v2 >=? PanicValue then
    let panicValue := Z.lor (Z.land v1 H32Mask) PanicValue in
    (Panic "the low 36 bits are about to run out", false,
     CompareAndSwapInt64 w v1 panicValue)
  else
    let go := (v2 >=? CriticalValue) && (Z.land v2 RenewIntervalMask =? 0) in
    (Next_switch w v1, go, w).

(** A call of [Next] that no other goroutine interleaves with. *)
Definition Next (w : WUID) : result Z * bool * WUID :=
  let '(v1, w1) := Next_add w in Next_rest v1 w1.

(** The low segment of the counter word. *)
Definition low_segment (w : WUID) : Z := Z.land (N w) L32Mask.

Definition observe (w : WUID) : observation * WUID :=
  let '(v1, _) := Next_add w in
  let '(r, go, w') := Next w in
  (mkObservation (Z.land v1 L32Mask) r go, w').

(** The high segment of a word, read the way [Verifyh32] reads the
    active one. *)
Definition high_segment (w : WUID) (v : Z) : Z :=
  let current := Z.shiftr v 32 in
  if Monolithic w then current else Z.land current 0x00FFFFFF.

(** The largest candidate that passes the range check of
    [Verifyh32]. *)
Definition limit (w : WUID) : Z :=
  if Monolithic w then 0x1FFFFF else 0x00FFFFFF.

(** *** Reset and Verifyh32 *)

Definition Reset (w : WUID) (n : Z) : result unit * WUID :=
  if n <? 0 then (Panic "n cannot be negative", w)
  else if Z.land n L32Mask >=? PanicValue then (Panic "n is too old", w)
  else
    let n := if Monolithic w then n
             else Z.lor (Z.land n L60Mask) (Section_ w) in
    if Floor w >? 1 then
      if Z.land n (Int64.sub (Step w) 1) =? 0
      then (Ok tt, StoreInt64 w n)
      else (Ok tt,
            StoreInt64 w (Int64.add (Z.ldiff n (Int64.sub (Step w) 1))
                                    (Step w)))
    else (Ok tt, StoreInt64 w n).

Definition Verifyh32 (w : WUID) (h32 : Z) : option error :=
  if h32 <=? 0 then Some "h32 must be positive"
  else if (if Monolithic w then h32 >? 0x1FFFFF else h32 >? 0x00FFFFFF)
  then Some (if Monolithic w then "h32 should not exceed 0x1FFFFF"
             else "h32 should not exceed 0x00FFFFFF")
  else
    let current := Z.shiftr (LoadInt64 w) 32 in
    if (if Monolithic w then h32 =? current
        else h32 =? Z.land current 0x00FFFFFF)
    then Some ("h32 should be a different value other than " ++ fmt_d h32)
    else
      match h32Verifier w with
      | Some cb =>
          match cb h32 with
          | Some err => Some err
          | None => None
          end
      | None => None
      end.

(** *** Generators as the constructor builds them *)

(** An option value that one of the [With...] functions returned. *)
Definition built (o : Option) : Prop :=
  (exists cb, Withh32Verifier cb = Ok o) \/
  (exists section, WithSection section = Ok o) \/
  (exists step floor, WithStep step floor = Ok o) \/
  (exists seed, WithObfuscation seed = Ok o).

(** What holds of the configuration of a generator that [NewWUID] returned;
    [Next] and [Reset] only ever change [N]. *)
Record configured (w : WUID) : Prop := mkConfigured {
  cfg_step : In (Step w) steps;
  cfg_floor : Floor w = 0 \/ 2 <= Floor w < Step w;
  cfg_flags :
    Flags w = Z.b2z (Obfuscation w) + 2 * Z.b2z (2 <=? Floor w);
  cfg_mask : 0 <= ObfuscationMask w < 2 ^ 63;
  cfg_ones :
    Obfuscation w = true -> Floor w <> 0 ->
    Z.land (ObfuscationMask w) (Step w - 1) = Step w - 1;
  cfg_section :
    if Monolithic w then Section_ w = 0
    else exists section, 0 <= section <= 7 /\ Section_ w = section * 2 ^ 60
}.

(** *** Renewal *)

(** How a bound function runs: on the generator and the outside world. *)
Variable call : Fn -> WUID -> Ext -> result (option error) * WUID * Ext.

(** [f := w.Renew; return f()]: calling a nil function value panics. *)
Definition RenewNow (w : WUID) (e : Ext)
  : result (option error) * WUID * Ext :=
  match Renew w with
  | Some f => call f w e
  | None => (Panic nil_call, w, e)
  end.

(** The body of the goroutine started by [Next]; the deferred functions
    recover a panic and count the attempt. *)
Definition renewImpl (w : WUID) (e : Ext) : WUID * Ext :=
  let '(r, w1, e1) := RenewNow w e in
  let w2 :=
    match r with
    | Ok None =>
        set_Stats w1 (mkStats (NumRenewAttempts (Stats w1))
                              (Int64.add (NumRenewed (Stats w1)) 1))
    | Ok (Some _) => w1
    | Panic _ => w1
    end in
  (set_Stats w2 (mkStats (Int64.add (NumRenewAttempts (Stats w2)) 1)
                         (NumRenewed (Stats w2))),
   e1).

End Generator.

Arguments WUID : clear implicits.
Arguments Option : clear implicits.

End H32.

(** ** Package internal, 28/36 split *)

Module H28.

(** [PanicValue] indicates when [Next] starts to panic. *)
Definition PanicValue : Z :=
  Z.land (Z.quot (Z.shiftl 1 36 * 96) 100) (Z.lnot 1023).

(** [CriticalValue] indicates when to renew the high 28 bits. *)
Definition CriticalValue : Z :=
  Z.land (Z.quot (Z.shiftl 1 36 * 80) 100) (Z.lnot 1023).

(** [RenewIntervalMask] indicates how often renew is performed if it
    fails. *)
Definition RenewIntervalMask : Z := 0x20000000 - 1.

Definition H28Mask : Z := Z.shiftl 0x07FFFFFF 36.
Definition L36Mask : Z := 0x0FFFFFFFFF.
Definition SectionMask : Z := 0x0FFFFFFFFFFFFFFF.

Section Generator.

Context {Fn : Type} {Ext : Type}.

Record WUID : Type := mkWUID {
  N : Z;
  Step : Z;
  Floor : Z;
  Monolithic : bool;
  Section_ : Z;
  Name : string;
  H28Verifier : option (Z -> option error);
  Renew : option Fn
}.

Definition set_N (w : WUID) (n : Z) : WUID :=
  mkWUID n (Step w) (Floor w) (Monolithic w) (Section_ w) (Name w)
         (H28Verifier w) (Renew w).

Definition set_Renew (w : WUID) (f : option Fn) : WUID :=
  mkWUID (N w) (Step w) (Floor w) (Monolithic w) (Section_ w) (Name w)
         (H28Verifier w) f.

Definition AddInt64 (w : WUID) (delta : Z) : Z * WUID :=
  let v := Int64.add (N w) delta in (v, set_N w v).

Definition CompareAndSwapInt64 (w : WUID) (old new : Z) : WUID :=
  if N w =? old then set_N w new else w.

Definition StoreInt64 (w : WUID) (n : Z) : WUID := set_N w n.

Definition LoadInt64 (w : WUID) : Z := N w.

(** *** Options *)

Inductive Option : Type :=
| WithSection_fn (section : Z)
| WithH28Verifier_fn (cb : option (Z -> option error))
| WithStep_fn (step floor : Z).

Definition WithSection (section : Z) : result Option :=
  if (section <? 0) || (section >? 7)
  then Panic "section must be in between [0, 7]"
  else Ok (WithSection_fn section).

Definition WithH28Verifier (cb : option (Z -> option error))
  : result Option :=
  Ok (WithH28Verifier_fn cb).

Definition steps : list Z := [1; 2; 4; 8; 16; 32; 64; 128; 256; 512; 1024].

Definition WithStep (step floor : Z) : result Option :=
  if existsb (Z.eqb step) steps then
    if negb (floor =? 0) && ((floor <? 0) || (floor >=? step))
    then Panic ("floor must be in between [0, " ++ fmt_d step ++ ")")
    else Ok (WithStep_fn step floor)
  else Panic "the step must be one of these values: 1, 2, 4, 8, 16, 32, 64, 128, 256, 512, 1024".

Definition apply_Option (o : Option) (w : WUID) : WUID :=
  match o with
  | WithSection_fn section =>
      mkWUID (N w) (Step w) (Floor w) false (Int64.shl section 60)
             (Name w) (H28Verifier w) (Renew w)
  | WithH28Verifier_fn cb =>
      mkWUID (N w) (Step w) (Floor w) (Monolithic w) (Section_ w)
             (Name w) cb (Renew w)
  | WithStep_fn step floor =>
      mkWUID (N w) step floor (Monolithic w) (Section_ w)
             (Name w) (H28Verifier w) (Renew w)
  end.

Definition NewWUID (name : string) (opts : list Option) : WUID :=
  fold_left (fun w opt => apply_Option opt w) opts
            (mkWUID 0 1 0 true 0 name None None).

(** *** Next *)

Definition Next_add (w : WUID) : Z * WUID := AddInt64 w (Step w).

(** The quantisation that closes [Next]. *)
Definition Next_floor (w : WUID) (x : Z) : result Z :=
  if Floor w =? 0 then Ok x
  else
    match Int64.div x (Floor w) with
    | Ok d => Ok (Int64.mul d (Floor w))
    | Panic m => Panic m
    end.

Definition Next_rest (x : Z) (w : WUID) : result Z * bool * WUID :=
  let v := Z.land x L36Mask in
  if v >=? PanicValue then
    let panicValue := Z.lor (Z.land x H28Mask) PanicValue in
    (Panic ("<wuid> the low 36 bits are about to run out. name: "
            ++ Name w),
     false, CompareAndSwapInt64 w x panicValue)
  else
    let go := (v >=? CriticalValue) && (Z.land v RenewIntervalMask =? 0) in
    (Next_floor w x, go, w).

Definition Next (w : WUID) : result Z * bool * WUID :=
  let '(x, w1) := Next_add w in Next_rest x w1.

(** The low segment of the counter word. *)
Definition low_segment (w : WUID) : Z := Z.land (N w) L36Mask.

Definition observe (w : WUID) : observation * WUID :=
  let '(x, _) := Next_add w in
  let '(r, go, w') := Next w in
  (mkObservation (Z.land x L36Mask) r go, w').

(** The high segment of a word, read the way [VerifyH28] reads the
    active one. *)
Definition high_segment (w : WUID) (v : Z) : Z :=
  let current := Z.shiftr v 36 in
  if Monolithic w then current else Z.land current 0x00FFFFFF.

(** The largest candidate that passes the range check of
    [VerifyH28]. *)
Definition limit (w : WUID) : Z :=
  if Monolithic w then 0x07FFFFFF else 0x00FFFFFF.

(** *** Reset and VerifyH28 *)

Definition Reset (w : WUID) (n : Z) : result unit * WUID :=
  if n <? 0 then (Panic "n cannot be negative", w)
  else if Monolithic w then (Ok tt, StoreInt64 w n)
  else
    let v := Z.lor (Z.land n SectionMask) (Section_ w) in
    (Ok tt, StoreInt64 w v).

Definition VerifyH28 (w : WUID) (h28 : Z) : option error :=
  if h28 <=? 0 then Some ("h28 must be positive. name: " ++ Name w)
  else if (if Monolithic w then h28 >? 0x07FFFFFF else h28 >? 0x00FFFFFF)
  then Some (if Monolithic w
             then "h28 should not exceed 0x07FFFFFF. name: " ++ Name w
             else "h28 should not exceed 0x00FFFFFF. name: " ++ Name w)
  else
    let current := Z.shiftr (LoadInt64 w) 36 in
    if (if Monolithic w then h28 =? current
        else h28 =? Z.land current 0x00FFFFFF)
    then Some ("h28 should be a different value other than "
               ++ fmt_d h28 ++ ". name: " ++ Name w)
    else
      match H28Verifier w with
      | Some cb =>
          match cb h28 with
          | Some err => Some err
          | None => None
          end
      | None => None
      end.

(** *** Generators as the constructor builds them *)

(** An option value that one of the [With...] functions returned. *)
Definition built (o : Option) : Prop :=
  (exists section, WithSection section = Ok o) \/
  (exists cb, WithH28Verifier cb = Ok o) \/
  (exists step floor, WithStep step floor = Ok o).

(** What holds of the configuration of a generator that [NewWUID] returned;
    [Next] and [Reset] only ever change [N]. *)
Record configured (w : WUID) : Prop := mkConfigured {
  cfg_step : In (Step w) steps;
  cfg_floor : 0 <= Floor w < Step w;
  cfg_section :
    if Monolithic w then Section_ w = 0
    else exists section, 0 <= section <= 7 /\ Section_ w = section * 2 ^ 60
}.

(** *** Renewal *)

Variable call : Fn -> WUID -> Ext -> result (option error) * WUID * Ext.

Definition RenewNow (w : WUID) (e : Ext)
  : result (option error) * WUID * Ext :=
  match Renew w with
  | Some f => call f w e
  | None => (Panic nil_call, w, e)
  end.

(** The body of the goroutine started by [Next]; a panic of the bound
    function is recovered. *)
Definition workerRenew (w : WUID) (e : Ext) : WUID * Ext :=
  let '(_, w1, e1) := RenewNow w e in (w1, e1).

End Generator.

Arguments WUID : clear implicits.

End H28.

(** ** Package redis/v8/wuid *)

Module Redis.

(** The Redis server as the generator sees it: the integer stored under
    each key, and the number of connections closed so far. *)
Record Server : Type := mkServer {
  value : string -> Z;
  closed : Z
}.

(** A client either reaches the server or fails with an error. *)
Inductive UniversalClient : Type :=
| Live
| Faulty (err : error).

(** [client.Incr(ctx, key).Result()]. *)
Definition Incr (client : UniversalClient) (key : string) (s : Server)
  : (Z + error) * Server :=
  match client with
  | Live =>
      let v := Int64.add (value s key) 1 in
      (inl v,
       mkServer (fun k => if String.eqb k key then v else value s k)
                (closed s))
  | Faulty err => (inr err, s)
  end.

Definition Close (s : Server) : Server := mkServer (value s) (closed s + 1).

(** A [NewClient] function value: [None] is the nil function, otherwise
    the triple it returns. *)
Definition NewClient : Type :=
  option (UniversalClient * bool * option error).

(** The function literal bound to [Renew] captures [newClient] and
    [key]. *)
Record renewFn : Type := mkRenewFn {
  fn_newClient : NewClient;
  fn_key : string
}.

Definition WUID : Type := H32.WUID renewFn.

Definition Loadh32FromRedis (newClient : NewClient) (key : string)
           (w : WUID) (s : Server) : result (option error) * WUID * Server :=
  if (Z.of_nat (String.length key) =? 0)%Z
  then (Ok (Some "key cannot be empty"), w, s)
  else
    match newClient with
    | None => (Panic nil_call, w, s)
    | Some (client, autoClose, Some err) => (Ok (Some err), w, s)
    | Some (client, autoClose, None) =>
        let finish (s : Server) := if autoClose then Close s else s in
        match Incr client key s with
        | (inr err, s1) => (Ok (Some err), w, finish s1)
        | (inl h32, s1) =>
            match H32.Verifyh32 w h32 with
            | Some err => (Ok (Some err), w, finish s1)
            | None =>
                match H32.Reset w (Int64.shl h32 32) with
                | (Panic m, w1) => (Panic m, w1, finish s1)
                | (Ok _, w1) =>
                    match H32.Renew w1 with
                    | Some _ => (Ok None, w1, finish s1)
                    | None =>
                        (Ok None,
                         H32.set_Renew w1 (Some (mkRenewFn newClient key)),
                         finish s1)
                    end
                end
            end
        end
    end.

(** Running the function literal bound to [Renew]. *)
Definition call (f : renewFn) (w : WUID) (s : Server)
  : result (option error) * WUID * Server :=
  Loadh32FromRedis (fn_newClient f) (fn_key f) w s.

Definition Next (w : WUID) : result Z * bool * WUID := H32.Next w.

Definition RenewNow (w : WUID) (s : Server)
  : result (option error) * WUID * Server :=
  H32.RenewNow call w s.

End Redis.

(** ** Thresholds as fractions of the low segment *)

(** [p] percent of a low segment of [bits] bits, rounded down to a multiple
    of [m]. *)
Definition percent_down (p bits m : Z) : Z :=
  Z.quot (2 ^ bits * p) 100 / m * m.

(** ** Generators used as concrete inputs *)

Module Sample.

Section Generators.

Context {Fn : Type}.

(** [NewWUID("g", nil)] of either split. *)
Definition fresh32 : H32.WUID Fn :=
  H32.mkWUID 0 1 0 0 false true 0 0 "g" None None (H32.mkStats 0 0).

Definition fresh28 : H28.WUID Fn :=
  H28.mkWUID 0 1 0 true 0 "g" None None.

(** One call away from the panic threshold, in epoch 1. *)
Definition brink32 : H32.WUID Fn :=
  H32.set_N fresh32 (Z.shiftl 1 32 + H32.PanicValue - 1).

Definition brink28 : H28.WUID Fn :=
  H28.set_N fresh28 (Z.shiftl 1 36 + H28.PanicValue - 1).

(** One call before the first renewal boundary past the critical
    threshold, in epoch 1. *)
Definition critical32 : H32.WUID Fn :=
  H32.set_N fresh32 (Z.shiftl 1 32 + H32.Bye).

Definition critical28 : H28.WUID Fn :=
  H28.set_N fresh28 (Z.shiftl 1 36 + 103 * 2 ^ 29 - 1).

(** [NewWUID("g", nil, WithSection(1))]. *)
Definition sectioned32 : H32.WUID Fn :=
  H32.mkWUID 0 1 0 0 false false 0 (Z.shiftl 1 60) "g" None None
             (H32.mkStats 0 0).

Definition sectioned28 : H28.WUID Fn :=
  H28.mkWUID 0 1 0 false (Z.shiftl 1 60) "g" None None.

(** [NewWUID("g", nil, WithSection(1), WithObfuscation(1))]. *)
Definition masked32 : H32.WUID Fn :=
  H32.mkWUID 0 1 0 1 true false (H32.mix 1) (Z.shiftl 1 60) "g" None None
             (H32.mkStats 0 0).

(** [NewWUID("g", nil, WithStep(4, 3))]. *)
Definition stepped32 : H32.WUID Fn :=
  H32.mkWUID 0 4 3 2 false true 0 0 "g" None None (H32.mkStats 0 0).

Definition stepped28 : H28.WUID Fn :=
  H28.mkWUID 0 4 3 true 0 "g" None None.

End Generators.

Definition bound28 : H28.WUID unit := H28.set_Renew fresh28 (Some tt).

(** A renewal function that succeeds and touches nothing. *)
Definition idle (f : unit) (w : H28.WUID unit) (e : unit)
  : result (option error) * H28.WUID unit * unit :=
  (Ok None, w, e).

(** A generator that already has a renewal function, and a server. *)
Definition bound32 : Redis.WUID :=
  H32.set_Renew fresh32
    (Some (Redis.mkRenewFn (Some (Redis.Live, true, None)) "wuid")).

Definition server : Redis.Server := Redis.mkServer (fun _ => 41) 0.

End Sample.

(** ** Sequences of operations on one generator *)

(** What its owner does to a generator: a call of [Next], or a call of
    [Reset(n)], on its own or at the end of a renewal.  A panic is the
    caller's to recover; the generator stays as the call left it. *)
Inductive operation : Type :=
| DoNext
| DoReset (n : Z).

(** The argument of [Reset] is an [int64]. *)
Definition well_typed (o : operation) : Prop :=
  match o with
  | DoNext => True
  | DoReset n => Int64.in_range n
  end.

Definition perform32 {Fn : Type} (w : H32.WUID Fn) (o : operation)
  : H32.WUID Fn :=
  match o with
  | DoNext => snd (H32.Next w)
  | DoReset n => snd (H32.Reset w n)
  end.

Definition perform28 {Fn : Type} (w : H28.WUID Fn) (o : operation)
  : H28.WUID Fn :=
  match o with
  | DoNext => snd (H28.Next w)
  | DoReset n => snd (H28.Reset w n)
  end.

(** The states a generator of the 32/32 split is in between calls: the
    configuration is the constructor's, the word is not negative, its low
    segment is not past the panic threshold, and with a floor the word is
    a multiple of the step. *)
Definition sound32 {Fn : Type} (w : H32.WUID Fn) : Prop :=
  H32.configured w /\
  0 <= H32.N w <= Int64.max_int /\
  H32.low_segment w <= H32.PanicValue /\
  (2 <= H32.Floor w -> H32.N w mod H32.Step w = 0).

(** The same for the 28/36 split, whose [Reset] does not align the
    word. *)
Definition sound28 {Fn : Type} (w : H28.WUID Fn) : Prop :=
  H28.configured w /\
  0 <= H28.N w <= Int64.max_int /\
  H28.low_segment w <= H28.PanicValue.

(** A [Reset] whose argument is not past the panic threshold in its low
    segment: the 32/32 split checks this itself, the 28/36 split leaves it
    to the caller. *)
Definition guarded28 (o : operation) : Prop :=
  match o with
  | DoNext => True
  | DoReset n =>
      Int64.in_range n /\
      (0 <= n -> Z.land n H28.L36Mask <= H28.PanicValue)
  end.

(** [NewWUID("g", nil, WithStep(4, 3), WithObfuscation(1))]: a floor and
    a mask, whose low two bits the constructor sets. *)
Definition quantised_masked32 : H32.WUID unit :=
  H32.mkWUID 0 4 3 3 true true (Z.lor (H32.mix 1) 3) 0 "g" None None
             (H32.mkStats 0 0).

(** ** A generator kept alive from Redis *)

(** Calls of [Next] one after the other, where the renewal goroutine a
    call starts has run to its end before the next call. *)
Fixpoint serve (n : nat) (w : Redis.WUID) (s : Redis.Server)
  : list (result Z) * Redis.WUID * Redis.Server :=
  match n with
  | O => ([], w, s)
  | S n' =>
      let '(r, go, w1) := Redis.Next w in
      let '(w2, s2) :=
        if go then H32.renewImpl Redis.call w1 s else (w1, s) in
      let '(rs, w3, s3) := serve n' w2 s2 in
      (r :: rs, w3, s3)
  end.



(** A monolithic generator without a verifier of the user's, bound to a
    live client, whose word is a multiple of the step and whose high
    segment is the value under the key. *)
Definition served (key : string) (autoClose : bool) (w : Redis.WUID)
           (s : Redis.Server) : Prop :=
  sound32 w /\
  H32.Monolithic w = true /\
  H32.h32Verifier w = None /\
  H32.Renew w
  = Some (Redis.mkRenewFn (Some (Redis.Live, autoClose, None)) key) /\
  String.length key <> O /\
  H32.N w mod H32.Step w = 0 /\
  Z.shiftr (H32.N w) 32 = Redis.value s key.

(** ** Calls that have finished in a schedule *)

(** The value a finished call was handed by its fetch-and-add, and what
    the call returned. *)
Definition fetched_by (x : Z * result Z * bool) : Z := fst (fst x).
Definition returned_to (x : Z * result Z * bool) : result Z := snd (fst x).

(** ** A generator that Redis does not answer *)

(** Renewal functions that cannot succeed: none is bound, or the one
    bound has an empty key, a nil or failing [newClient], or a client
    whose [Incr] fails. *)
Definition unreachable (f : option Redis.renewFn) : Prop :=
  match f with
  | None => True
  | Some fn =>
      String.length (Redis.fn_key fn) = O \/
      match Redis.fn_newClient fn with
      | None => True
      | Some (_, _, Some _) => True
      | Some (Redis.Faulty _, _, None) => True
      | Some (Redis.Live, _, None) => False
      end
  end.

(** * Properties *)

Ltac split_all := repeat match goal with |- _ /\ _ => split end.

(** ** Words and their segments *)

Section Words.

Lemma pow2_pos (k : Z) : 0 <= k -> 0 < 2 ^ k.
Proof. intros; apply Z.pow_pos_nonneg; lia. Qed.

Lemma wrap_small (z : Z) : Int64.in_range z -> Int64.wrap z = z.
Proof.
  unfold Int64.in_range, Int64.min_int, Int64.max_int, Int64.wrap.
  intros H. rewrite Z.mod_small; lia.
Qed.

Lemma wrap_range (z : Z) : Int64.in_range (Int64.wrap z).
Proof.
  unfold Int64.in_range, Int64.min_int, Int64.max_int, Int64.wrap.
  pose proof (Z.mod_pos_bound (z + 2 ^ 63) (2 ^ 64) ltac:(lia)). lia.
Qed.

(** Wrapping to 64 bits does not touch the low [k] bits. *)
Lemma wrap_mod (z k : Z) :
  0 <= k <= 64 -> Int64.wrap z mod 2 ^ k = z mod 2 ^ k.
Proof.
  intros Hk. unfold Int64.wrap.
  rewrite (Z.mod_eq (z + 2 ^ 63) (2 ^ 64)) by lia.
  replace (2 ^ 64) with (2 ^ (64 - k) * 2 ^ k)
    by (rewrite <- Z.pow_add_r by lia; f_equal; lia).
  set (q := (z + 2 ^ 63) / (2 ^ (64 - k) * 2 ^ k)).
  replace (z + 2 ^ 63 - 2 ^ (64 - k) * 2 ^ k * q - 2 ^ 63)
    with (z + (- (2 ^ (64 - k) * q)) * 2 ^ k) by ring.
  apply Z_mod_plus_full.
Qed.

Lemma land_hi (v m k : Z) :
  0 <= m -> 0 <= k ->
  Z.land v (Z.shiftl (Z.ones m) k) = (v / 2 ^ k) mod 2 ^ m * 2 ^ k.
Proof.
  intros Hm Hk.
  rewrite <- Z.land_ones, <- Z.shiftr_div_pow2, <- Z.shiftl_mul_pow2 by lia.
  apply Z.bits_inj'; intros i Hi.
  rewrite Z.land_spec.
  destruct (Z.ltb_spec i k) as [Hlt | Hge].
  - rewrite !Z.shiftl_spec_low by lia. apply andb_false_r.
  - rewrite !Z.shiftl_spec, Z.land_spec, Z.shiftr_spec by lia.
    replace (i - k + k) with i by lia. reflexivity.
Qed.

Lemma land_hi_lo_disjoint (h p k : Z) :
  0 <= k -> 0 <= p < 2 ^ k -> Z.land (h * 2 ^ k) p = 0.
Proof.
  intros Hk Hp. apply Z.bits_inj'; intros i Hi.
  rewrite Z.land_spec, Z.bits_0.
  destruct (Z.ltb_spec i k) as [Hlt | Hge].
  - rewrite Z.mul_pow2_bits_low by lia. reflexivity.
  - rewrite <- (Z.mod_small p (2 ^ k)) by lia.
    rewrite Z.mod_pow2_bits_high by lia. apply andb_false_r.
Qed.

(** A value below [2^k] is or-ed into a multiple of [2^k] by adding it. *)
Lemma lor_hi_lo (h p k : Z) :
  0 <= k -> 0 <= p < 2 ^ k -> Z.lor (h * 2 ^ k) p = h * 2 ^ k + p.
Proof.
  intros Hk Hp.
  pose proof (land_hi_lo_disjoint h p k Hk Hp) as D.
  rewrite (Z.add_nocarry_lxor _ _ D). symmetry. apply Z.lxor_lor, D.
Qed.

Lemma split_mod (h p k : Z) :
  0 <= k -> 0 <= p < 2 ^ k -> (h * 2 ^ k + p) mod 2 ^ k = p.
Proof.
  intros Hk Hp. rewrite Z.add_comm, Z_mod_plus_full. apply Z.mod_small, Hp.
Qed.

Lemma split_div (h p k : Z) :
  0 <= k -> 0 <= p < 2 ^ k -> (h * 2 ^ k + p) / 2 ^ k = h.
Proof.
  intros Hk Hp. pose proof (pow2_pos k Hk).
  rewrite Z.add_comm, Z.div_add by lia. rewrite Z.div_small by lia. lia.
Qed.

(** The low [k] bits after a wrapped addition. *)
Lemma low_add (n s k : Z) :
  0 <= k <= 64 ->
  Int64.add n s mod 2 ^ k = (n mod 2 ^ k + s) mod 2 ^ k.
Proof.
  intros Hk. unfold Int64.add. rewrite wrap_mod by lia.
  rewrite Z.add_mod_idemp_l; [reflexivity | ].
  pose proof (pow2_pos k); lia.
Qed.

End Words.

(** ** A counter that advances by steps, seen through its observations

    The facts below are proved once, for any generator whose [Next] obeys
    the four equations [raw_next], [low_next], [step_next] and [renew_next];
    both splits are instances. *)

Section Counter.

Variable W : Type.
Variable low : W -> Z.
Variable step : W -> Z.
Variable next : W -> observation * W.
(** size of the low segment, panic and critical thresholds, interval *)
Variables L P C I : Z.

Hypothesis P_pos : 0 < P.
Hypothesis P_room : P + 1024 < L.
Hypothesis I_pos : 0 < I.
Hypothesis low_range : forall w, 0 <= low w < L.
Hypothesis raw_next : forall w,
  raw (fst (next w)) = (low w + step w) mod L.
Hypothesis low_next : forall w,
  low (snd (next w)) =
  if raw (fst (next w)) <? P then raw (fst (next w)) else P.
Hypothesis step_next : forall w, step (snd (next w)) = step w.
Hypothesis renew_next : forall w,
  renew (fst (next w)) =
  negb (raw (fst (next w)) >=? P) &&
  ((raw (fst (next w)) >=? C) && (raw (fst (next w)) mod I =? 0)).

Lemma calls_S (n : nat) (w : W) :
  calls next (S n) w =
  (fst (next w) :: fst (calls next n (snd (next w))),
   snd (calls next n (snd (next w)))).
Proof.
  simpl. destruct (next w) as [o w1]. simpl.
  destruct (calls next n w1) as [os w2]. reflexivity.
Qed.

Lemma calls_length (n : nat) (w : W) :
  List.length (fst (calls next n w)) = n.
Proof.
  revert w; induction n as [| n IH]; intros w; [reflexivity | ].
  rewrite calls_S. simpl. now rewrite IH.
Qed.

(** Below the panic threshold the raw values form the progression
    [low + step, low + 2 * step, ...]. *)
Lemma calls_raw (n : nat) (w : W) :
  0 < step w ->
  low w + Z.of_nat n * step w < P ->
  map raw (fst (calls next n w)) =
  map (fun k => low w + Z.of_nat k * step w) (seq 1 n).
Proof.
  revert w; induction n as [| n IH]; intros w Hs Hb; [reflexivity | ].
  rewrite calls_S. cbn [fst map seq].
  assert (Hraw : raw (fst (next w)) = low w + step w).
  { rewrite raw_next. apply Z.mod_small.
    pose proof (low_range w). nia. }
  assert (Hlow : low (snd (next w)) = low w + step w).
  { rewrite low_next, Hraw.
    destruct (Z.ltb_spec (low w + step w) P); [reflexivity | nia]. }
  rewrite IH by (rewrite ?step_next, ?Hlow; (assumption || nia)).
  rewrite step_next, Hlow, Hraw.
  f_equal; [lia | ].
  rewrite <- (seq_shift n 1), map_map. apply map_ext. intros k. lia.
Qed.

(** From a state at or below the threshold, every call that stays below
    it sits on the progression. *)
Lemma calls_below (n : nat) : forall (w : W) (j : nat) (o : observation),
  0 < step w <= 1024 ->
  low w <= P ->
  nth_error (fst (calls next n w)) j = Some o ->
  raw o < P ->
  raw o = low w + Z.of_nat (S j) * step w.
Proof.
  induction n as [| n IH]; intros w j o Hs Hl Hj Ho.
  - destruct j; discriminate.
  - rewrite calls_S in Hj. cbn [fst] in Hj.
    assert (Hraw : raw (fst (next w)) = low w + step w).
    { rewrite raw_next. apply Z.mod_small.
      pose proof (low_range w). lia. }
    destruct j as [| j]; cbn [nth_error] in Hj.
    + injection Hj as <-. lia.
    + pose proof (low_next w) as Hn. rewrite Hraw in Hn.
      destruct (Z.ltb_spec (low w + step w) P) as [Hlt | Hge].
      * rewrite (IH _ _ _ ltac:(now rewrite step_next) ltac:(lia) Hj Ho).
        rewrite step_next, Hn. lia.
      * pose proof (IH _ _ _ ltac:(now rewrite step_next) ltac:(lia) Hj Ho)
          as E.
        rewrite step_next, Hn in E. nia.
Qed.

Lemma renews_increase_below (n : nat) (w : W) (i j : nat)
      (oi oj : observation) :
  0 < step w <= 1024 ->
  low w <= P ->
  (i < j)%nat ->
  nth_error (fst (calls next n w)) i = Some oi ->
  nth_error (fst (calls next n w)) j = Some oj ->
  raw oi < P -> raw oj < P ->
  raw oi < raw oj.
Proof.
  intros Hs Hl Hij Hi Hj Pi Pj.
  rewrite (calls_below n w i oi), (calls_below n w j oj) by assumption.
  nia.
Qed.

Lemma renew_below (w : W) :
  renew (fst (next w)) = true -> raw (fst (next w)) < P.
Proof.
  rewrite renew_next. intros H.
  apply andb_prop in H as [H _].
  destruct (Z.geb_spec (raw (fst (next w))) P); [discriminate | lia].
Qed.

Lemma renew_in_calls (n : nat) : forall (w : W) (j : nat) (o : observation),
  nth_error (fst (calls next n w)) j = Some o ->
  renew o = true ->
  raw o < P /\ C <= raw o /\ raw o mod I = 0.
Proof.
  induction n as [| n IH]; intros w j o Hj Ho.
  - destruct j; discriminate.
  - rewrite calls_S in Hj. cbn [fst] in Hj.
    destruct j as [| j]; cbn [nth_error] in Hj.
    + injection Hj as <-. rewrite renew_next in Ho.
      apply andb_prop in Ho as [H1 H2]. apply andb_prop in H2 as [H2 H3].
      destruct (Z.geb_spec (raw (fst (next w))) P); [discriminate | ].
      destruct (Z.geb_spec (raw (fst (next w))) C); [ | discriminate].
      apply Z.eqb_eq in H3. lia.
    + eapply IH; eassumption.
Qed.

(** Two calls that both start a renewal are a whole interval apart, from
    any state. *)
Lemma renews_spaced (n : nat) (w : W) (i j : nat) (oi oj : observation) :
  0 < step w <= 1024 ->
  (i < j)%nat ->
  nth_error (fst (calls next n w)) i = Some oi ->
  nth_error (fst (calls next n w)) j = Some oj ->
  renew oi = true -> renew oj = true ->
  raw oi + I <= raw oj.
Proof.
  intros Hs Hij Hi Hj Ri Rj.
  destruct (renew_in_calls _ _ _ _ Hi Ri) as (Pi & _ & Mi).
  destruct (renew_in_calls _ _ _ _ Hj Rj) as (Pj & _ & Mj).
  assert (Hlt : raw oi < raw oj).
  { destruct n as [| n]; [destruct i; discriminate | ].
    rewrite calls_S in Hi, Hj. cbn [fst] in Hi, Hj.
    destruct j as [| j]; [lia | ]. cbn [nth_error] in Hj.
    assert (Hs1 : 0 < step (snd (next w)) <= 1024)
      by now rewrite step_next.
    assert (Hl1 : low (snd (next w)) <= P).
    { rewrite low_next.
      destruct (Z.ltb_spec (raw (fst (next w))) P); lia. }
    destruct i as [| i]; cbn [nth_error] in Hi.
    - injection Hi as <-.
      rewrite (calls_below n _ j oj Hs1 Hl1 Hj Pj).
      rewrite low_next.
      destruct (Z.ltb_spec (raw (fst (next w))) P); nia.
    - eapply renews_increase_below with (i := i) (j := j);
        try eassumption. lia. }
  apply Z.mod_divide in Mi; [ | lia]. apply Z.mod_divide in Mj; [ | lia].
  destruct Mi as [a Ea], Mj as [b Eb]. rewrite Ea, Eb in *.
  assert (a < b) by nia. nia.
Qed.

End Counter.

(** ** Interleaved calls

    As long as the panic threshold is out of reach, the rest of a call
    leaves the counter word alone, so the values handed out depend only on
    the order of the fetch-and-adds. *)

Section Interleaving.

Variable W : Type.
Variable low : W -> Z.
Variable step : W -> Z.
Variable lowbits : Z -> Z.
Variable add : W -> Z * W.
Variable rest : Z -> W -> result Z * bool * W.
Variables L P : Z.

Hypothesis P_le_L : P <= L.
Hypothesis low_range : forall w, 0 <= low w < L.
Hypothesis add_raw : forall w,
  lowbits (fst (add w)) = (low w + step w) mod L.
Hypothesis add_low : forall w, low (snd (add w)) = lowbits (fst (add w)).
Hypothesis add_step : forall w, step (snd (add w)) = step w.
Hypothesis rest_below : forall v w, lowbits v < P -> snd (rest v w) = w.

Lemma drop_nth_Forall (Q : Z -> Prop) (k : nat) (l : list Z) :
  Forall Q l -> Forall Q (drop_nth k l).
Proof.
  revert k; induction l as [| a l IH]; intros k H;
    [destruct k; constructor | ].
  inversion H as [| a' l' Ha Hl]; subst.
  destruct k as [| k]; cbn [drop_nth]; [assumption | ].
  constructor; [assumption | now apply IH].
Qed.

Lemma schedule_invariant (acts : list action) :
  forall (p : pool W) (a s : Z) (m : nat),
    0 < s ->
    step (shared p) = s ->
    low (shared p) = a + Z.of_nat m * s ->
    0 <= a ->
    a + Z.of_nat (m + fetches acts) * s < P ->
    map lowbits (fetched p) = map (fun k => a + Z.of_nat k * s) (seq 1 m) ->
    Forall (fun v => lowbits v < P) (under_way p) ->
    let q := fold_left (schedule_step add rest) acts p in
    step (shared q) = s /\
    low (shared q) = a + Z.of_nat (m + fetches acts) * s /\
    map lowbits (fetched q)
    = map (fun k => a + Z.of_nat k * s) (seq 1 (m + fetches acts)) /\
    Forall (fun v => lowbits v < P) (under_way q).
Proof.
  induction acts as [| act acts IH]; intros p a s m Hs Hstep Hlow Ha Hb Hf Hu.
  - cbn [fold_left fetches]. rewrite Nat.add_0_r. auto.
  - cbn [fold_left]. destruct act as [| k].
    + (* a fetch-and-add *)
      cbn [fetches] in Hb |- *.
      replace (m + S (fetches acts))%nat with (S m + fetches acts)%nat
        in Hb |- * by lia.
      assert (Hv : lowbits (fst (add (shared p)))
                   = a + Z.of_nat (S m) * s).
      { rewrite add_raw, Hlow, Hstep. rewrite Z.mod_small; [lia | nia]. }
      assert (Epool : schedule_step add rest p Fetch
                      = mkPool (snd (add (shared p)))
                               (under_way p ++ [fst (add (shared p))])
                               (fetched p ++ [fst (add (shared p))])
                               (finished p)).
      { unfold schedule_step. destruct (add (shared p)); reflexivity. }
      rewrite Epool.
      apply IH; cbn [shared under_way fetched]; try assumption.
      * now rewrite add_step.
      * now rewrite add_low, Hv.
      * rewrite map_app, Hf, seq_S, map_app. cbn [map].
        now rewrite Hv.
      * apply Forall_app. split; [assumption | ].
        constructor; [ | constructor]. rewrite Hv. nia.
    + (* the rest of a call under way *)
      cbn [fetches] in Hb |- *.
      destruct (nth_error (under_way p) k) as [v | ] eqn:Hk.
      * assert (Hvlow : lowbits v < P).
        { apply nth_error_In in Hk.
          rewrite Forall_forall in Hu. now apply Hu. }
        pose proof (rest_below v (shared p) Hvlow) as Hsame.
        assert (Epool : exists r go,
                   schedule_step add rest p (Finish k)
                   = mkPool (shared p) (drop_nth k (under_way p)) (fetched p)
                            (finished p ++ [(v, r, go)])).
        { unfold schedule_step. rewrite Hk.
          destruct (rest v (shared p)) as [[r go] w]. cbn [snd] in Hsame.
          subst w. now exists r, go. }
        destruct Epool as (r & go & ->).
        apply IH; cbn [shared under_way fetched]; try assumption.
        now apply drop_nth_Forall.
      * assert (Epool : schedule_step add rest p (Finish k) = p)
          by (unfold schedule_step; now rewrite Hk).
        rewrite Epool. now apply IH.
Qed.

(** Whatever the schedule, the values handed out are the progression, in
    the order of the fetch-and-adds. *)
Lemma schedule_raw (acts : list action) (w : W) :
  0 < step w ->
  low w + Z.of_nat (fetches acts) * step w < P ->
  map lowbits (fetched (schedule add rest acts w))
  = map (fun k => low w + Z.of_nat k * step w) (seq 1 (fetches acts)) /\
  low (shared (schedule add rest acts w))
  = low w + Z.of_nat (fetches acts) * step w.
Proof.
  intros Hs Hb. unfold schedule.
  destruct (schedule_invariant acts (mkPool w [] [] []) (low w) (step w) 0
              Hs eq_refl ltac:(cbn; lia) ltac:(apply low_range)
              ltac:(exact Hb) eq_refl ltac:(constructor))
    as (_ & Hl & Hf & _).
  split; assumption.
Qed.

End Interleaving.

(** ** The 32/32 split as a counter *)

Section H32_counter.

Context {Fn : Type}.
Implicit Types w : H32.WUID Fn.

Lemma H32_PanicValue : H32.PanicValue = 4123167744.
Proof. reflexivity. Qed.

Lemma H32_CriticalValue : H32.CriticalValue = 3435973632.
Proof. reflexivity. Qed.

Lemma H32_L32Mask : H32.L32Mask = Z.ones 32.
Proof. reflexivity. Qed.

Lemma H32_H32Mask : H32.H32Mask = Z.shiftl (Z.ones 21) 32.
Proof. reflexivity. Qed.

Lemma H32_RenewIntervalMask : H32.RenewIntervalMask = Z.ones 25.
Proof. reflexivity. Qed.

Lemma H32_low (v : Z) : Z.land v H32.L32Mask = v mod 2 ^ 32.
Proof. rewrite H32_L32Mask. apply Z.land_ones. lia. Qed.

Lemma H32_low_range (v : Z) : 0 <= Z.land v H32.L32Mask < 2 ^ 32.
Proof. rewrite H32_low. apply Z.mod_pos_bound. lia. Qed.

(** The word a panicking call pins: the masked high part plus the
    threshold. *)
Lemma H32_panicValue (v : Z) :
  Z.lor (Z.land v H32.H32Mask) H32.PanicValue =
  (v / 2 ^ 32) mod 2 ^ 21 * 2 ^ 32 + H32.PanicValue.
Proof.
  rewrite H32_H32Mask, land_hi by lia.
  apply lor_hi_lo; rewrite ?H32_PanicValue; lia.
Qed.

Lemma H32_panicValue_low (v : Z) :
  Z.land (Z.lor (Z.land v H32.H32Mask) H32.PanicValue) H32.L32Mask =
  H32.PanicValue.
Proof.
  rewrite H32_panicValue, H32_low.
  apply split_mod; rewrite ?H32_PanicValue; lia.
Qed.

(** [Next] without interleaving, in one piece. *)
Lemma H32_Next_eq w :
  H32.Next w =
  let v1 := Int64.add (H32.N w) (H32.Step w) in
  if Z.land v1 H32.L32Mask >=? H32.PanicValue then
    (Panic "the low 36 bits are about to run out", false,
     H32.set_N w (Z.lor (Z.land v1 H32.H32Mask) H32.PanicValue))
  else
    (H32.Next_switch w v1,
     (Z.land v1 H32.L32Mask >=? H32.CriticalValue) &&
     (Z.land (Z.land v1 H32.L32Mask) H32.RenewIntervalMask =? 0),
     H32.set_N w v1).
Proof.
  unfold H32.Next, H32.Next_add, H32.AddInt64, H32.Next_rest. cbv zeta.
  destruct (_ >=? H32.PanicValue).
  - unfold H32.CompareAndSwapInt64. cbn [H32.N H32.set_N].
    rewrite Z.eqb_refl. reflexivity.
  - reflexivity.
Qed.

Lemma H32_observe_eq w :
  H32.observe w =
  (mkObservation
     (Z.land (Int64.add (H32.N w) (H32.Step w)) H32.L32Mask)
     (fst (fst (H32.Next w))) (snd (fst (H32.Next w))),
   snd (H32.Next w)).
Proof.
  unfold H32.observe, H32.Next_add, H32.AddInt64.
  destruct (H32.Next w) as [[r go] w']. reflexivity.
Qed.

Lemma H32_raw_next w :
  raw (fst (H32.observe w)) = (H32.low_segment w + H32.Step w) mod 2 ^ 32.
Proof.
  rewrite H32_observe_eq. cbn [fst raw]. unfold H32.low_segment.
  rewrite !H32_low. apply low_add. lia.
Qed.

Lemma H32_low_next w :
  H32.low_segment (snd (H32.observe w)) =
  if raw (fst (H32.observe w)) <? H32.PanicValue
  then raw (fst (H32.observe w)) else H32.PanicValue.
Proof.
  rewrite H32_observe_eq. cbn [fst snd raw]. rewrite H32_Next_eq. cbv zeta.
  set (v1 := Int64.add (H32.N w) (H32.Step w)).
  unfold H32.low_segment.
  destruct (Z.geb_spec (Z.land v1 H32.L32Mask) H32.PanicValue) as [Hge | Hlt];
    cbn [snd H32.N H32.set_N].
  - destruct (Z.ltb_spec (Z.land v1 H32.L32Mask) H32.PanicValue); [lia | ].
    apply H32_panicValue_low.
  - destruct (Z.ltb_spec (Z.land v1 H32.L32Mask) H32.PanicValue); [ | lia].
    reflexivity.
Qed.

Lemma H32_step_next w : H32.Step (snd (H32.observe w)) = H32.Step w.
Proof.
  rewrite H32_observe_eq. cbn [snd]. rewrite H32_Next_eq. cbv zeta.
  destruct (_ >=? H32.PanicValue); reflexivity.
Qed.

Lemma H32_renew_next w :
  renew (fst (H32.observe w)) =
  negb (raw (fst (H32.observe w)) >=? H32.PanicValue) &&
  ((raw (fst (H32.observe w)) >=? H32.CriticalValue) &&
   (raw (fst (H32.observe w)) mod 2 ^ 25 =? 0)).
Proof.
  rewrite H32_observe_eq. cbn [fst raw renew]. rewrite H32_Next_eq.
  cbv zeta.
  set (v1 := Int64.add (H32.N w) (H32.Step w)).
  rewrite H32_RenewIntervalMask, Z.land_ones by lia.
  destruct (_ >=? H32.PanicValue); reflexivity.
Qed.

End H32_counter.

(** ** The 28/36 split as a counter *)

Section H28_counter.

Context {Fn : Type}.
Implicit Types w : H28.WUID Fn.

Lemma H28_PanicValue : H28.PanicValue = 65970697216.
Proof. reflexivity. Qed.

Lemma H28_CriticalValue : H28.CriticalValue = 54975581184.
Proof. reflexivity. Qed.

Lemma H28_L36Mask : H28.L36Mask = Z.ones 36.
Proof. reflexivity. Qed.

Lemma H28_H28Mask : H28.H28Mask = Z.shiftl (Z.ones 27) 36.
Proof. reflexivity. Qed.

Lemma H28_RenewIntervalMask : H28.RenewIntervalMask = Z.ones 29.
Proof. reflexivity. Qed.

Lemma H28_low (v : Z) : Z.land v H28.L36Mask = v mod 2 ^ 36.
Proof. rewrite H28_L36Mask. apply Z.land_ones. lia. Qed.

Lemma H28_low_range (v : Z) : 0 <= Z.land v H28.L36Mask < 2 ^ 36.
Proof. rewrite H28_low. apply Z.mod_pos_bound. lia. Qed.

Lemma H28_panicValue (v : Z) :
  Z.lor (Z.land v H28.H28Mask) H28.PanicValue =
  (v / 2 ^ 36) mod 2 ^ 27 * 2 ^ 36 + H28.PanicValue.
Proof.
  rewrite H28_H28Mask, land_hi by lia.
  apply lor_hi_lo; rewrite ?H28_PanicValue; lia.
Qed.

Lemma H28_panicValue_low (v : Z) :
  Z.land (Z.lor (Z.land v H28.H28Mask) H28.PanicValue) H28.L36Mask =
  H28.PanicValue.
Proof.
  rewrite H28_panicValue, H28_low.
  apply split_mod; rewrite ?H28_PanicValue; lia.
Qed.

Lemma H28_Next_eq w :
  H28.Next w =
  let x := Int64.add (H28.N w) (H28.Step w) in
  if Z.land x H28.L36Mask >=? H28.PanicValue then
    (Panic ("<wuid> the low 36 bits are about to run out. name: "
            ++ H28.Name w),
     false,
     H28.set_N w (Z.lor (Z.land x H28.H28Mask) H28.PanicValue))
  else
    (H28.Next_floor w x,
     (Z.land x H28.L36Mask >=? H28.CriticalValue) &&
     (Z.land (Z.land x H28.L36Mask) H28.RenewIntervalMask =? 0),
     H28.set_N w x).
Proof.
  unfold H28.Next, H28.Next_add, H28.AddInt64, H28.Next_rest.
  cbv zeta.
  destruct (_ >=? H28.PanicValue).
  - unfold H28.CompareAndSwapInt64. cbn [H28.N H28.set_N H28.Name].
    rewrite Z.eqb_refl. reflexivity.
  - reflexivity.
Qed.

Lemma H28_observe_eq w :
  H28.observe w =
  (mkObservation
     (Z.land (Int64.add (H28.N w) (H28.Step w)) H28.L36Mask)
     (fst (fst (H28.Next w))) (snd (fst (H28.Next w))),
   snd (H28.Next w)).
Proof.
  unfold H28.observe, H28.Next_add, H28.AddInt64.
  destruct (H28.Next w) as [[r go] w']. reflexivity.
Qed.

Lemma H28_raw_next w :
  raw (fst (H28.observe w)) = (H28.low_segment w + H28.Step w) mod 2 ^ 36.
Proof.
  rewrite H28_observe_eq. cbn [fst raw]. unfold H28.low_segment.
  rewrite !H28_low. apply low_add. lia.
Qed.

Lemma H28_low_next w :
  H28.low_segment (snd (H28.observe w)) =
  if raw (fst (H28.observe w)) <? H28.PanicValue
  then raw (fst (H28.observe w)) else H28.PanicValue.
Proof.
  rewrite H28_observe_eq. cbn [fst snd raw]. rewrite H28_Next_eq. cbv zeta.
  set (x := Int64.add (H28.N w) (H28.Step w)).
  unfold H28.low_segment.
  destruct (Z.geb_spec (Z.land x H28.L36Mask) H28.PanicValue) as [Hge | Hlt];
    cbn [snd H28.N H28.set_N].
  - destruct (Z.ltb_spec (Z.land x H28.L36Mask) H28.PanicValue); [lia | ].
    apply H28_panicValue_low.
  - destruct (Z.ltb_spec (Z.land x H28.L36Mask) H28.PanicValue); [ | lia].
    reflexivity.
Qed.

Lemma H28_step_next w : H28.Step (snd (H28.observe w)) = H28.Step w.
Proof.
  rewrite H28_observe_eq. cbn [snd]. rewrite H28_Next_eq. cbv zeta.
  destruct (_ >=? H28.PanicValue); reflexivity.
Qed.

Lemma H28_renew_next w :
  renew (fst (H28.observe w)) =
  negb (raw (fst (H28.observe w)) >=? H28.PanicValue) &&
  ((raw (fst (H28.observe w)) >=? H28.CriticalValue) &&
   (raw (fst (H28.observe w)) mod 2 ^ 29 =? 0)).
Proof.
  rewrite H28_observe_eq. cbn [fst raw renew]. rewrite H28_Next_eq.
  cbv zeta.
  set (x := Int64.add (H28.N w) (H28.Step w)).
  rewrite H28_RenewIntervalMask, Z.land_ones by lia.
  destruct (_ >=? H28.PanicValue); reflexivity.
Qed.

End H28_counter.

(** ** Runs below the panic threshold *)

Section Progressions.

Lemma progression_nth (a s : Z) (n i : nat) :
  (i < n)%nat ->
  nth i (map (fun k => a + Z.of_nat k * s) (seq 1 n)) 0 =
  a + Z.of_nat (S i) * s.
Proof.
  intros Hi.
  rewrite (nth_indep _ 0 (a + Z.of_nat 0 * s))
    by (now rewrite length_map, length_seq).
  rewrite (map_nth (fun k => a + Z.of_nat k * s)), seq_nth by assumption.
  reflexivity.
Qed.

(** What it means for a list of raw values to be the run
    [a + s, a + 2 s, ..., a + n s]: the values themselves, their order,
    their distinctness and the gap between neighbours. *)
Lemma progression_facts (a s : Z) (n : nat) (l : list Z) :
  0 < s ->
  l = map (fun k => a + Z.of_nat k * s) (seq 1 n) ->
  List.length l = n /\
  (forall i, (i < n)%nat -> nth i l 0 = a + Z.of_nat (S i) * s) /\
  (forall i j, (i < j < n)%nat -> nth i l 0 < nth j l 0) /\
  NoDup l /\
  (forall i, (S i < n)%nat -> nth (S i) l 0 - nth i l 0 = s).
Proof.
  intros Hs ->.
  assert (Hlen : List.length
                   (map (fun k => a + Z.of_nat k * s) (seq 1 n)) = n)
    by now rewrite length_map, length_seq.
  split; [ | split; [ | split; [ | split]]].
  - exact Hlen.
  - intros i Hi. now apply progression_nth.
  - intros i j Hij. rewrite !progression_nth by lia. nia.
  - apply (NoDup_nth _ 0). rewrite Hlen. intros i j Hi Hj E.
    rewrite !progression_nth in E by assumption. nia.
  - intros i Hi. rewrite !progression_nth by lia. nia.
Qed.

End Progressions.

Section Claim1.

Context {Fn : Type}.

Lemma H32_calls_raw (w : H32.WUID Fn) (n : nat) :
  0 < H32.Step w ->
  H32.low_segment w + Z.of_nat n * H32.Step w < H32.PanicValue ->
  map raw (fst (calls H32.observe n w)) =
  map (fun k => H32.low_segment w + Z.of_nat k * H32.Step w) (seq 1 n).
Proof.
  apply calls_raw with (L := 2 ^ 32).
  - rewrite H32_PanicValue; lia.
  - rewrite H32_PanicValue; lia.
  - intros w'. apply H32_low_range.
  - apply H32_raw_next.
  - apply H32_low_next.
  - apply H32_step_next.
Qed.

Lemma H28_calls_raw (w : H28.WUID Fn) (n : nat) :
  0 < H28.Step w ->
  H28.low_segment w + Z.of_nat n * H28.Step w < H28.PanicValue ->
  map raw (fst (calls H28.observe n w)) =
  map (fun k => H28.low_segment w + Z.of_nat k * H28.Step w) (seq 1 n).
Proof.
  apply calls_raw with (L := 2 ^ 36).
  - rewrite H28_PanicValue; lia.
  - rewrite H28_PanicValue; lia.
  - intros w'. apply H28_low_range.
  - apply H28_raw_next.
  - apply H28_low_next.
  - apply H28_step_next.
Qed.

(** The same under any interleaving of the calls' steps. *)
Lemma H32_schedule_raw (acts : list action) (w : H32.WUID Fn) :
  0 < H32.Step w ->
  H32.low_segment w + Z.of_nat (fetches acts) * H32.Step w
  < H32.PanicValue ->
  map (fun v => Z.land v H32.L32Mask)
      (fetched (schedule H32.Next_add H32.Next_rest acts w))
  = map (fun k => H32.low_segment w + Z.of_nat k * H32.Step w)
        (seq 1 (fetches acts)).
Proof.
  intros Hs Hb.
  apply (schedule_raw (H32.WUID Fn) H32.low_segment H32.Step
                      (fun v => Z.land v H32.L32Mask)
                      H32.Next_add H32.Next_rest (2 ^ 32) H32.PanicValue);
    try assumption.
  - rewrite H32_PanicValue. lia.
  - intros g. apply H32_low_range.
  - intros g. cbn [H32.Next_add H32.AddInt64 fst]. unfold H32.low_segment.
    rewrite !H32_low. apply low_add. lia.
  - reflexivity.
  - reflexivity.
  - intros v g Hv. unfold H32.Next_rest. cbv zeta.
    destruct (Z.geb_spec (Z.land v H32.L32Mask) H32.PanicValue);
      [lia | reflexivity].
Qed.

Lemma H28_schedule_raw (acts : list action) (w : H28.WUID Fn) :
  0 < H28.Step w ->
  H28.low_segment w + Z.of_nat (fetches acts) * H28.Step w
  < H28.PanicValue ->
  map (fun v => Z.land v H28.L36Mask)
      (fetched (schedule H28.Next_add H28.Next_rest acts w))
  = map (fun k => H28.low_segment w + Z.of_nat k * H28.Step w)
        (seq 1 (fetches acts)).
Proof.
  intros Hs Hb.
  apply (schedule_raw (H28.WUID Fn) H28.low_segment H28.Step
                      (fun v => Z.land v H28.L36Mask)
                      H28.Next_add H28.Next_rest (2 ^ 36) H28.PanicValue);
    try assumption.
  - rewrite H28_PanicValue. lia.
  - intros g. apply H28_low_range.
  - intros g. cbn [H28.Next_add H28.AddInt64 fst]. unfold H28.low_segment.
    rewrite !H28_low. apply low_add. lia.
  - reflexivity.
  - reflexivity.
  - intros v g Hv. unfold H28.Next_rest. cbv zeta.
    destruct (Z.geb_spec (Z.land v H28.L36Mask) H28.PanicValue);
      [lia | reflexivity].
Qed.

End Claim1.

Section Claim1_statement.

Context {Fn : Type}.

(** C1.  [n] successive calls of [Next] on one generator, with no [Reset]
    in between and with [low + n * step] still below the panic threshold,
    produce the raw low-segment values
    [low + step, low + 2 * step, ..., low + n * step]: exactly these, in
    strictly increasing order, without duplicates, and with neighbours
    exactly [step] apart.  When the calls run concurrently, whatever the
    interleaving of their steps, the values their fetch-and-adds hand out
    are the same progression.  This holds in the 32/32 split and in the
    28/36 split. *)
Theorem C1_raw_values_progress :
  (forall (w : H32.WUID Fn) (n : nat),
      0 < H32.Step w ->
      H32.low_segment w + Z.of_nat n * H32.Step w < H32.PanicValue ->
      let raws := map raw (fst (calls H32.observe n w)) in
      raws = map (fun k => H32.low_segment w + Z.of_nat k * H32.Step w)
                 (seq 1 n) /\
      (forall i j, (i < j < n)%nat -> nth i raws 0 < nth j raws 0) /\
      NoDup raws /\
      (forall i, (S i < n)%nat ->
                 nth (S i) raws 0 - nth i raws 0 = H32.Step w) /\
      (forall acts, fetches acts = n ->
                    map (fun v => Z.land v H32.L32Mask)
                        (fetched (schedule H32.Next_add H32.Next_rest
                                           acts w))
                    = raws)) /\
  (forall (w : H28.WUID Fn) (n : nat),
      0 < H28.Step w ->
      H28.low_segment w + Z.of_nat n * H28.Step w < H28.PanicValue ->
      let raws := map raw (fst (calls H28.observe n w)) in
      raws = map (fun k => H28.low_segment w + Z.of_nat k * H28.Step w)
                 (seq 1 n) /\
      (forall i j, (i < j < n)%nat -> nth i raws 0 < nth j raws 0) /\
      NoDup raws /\
      (forall i, (S i < n)%nat ->
                 nth (S i) raws 0 - nth i raws 0 = H28.Step w) /\
      (forall acts, fetches acts = n ->
                    map (fun v => Z.land v H28.L36Mask)
                        (fetched (schedule H28.Next_add H28.Next_rest
                                           acts w))
                    = raws)).
Proof.
  split; intros w n Hs Hb raws.
  - pose proof (H32_calls_raw w n Hs Hb) as E. fold raws in E.
    destruct (progression_facts _ _ n raws Hs E) as (_ & _ & ? & ? & ?).
    split_all; auto.
    intros acts <-. rewrite E. now apply H32_schedule_raw.
  - pose proof (H28_calls_raw w n Hs Hb) as E. fold raws in E.
    destruct (progression_facts _ _ n raws Hs E) as (_ & _ & ? & ? & ?).
    split_all; auto.
    intros acts <-. rewrite E. now apply H28_schedule_raw.
Qed.

End Claim1_statement.

Lemma C1_raw_values_progress_witness :
  let acts := [Fetch; Fetch; Finish 1; Fetch; Finish 0; Finish 0] in
  (map raw (fst (calls H32.observe 3 (@Sample.fresh32 unit))) = [1; 2; 3] /\
   map (fun v => Z.land v H32.L32Mask)
       (fetched (schedule H32.Next_add H32.Next_rest acts
                          (@Sample.fresh32 unit)))
   = map raw (fst (calls H32.observe 3 (@Sample.fresh32 unit)))) /\
  (map raw (fst (calls H28.observe 3 (@Sample.fresh28 unit))) = [1; 2; 3] /\
   map (fun v => Z.land v H28.L36Mask)
       (fetched (schedule H28.Next_add H28.Next_rest acts
                          (@Sample.fresh28 unit)))
   = map raw (fst (calls H28.observe 3 (@Sample.fresh28 unit)))).
Proof.
  cbv zeta.
  destruct (@C1_raw_values_progress unit) as [H32run H28run].
  split.
  - destruct (H32run Sample.fresh32 3%nat) as (E & _ & _ & _ & Hsched);
      [vm_compute; reflexivity | vm_compute; reflexivity | ].
    split; [exact E | apply Hsched; reflexivity].
  - destruct (H28run Sample.fresh28 3%nat) as (E & _ & _ & _ & Hsched);
      [vm_compute; reflexivity | vm_compute; reflexivity | ].
    split; [exact E | apply Hsched; reflexivity].
Defined.

(** ** The panic threshold *)

Section Claim2.

Context {Fn : Type}.

Lemma H32_set_N_same (w : H32.WUID Fn) : H32.set_N w (H32.N w) = w.
Proof. destruct w; reflexivity. Qed.

Lemma H28_set_N_same (w : H28.WUID Fn) : H28.set_N w (H28.N w) = w.
Proof. destruct w; reflexivity. Qed.

Lemma H32_Next_panics (w : H32.WUID Fn) :
  H32.PanicValue <= Z.land (fst (H32.Next_add w)) H32.L32Mask ->
  H32.Next w =
  (Panic "the low 36 bits are about to run out", false,
   H32.set_N w (Z.lor (Z.land (fst (H32.Next_add w)) H32.H32Mask)
                      H32.PanicValue)).
Proof.
  cbn [H32.Next_add H32.AddInt64 fst]. intros H.
  rewrite H32_Next_eq. cbv zeta.
  destruct (Z.geb_spec (Z.land (Int64.add (H32.N w) (H32.Step w))
                               H32.L32Mask) H32.PanicValue);
    [reflexivity | lia].
Qed.

Lemma H28_Next_panics (w : H28.WUID Fn) :
  H28.PanicValue <= Z.land (fst (H28.Next_add w)) H28.L36Mask ->
  H28.Next w =
  (Panic ("<wuid> the low 36 bits are about to run out. name: "
          ++ H28.Name w),
   false,
   H28.set_N w (Z.lor (Z.land (fst (H28.Next_add w)) H28.H28Mask)
                      H28.PanicValue)).
Proof.
  cbn [H28.Next_add H28.AddInt64 fst]. intros H.
  rewrite H28_Next_eq. cbv zeta.
  destruct (Z.geb_spec (Z.land (Int64.add (H28.N w) (H28.Step w))
                               H28.L36Mask) H28.PanicValue);
    [reflexivity | lia].
Qed.

(** One step from a pinned word: the sum does not wrap, its low segment
    is past the threshold, and its masked high part is the one pinned. *)
Lemma pinned_step (v p s k m : Z) :
  0 <= k -> 0 <= m -> k + m <= 63 ->
  0 <= p -> 0 <= s -> p + s < 2 ^ k ->
  Int64.add ((v / 2 ^ k) mod 2 ^ m * 2 ^ k + p) s mod 2 ^ k = p + s /\
  (Int64.add ((v / 2 ^ k) mod 2 ^ m * 2 ^ k + p) s / 2 ^ k) mod 2 ^ m =
  (v / 2 ^ k) mod 2 ^ m.
Proof.
  intros Hk Hm Hkm Hp Hs Hps.
  set (h := (v / 2 ^ k) mod 2 ^ m).
  set (x := Int64.add (h * 2 ^ k + p) s).
  assert (Hh : 0 <= h < 2 ^ m)
    by (apply Z.mod_pos_bound, pow2_pos; assumption).
  assert (Hx : x = h * 2 ^ k + (p + s)).
  { unfold x, Int64.add. rewrite wrap_small; [ring | ].
    unfold Int64.in_range, Int64.min_int, Int64.max_int.
    assert (2 ^ m * 2 ^ k <= 2 ^ 63).
    { rewrite <- Z.pow_add_r by lia. apply Z.pow_le_mono_r; lia. }
    pose proof (pow2_pos k Hk). nia. }
  rewrite Hx. split.
  - apply split_mod; lia.
  - rewrite split_div by lia. apply Z.mod_small, Hh.
Qed.

Lemma H32_pinned_stays (w : H32.WUID Fn) (v : Z) :
  0 <= H32.Step w <= 1024 ->
  H32.N w = Z.lor (Z.land v H32.H32Mask) H32.PanicValue ->
  H32.Next w = (Panic "the low 36 bits are about to run out", false, w).
Proof.
  intros Hs HN.
  destruct (pinned_step v H32.PanicValue (H32.Step w) 32 21)
    as [Hlo Hhi]; rewrite ?H32_PanicValue; try lia.
  rewrite <- H32_panicValue, <- HN in Hlo, Hhi.
  rewrite H32_Next_panics; cbn [H32.Next_add H32.AddInt64 fst].
  - rewrite H32_panicValue, Hhi, <- H32_panicValue, <- HN.
    now rewrite H32_set_N_same.
  - rewrite H32_low, Hlo. lia.
Qed.

Lemma H28_pinned_stays (w : H28.WUID Fn) (v : Z) :
  0 <= H28.Step w <= 1024 ->
  H28.N w = Z.lor (Z.land v H28.H28Mask) H28.PanicValue ->
  H28.Next w =
  (Panic ("<wuid> the low 36 bits are about to run out. name: "
          ++ H28.Name w), false, w).
Proof.
  intros Hs HN.
  destruct (pinned_step v H28.PanicValue (H28.Step w) 36 27)
    as [Hlo Hhi]; rewrite ?H28_PanicValue; try lia.
  rewrite <- H28_panicValue, <- HN in Hlo, Hhi.
  rewrite H28_Next_panics; cbn [H28.Next_add H28.AddInt64 fst].
  - rewrite H28_panicValue, Hhi, <- H28_panicValue, <- HN.
    now rewrite H28_set_N_same.
  - rewrite H28_low, Hlo. lia.
Qed.

End Claim2.

Section Claim2_statement.

Context {Fn : Type}.

(** C2.  A call of [Next] whose fetch-and-add yields a low segment at or
    above the panic threshold panics instead of returning a value, and
    its compare-and-swap replaces the word by [high | PanicValue], whose
    low segment is exactly the threshold; the swap takes place only when
    the word still is the value the call produced, otherwise the word is
    left as it is.  On the pinned generator the next call panics in the
    same way and leaves the state pinned.  Both splits. *)
Theorem C2_panic_pins_low_segment :
  (forall w : H32.WUID Fn,
      0 <= H32.Step w <= 1024 ->
      H32.PanicValue <= Z.land (fst (H32.Next_add w)) H32.L32Mask ->
      let v1 := fst (H32.Next_add w) in
      let panicValue := Z.lor (Z.land v1 H32.H32Mask) H32.PanicValue in
      let pinned := H32.set_N w panicValue in
      let stop := Panic "the low 36 bits are about to run out" in
      H32.Next w = (stop, false, pinned) /\
      H32.low_segment pinned = H32.PanicValue /\
      H32.Next pinned = (stop, false, pinned) /\
      (forall cur : H32.WUID Fn,
          H32.N cur = v1 ->
          H32.Next_rest v1 cur = (stop, false, H32.set_N cur panicValue)) /\
      (forall cur : H32.WUID Fn,
          H32.N cur <> v1 ->
          H32.Next_rest v1 cur = (stop, false, cur))) /\
  (forall w : H28.WUID Fn,
      0 <= H28.Step w <= 1024 ->
      H28.PanicValue <= Z.land (fst (H28.Next_add w)) H28.L36Mask ->
      let x := fst (H28.Next_add w) in
      let panicValue := Z.lor (Z.land x H28.H28Mask) H28.PanicValue in
      let pinned := H28.set_N w panicValue in
      let stop (g : H28.WUID Fn) : result Z :=
        Panic ("<wuid> the low 36 bits are about to run out. name: "
               ++ H28.Name g) in
      H28.Next w = (stop w, false, pinned) /\
      H28.low_segment pinned = H28.PanicValue /\
      H28.Next pinned = (stop w, false, pinned) /\
      (forall cur : H28.WUID Fn,
          H28.N cur = x ->
          H28.Next_rest x cur
          = (stop cur, false, H28.set_N cur panicValue)) /\
      (forall cur : H28.WUID Fn,
          H28.N cur <> x ->
          H28.Next_rest x cur = (stop cur, false, cur))).
Proof.
  split; intros w Hs Hp v1 panicValue pinned stop.
  - split; [apply H32_Next_panics, Hp | ].
    split; [apply H32_panicValue_low | ].
    split; [apply (H32_pinned_stays pinned v1); [exact Hs | reflexivity] | ].
    split; intros cur Hc; unfold H32.Next_rest; cbv zeta;
      fold v1 in Hp;
      destruct (Z.geb_spec (Z.land v1 H32.L32Mask) H32.PanicValue);
      try lia; unfold H32.CompareAndSwapInt64.
    + apply Z.eqb_eq in Hc. rewrite Hc. reflexivity.
    + apply Z.eqb_neq in Hc. rewrite Hc. reflexivity.
  - split; [apply H28_Next_panics, Hp | ].
    split; [apply H28_panicValue_low | ].
    split; [apply (H28_pinned_stays pinned v1); [exact Hs | reflexivity] | ].
    split; intros cur Hc; unfold H28.Next_rest; cbv zeta;
      fold v1 in Hp;
      destruct (Z.geb_spec (Z.land v1 H28.L36Mask) H28.PanicValue);
      try lia; unfold H28.CompareAndSwapInt64.
    + apply Z.eqb_eq in Hc. rewrite Hc. reflexivity.
    + apply Z.eqb_neq in Hc. rewrite Hc. reflexivity.
Qed.

End Claim2_statement.

Lemma C2_panic_pins_low_segment_witness :
  (is_panic (fst (fst (H32.Next (@Sample.brink32 unit)))) = true /\
   H32.low_segment (snd (H32.Next (@Sample.brink32 unit))) = H32.PanicValue /\
   H32.Next (snd (H32.Next (@Sample.brink32 unit)))
   = H32.Next (@Sample.brink32 unit)) /\
  (is_panic (fst (fst (H28.Next (@Sample.brink28 unit)))) = true /\
   H28.low_segment (snd (H28.Next (@Sample.brink28 unit))) = H28.PanicValue /\
   H28.Next (snd (H28.Next (@Sample.brink28 unit)))
   = H28.Next (@Sample.brink28 unit)).
Proof.
  destruct (@C2_panic_pins_low_segment unit) as [P32 P28].
  split.
  - destruct (P32 (@Sample.brink32 unit)) as (E1 & E2 & E3 & _);
      [vm_compute; split; discriminate | vm_compute; discriminate | ].
    rewrite E1. cbn [fst snd is_panic]. rewrite E3. auto.
  - destruct (P28 (@Sample.brink28 unit)) as (E1 & E2 & E3 & _);
      [vm_compute; split; discriminate | vm_compute; discriminate | ].
    rewrite E1. cbn [fst snd is_panic]. rewrite E3. auto.
Defined.

(** ** Verification of a candidate high segment *)

Section Verify.

Context {Fn : Type}.

Lemma H32_Verify_rejects (w : H32.WUID Fn) (h32 : Z) :
  h32 <= 0 \/ H32.limit w < h32 \/ h32 = H32.high_segment w (H32.N w) ->
  H32.Verifyh32 w h32 <> None.
Proof.
  unfold H32.Verifyh32, H32.limit, H32.high_segment, H32.LoadInt64.
  cbv zeta. intros H.
  destruct (Z.leb_spec h32 0); [discriminate | ].
  destruct (H32.Monolithic w).
  - destruct (Z.gtb_spec h32 0x1FFFFF); [discriminate | ].
    destruct (Z.eqb_spec h32 (Z.shiftr (H32.N w) 32)); [discriminate | ].
    lia.
  - destruct (Z.gtb_spec h32 0x00FFFFFF); [discriminate | ].
    destruct (Z.eqb_spec h32 (Z.land (Z.shiftr (H32.N w) 32) 0x00FFFFFF));
      [discriminate | ].
    lia.
Qed.


Lemma H28_Verify_rejects (w : H28.WUID Fn) (h28 : Z) :
  h28 <= 0 \/ H28.limit w < h28 \/ h28 = H28.high_segment w (H28.N w) ->
  H28.VerifyH28 w h28 <> None.
Proof.
  unfold H28.VerifyH28, H28.limit, H28.high_segment, H28.LoadInt64.
  cbv zeta. intros H.
  destruct (Z.leb_spec h28 0); [discriminate | ].
  destruct (H28.Monolithic w).
  - destruct (Z.gtb_spec h28 0x07FFFFFF); [discriminate | ].
    destruct (Z.eqb_spec h28 (Z.shiftr (H28.N w) 36)); [discriminate | ].
    lia.
  - destruct (Z.gtb_spec h28 0x00FFFFFF); [discriminate | ].
    destruct (Z.eqb_spec h28 (Z.land (Z.shiftr (H28.N w) 36) 0x00FFFFFF));
      [discriminate | ].
    lia.
Qed.

Lemma H28_Verify_accepts (w : H28.WUID Fn) (h28 : Z) :
  H28.H28Verifier w = None ->
  0 < h28 <= H28.limit w ->
  h28 <> H28.high_segment w (H28.N w) ->
  H28.VerifyH28 w h28 = None.
Proof.
  unfold H28.VerifyH28, H28.limit, H28.high_segment, H28.LoadInt64.
  cbv zeta. intros Hv Hr Hne. rewrite Hv.
  destruct (Z.leb_spec h28 0); [lia | ].
  destruct (H28.Monolithic w).
  - destruct (Z.gtb_spec h28 0x07FFFFFF); [lia | ].
    destruct (Z.eqb_spec h28 (Z.shiftr (H28.N w) 36)); [contradiction | ].
    reflexivity.
  - destruct (Z.gtb_spec h28 0x00FFFFFF); [lia | ].
    destruct (Z.eqb_spec h28 (Z.land (Z.shiftr (H28.N w) 36) 0x00FFFFFF));
      [contradiction | ].
    reflexivity.
Qed.

(** What an accepted candidate is known to satisfy. *)
Lemma H32_Verify_None (w : H32.WUID Fn) (h32 : Z) :
  H32.Verifyh32 w h32 = None ->
  0 < h32 <= H32.limit w /\ h32 <> H32.high_segment w (H32.N w).
Proof.
  intros Hv.
  pose proof (H32_Verify_rejects w h32) as Hr.
  split; [split | ].
  - destruct (Z.lt_ge_cases 0 h32); [assumption | ].
    exfalso. apply Hr; [left; lia | exact Hv].
  - destruct (Z.le_gt_cases h32 (H32.limit w)); [assumption | ].
    exfalso. apply Hr; [right; left; lia | exact Hv].
  - intros E. apply Hr; [right; right; exact E | exact Hv].
Qed.

Lemma H28_Verify_None (w : H28.WUID Fn) (h28 : Z) :
  H28.VerifyH28 w h28 = None ->
  0 < h28 <= H28.limit w /\ h28 <> H28.high_segment w (H28.N w).
Proof.
  intros Hv.
  pose proof (H28_Verify_rejects w h28) as Hr.
  split; [split | ].
  - destruct (Z.lt_ge_cases 0 h28); [assumption | ].
    exfalso. apply Hr; [left; lia | exact Hv].
  - destruct (Z.le_gt_cases h28 (H28.limit w)); [assumption | ].
    exfalso. apply Hr; [right; left; lia | exact Hv].
  - intros E. apply Hr; [right; right; exact E | exact Hv].
Qed.

(** In the 28/36 split sectioning narrows the range of candidates. *)
Lemma H28_limit_narrower (w s : H28.WUID Fn) :
  H28.Monolithic w = true -> H28.Monolithic s = false ->
  H28.limit s < H28.limit w.
Proof. unfold H28.limit. intros -> ->. reflexivity. Qed.

End Verify.

(** C3.  The claim at sectioned generators of the 32/32 split.  The
    candidate [0x200000] is beyond the 21 bits that [H32Mask] keeps and that
    the monolithic branch of [Verifyh32] enforces, and sectioning is said to
    narrow the range; yet [Verifyh32] lets it through, because the sectioned
    branch compares with [0x00FFFFFF].  With obfuscation on, the accepted
    candidates [0x200000] and [0x400000] lead to the same identifier: they
    are beyond what the generator can address.  The generators are the ones
    [NewWUID("g", nil, WithSection(1))] and
    [NewWUID("g", nil, WithSection(1), WithObfuscation(1))] build. *)
Theorem C3_sectioned_limit_beyond_mask :
  let plain : H32.WUID unit := Sample.sectioned32 in
  let masked : H32.WUID unit := Sample.masked32 in
  H32.WithSection 1 = Ok (H32.WithSection_fn 1) /\
  H32.NewWUID "g" [H32.WithSection_fn 1] = Ok plain /\
  H32.Verifyh32 plain 0x200000 = None /\
  H32.Verifyh32 (@Sample.fresh32 unit) 0x200000
  = Some "h32 should not exceed 0x1FFFFF" /\
  H32.limit (@Sample.fresh32 unit) < H32.limit plain /\
  Z.land (Int64.shl 0x200000 32) H32.H32Mask = 0 /\
  H32.Verifyh32 masked 0x200000 = None /\
  H32.Verifyh32 masked 0x400000 = None /\
  fst (fst (H32.Next (snd (H32.Reset masked (Int64.shl 0x200000 32)))))
  = fst (fst (H32.Next (snd (H32.Reset masked (Int64.shl 0x400000 32))))).
Proof. repeat split. Qed.

(** ** When a renewal is started *)

Section Claim4.

Context {Fn : Type}.

Lemma renew_condition (r P C k : Z) :
  0 <= k ->
  negb (r >=? P) && ((r >=? C) && (r mod 2 ^ k =? 0)) = true <->
  r < P /\ C <= r /\ Z.land r (Z.ones k) = 0.
Proof.
  intros Hk. rewrite Z.land_ones by assumption.
  destruct (Z.geb_spec r P), (Z.geb_spec r C), (Z.eqb_spec (r mod 2 ^ k) 0);
    cbn; split; intros Hyp; try discriminate; try lia; auto.
Qed.

End Claim4.

(** ** Renewal on demand *)

Section Claim5.

Context {Fn Ext : Type}.

(** C5, as the code has it.  [RenewNow] runs the function bound to
    [Renew] and returns what that function returns (its error or nil,
    together with whatever it did to the generator and the outside
    world).  With no function bound the call does not return an error: it
    panics on the call of a nil function value, and the generator is left
    as it was.  Both splits. *)
Theorem C5_RenewNow_runs_the_bound_function :
  (forall (call : Fn -> H32.WUID Fn -> Ext
                  -> result (option error) * H32.WUID Fn * Ext)
          (w : H32.WUID Fn) (e : Ext),
      (forall f, H32.Renew w = Some f ->
                 H32.RenewNow call w e = call f w e) /\
      (H32.Renew w = None ->
       H32.RenewNow call w e = (Panic nil_call, w, e))) /\
  (forall (call : Fn -> H28.WUID Fn -> Ext
                  -> result (option error) * H28.WUID Fn * Ext)
          (w : H28.WUID Fn) (e : Ext),
      (forall f, H28.Renew w = Some f ->
                 H28.RenewNow call w e = call f w e) /\
      (H28.Renew w = None ->
       H28.RenewNow call w e = (Panic nil_call, w, e))).
Proof.
  split; intros call w e; split.
  - intros f Hf. unfold H32.RenewNow. now rewrite Hf.
  - intros Hn. unfold H32.RenewNow. now rewrite Hn.
  - intros f Hf. unfold H28.RenewNow. now rewrite Hf.
  - intros Hn. unfold H28.RenewNow. now rewrite Hn.
Qed.

End Claim5.

Lemma C5_RenewNow_runs_the_bound_function_witness :
  (Redis.RenewNow Sample.bound32 Sample.server
   = Redis.Loadh32FromRedis (Some (Redis.Live, true, None)) "wuid"
                            Sample.bound32 Sample.server /\
   fst (fst (Redis.RenewNow Sample.bound32 Sample.server)) = Ok None) /\
  H28.RenewNow Sample.idle Sample.bound28 tt = (Ok None, Sample.bound28, tt) /\
  H28.RenewNow Sample.idle Sample.fresh28 tt
  = (Panic nil_call, Sample.fresh28, tt).
Proof.
  destruct (@C5_RenewNow_runs_the_bound_function unit unit) as [_ R28].
  destruct (@C5_RenewNow_runs_the_bound_function Redis.renewFn Redis.Server)
    as [R32 _].
  split; [ | split].
  - destruct (R32 Redis.call Sample.bound32 Sample.server) as [Hb _].
    unfold Redis.RenewNow.
    rewrite (Hb _ eq_refl). split; reflexivity.
  - destruct (R28 Sample.idle Sample.bound28 tt) as [Hb _].
    exact (Hb tt eq_refl).
  - destruct (R28 Sample.idle Sample.fresh28 tt) as [_ Hn].
    exact (Hn eq_refl).
Defined.

(** The goroutine that [Next] starts counts one attempt whatever happens,
    a panic of the bound function included, and one renewal exactly when
    the bound function returned nil. *)
Lemma H32_renewImpl_counts {Fn Ext : Type}
      (call : Fn -> H32.WUID Fn -> Ext
              -> result (option error) * H32.WUID Fn * Ext)
      (w : H32.WUID Fn) (e : Ext) :
  let r := fst (fst (H32.RenewNow call w e)) in
  let w1 := snd (fst (H32.RenewNow call w e)) in
  let w' := fst (H32.renewImpl call w e) in
  H32.NumRenewAttempts (H32.Stats w')
  = Int64.add (H32.NumRenewAttempts (H32.Stats w1)) 1 /\
  H32.NumRenewed (H32.Stats w')
  = match r with
    | Ok None => Int64.add (H32.NumRenewed (H32.Stats w1)) 1
    | _ => H32.NumRenewed (H32.Stats w1)
    end /\
  H32.N w' = H32.N w1.
Proof.
  unfold H32.renewImpl.
  destruct (H32.RenewNow call w e) as [[r w1] e1]. cbn [fst snd].
  destruct r as [[err | ] | m]; repeat split.
Qed.

(** C5 as stated fails on a generator that never loaded a high segment:
    [RenewNow] panics, it returns no error value at all. *)
Lemma C5_unbound_RenewNow_panics :
  let w : Redis.WUID := Sample.fresh32 in
  H32.Renew w = None /\
  fst (fst (Redis.RenewNow w Sample.server)) = Panic nil_call /\
  (forall err : error,
      fst (fst (Redis.RenewNow w Sample.server)) <> Ok (Some err)).
Proof.
  cbv zeta. split; [reflexivity | split; [reflexivity | ]].
  intros err. discriminate.
Qed.

(** ** Configurations that NewWUID produces *)

Section Configuration.

Context {Fn : Type}.

Lemma steps_bounds (steps_of : list Z) (step : Z) :
  steps_of = [1; 2; 4; 8; 16; 32; 64; 128; 256; 512; 1024] ->
  In step steps_of -> 0 < step <= 1024.
Proof.
  intros -> H. cbn in H.
  repeat (destruct H as [<- | H]; [lia | ]). contradiction.
Qed.

Lemma H32_steps_bounds (step : Z) : In step H32.steps -> 0 < step <= 1024.
Proof. apply steps_bounds. reflexivity. Qed.

Lemma H28_steps_bounds (step : Z) : In step H28.steps -> 0 < step <= 1024.
Proof. apply steps_bounds. reflexivity. Qed.

Lemma mix_range (seed : Z) : 0 <= H32.mix seed < 2 ^ 63.
Proof.
  unfold H32.mix. cbv zeta.
  change 0x7FFFFFFFFFFFFFFF with (Z.ones 63).
  rewrite Z.land_ones by lia. apply Z.mod_pos_bound. lia.
Qed.

Lemma lor_range (a b n : Z) :
  0 <= n -> 0 <= a < 2 ^ n -> 0 <= b < 2 ^ n -> 0 <= Z.lor a b < 2 ^ n.
Proof.
  intros Hn Ha Hb.
  assert (E : Z.lor a b = Z.land (Z.lor a b) (Z.ones n)).
  { rewrite Z.land_lor_distr_l, !Z.land_ones, !Z.mod_small by lia.
    reflexivity. }
  rewrite E, Z.land_ones by lia. apply Z.mod_pos_bound, pow2_pos, Hn.
Qed.

Lemma land_lor_same (a b : Z) : Z.land (Z.lor a b) b = b.
Proof.
  apply Z.bits_inj'; intros i Hi.
  rewrite Z.land_spec, Z.lor_spec.
  destruct (Z.testbit a i), (Z.testbit b i); reflexivity.
Qed.

(** What the [With...] functions let through. *)
Lemma H32_built_inv (o : H32.Option) :
  H32.built o ->
  match o with
  | H32.Withh32Verifier_fn _ => True
  | H32.WithSection_fn section => 0 <= section <= 7
  | H32.WithStep_fn step floor =>
      In step H32.steps /\ (floor = 0 \/ 0 < floor < step)
  | H32.WithObfuscation_fn seed => seed <> 0
  end.
Proof.
  intros [[cb H] | [[section H] | [[step [floor H]] | [seed H]]]].
  - injection H as <-. exact I.
  - unfold H32.WithSection in H.
    destruct (Z.ltb_spec section 0), (Z.gtb_spec section 7);
      cbn in H; try discriminate.
    injection H as <-. lia.
  - unfold H32.WithStep in H.
    destruct (existsb (Z.eqb step) H32.steps) eqn:Hin; [ | discriminate].
    apply existsb_exists in Hin as (x & Hx & Heq).
    apply Z.eqb_eq in Heq. subst x.
    destruct (Z.eqb_spec floor 0), (Z.ltb_spec floor 0),
      (Z.geb_spec floor step); cbn in H; try discriminate;
      injection H as <-; split; (assumption || lia).
  - unfold H32.WithObfuscation in H.
    destruct (Z.eqb_spec seed 0); [discriminate | ].
    injection H as <-. assumption.
Qed.

Lemma H32_section_shl (section : Z) :
  0 <= section <= 7 -> Int64.shl section 60 = section * 2 ^ 60.
Proof.
  intros H. unfold Int64.shl. rewrite Z.shiftl_mul_pow2 by lia.
  apply wrap_small. unfold Int64.in_range, Int64.min_int, Int64.max_int.
  lia.
Qed.

(** The state of the generator while the options are applied: all of
    [configured] but the low ones of the mask, which [NewWUID] sets last. *)
Lemma H32_apply_Options_inv (opts : list H32.Option) :
  forall w w' : H32.WUID Fn,
    Forall H32.built opts ->
    H32.apply_Options opts w = Ok w' ->
    (In (H32.Step w) H32.steps /\
     (H32.Floor w = 0 \/ 2 <= H32.Floor w < H32.Step w) /\
     H32.Flags w
     = Z.b2z (H32.Obfuscation w) + 2 * Z.b2z (2 <=? H32.Floor w) /\
     0 <= H32.ObfuscationMask w < 2 ^ 63 /\
     (if H32.Monolithic w then H32.Section_ w = 0
      else exists section,
          0 <= section <= 7 /\ H32.Section_ w = section * 2 ^ 60)) ->
    (In (H32.Step w') H32.steps /\
     (H32.Floor w' = 0 \/ 2 <= H32.Floor w' < H32.Step w') /\
     H32.Flags w'
     = Z.b2z (H32.Obfuscation w') + 2 * Z.b2z (2 <=? H32.Floor w') /\
     0 <= H32.ObfuscationMask w' < 2 ^ 63 /\
     (if H32.Monolithic w' then H32.Section_ w' = 0
      else exists section,
          0 <= section <= 7 /\ H32.Section_ w' = section * 2 ^ 60)) /\
    H32.N w' = H32.N w.
Proof.
  induction opts as [| o opts IH]; intros w w' Hb Happ Inv.
  - injection Happ as <-. split; [exact Inv | reflexivity].
  - inversion Hb as [| o' opts' Ho Hrest]; subst.
    apply H32_built_inv in Ho.
    cbn [H32.apply_Options] in Happ.
    destruct (H32.apply_Option o w) as [w1 | m] eqn:Hone; [ | discriminate].
    destruct Inv as (Is & If & Ifl & Im & Isec).
    assert (Inv1 :
              (In (H32.Step w1) H32.steps /\
               (H32.Floor w1 = 0 \/ 2 <= H32.Floor w1 < H32.Step w1) /\
               H32.Flags w1
               = Z.b2z (H32.Obfuscation w1)
                 + 2 * Z.b2z (2 <=? H32.Floor w1) /\
               0 <= H32.ObfuscationMask w1 < 2 ^ 63 /\
               (if H32.Monolithic w1 then H32.Section_ w1 = 0
                else exists section,
                    0 <= section <= 7 /\
                    H32.Section_ w1 = section * 2 ^ 60)) /\
              H32.N w1 = H32.N w).
    { destruct o as [cb | section | step floor | seed];
        cbn [H32.apply_Option] in Hone.
      - injection Hone as <-. cbn [H32.Step H32.Floor H32.Flags
          H32.Obfuscation H32.ObfuscationMask H32.Monolithic H32.Section_
          H32.N].
        auto 6.
      - injection Hone as <-. cbn [H32.Step H32.Floor H32.Flags
          H32.Obfuscation H32.ObfuscationMask H32.Monolithic H32.Section_
          H32.N].
        split_all; try assumption; try lia; try reflexivity.
        exists section. split; [exact Ho | now apply H32_section_shl].
      - destruct (Z.eqb_spec (H32.Step w) 1) as [H1 | H1];
          cbn [negb] in Hone; [ | discriminate].
        assert (F0 : H32.Floor w = 0) by lia.
        rewrite F0 in Ifl. cbn in Ifl.
        destruct Ho as [Hin Hfl].
        destruct (Z.geb_spec floor 2) as [Hge | Hlt];
          injection Hone as <-; cbn [H32.Step H32.Floor H32.Flags
            H32.Obfuscation H32.ObfuscationMask H32.Monolithic
            H32.Section_ H32.N].
        + split_all; try assumption; try lia; try reflexivity.
          rewrite Ifl.
          destruct (Z.leb_spec 2 floor); [ | lia].
          destruct (H32.Obfuscation w); reflexivity.
        + split_all; try assumption; try lia; try reflexivity.
          rewrite F0. cbn. lia.
      - injection Hone as <-.
        cbn [H32.Step H32.Floor H32.Flags H32.Obfuscation
             H32.ObfuscationMask H32.Monolithic H32.Section_ H32.N].
        split_all; try assumption; try apply mix_range; try reflexivity.
        rewrite Ifl.
        destruct (H32.Obfuscation w), (2 <=? H32.Floor w); reflexivity. }
    destruct Inv1 as [Inv1 N1].
    destruct (IH w1 w' Hrest Happ Inv1) as [Inv' N'].
    split; [exact Inv' | congruence].
Qed.

(** Every generator that [NewWUID] returns, given options that the
    [With...] functions returned, is [configured], with a zero counter. *)
Lemma H32_NewWUID_configured (name : string) (opts : list H32.Option)
      (w : H32.WUID Fn) :
  Forall H32.built opts ->
  H32.NewWUID name opts = Ok w ->
  H32.configured w /\ H32.N w = 0.
Proof.
  intros Hb Hnew. unfold H32.NewWUID in Hnew.
  destruct (H32.apply_Options opts _) as [w0 | m] eqn:Happ; [ | discriminate].
  apply H32_apply_Options_inv in Happ; [ | exact Hb | ].
  - destruct Happ as [(Is & If & Ifl & Im & Isec) N0]. cbn in N0.
    pose proof (H32_steps_bounds _ Is) as Hs.
    destruct (H32.Obfuscation w0) eqn:Hobf; cbn [negb orb] in Hnew.
    + destruct (Z.eqb_spec (H32.Floor w0) 0) as [F0 | F0];
        injection Hnew as <-.
      * split; [ | exact N0].
        constructor; try assumption.
        -- rewrite Hobf. exact Ifl.
        -- intros _ Hf. contradiction.
      * split; [ | exact N0].
        assert (Hsub : Int64.sub (H32.Step w0) 1 = H32.Step w0 - 1).
        { apply wrap_small.
          unfold Int64.in_range, Int64.min_int, Int64.max_int. lia. }
        constructor;
          cbn [H32.Step H32.Floor H32.Flags H32.Obfuscation
               H32.ObfuscationMask H32.Monolithic H32.Section_];
          try assumption.
        -- rewrite Hsub. apply lor_range; lia.
        -- intros _ _. rewrite Hsub. apply land_lor_same.
    + injection Hnew as <-. split; [ | exact N0].
      constructor; try assumption.
      * rewrite Hobf. exact Ifl.
      * intros Ht. rewrite Hobf in Ht. discriminate.
  - cbn. split_all; try lia; reflexivity.
Qed.

Lemma H28_built_inv (o : H28.Option) :
  H28.built o ->
  match o with
  | H28.WithSection_fn section => 0 <= section <= 7
  | H28.WithH28Verifier_fn _ => True
  | H28.WithStep_fn step floor => In step H28.steps /\ 0 <= floor < step
  end.
Proof.
  intros [[section H] | [[cb H] | [step [floor H]]]].
  - unfold H28.WithSection in H.
    destruct (Z.ltb_spec section 0), (Z.gtb_spec section 7);
      cbn in H; try discriminate.
    injection H as <-. lia.
  - injection H as <-. exact I.
  - unfold H28.WithStep in H.
    destruct (existsb (Z.eqb step) H28.steps) eqn:Hin; [ | discriminate].
    apply existsb_exists in Hin as (x & Hx & Heq).
    apply Z.eqb_eq in Heq. subst x.
    pose proof (H28_steps_bounds _ Hx).
    destruct (Z.eqb_spec floor 0), (Z.ltb_spec floor 0),
      (Z.geb_spec floor step); cbn in H; try discriminate;
      injection H as <-; split; (assumption || lia).
Qed.

Lemma H28_fold_configured (opts : list H28.Option) :
  forall w : H28.WUID Fn,
    Forall H28.built opts ->
    H28.configured w ->
    H28.configured
      (fold_left (fun w opt => H28.apply_Option opt w) opts w) /\
    H28.N (fold_left (fun w opt => H28.apply_Option opt w) opts w) = H28.N w.
Proof.
  induction opts as [| o opts IH]; intros w Hb Hc; [split; auto | ].
  inversion Hb as [| o' opts' Ho Hrest]; subst.
  apply H28_built_inv in Ho. cbn [fold_left].
  destruct Hc as [Cs Cf Csec].
  destruct (IH (H28.apply_Option o w) Hrest) as [Hc' Hn'].
  - destruct o as [section | cb | step floor]; cbn [H28.apply_Option].
    + constructor; cbn; try assumption.
      exists section. split; [exact Ho | now apply H32_section_shl].
    + constructor; cbn; assumption.
    + destruct Ho. constructor; cbn; assumption.
  - split; [exact Hc' | ]. rewrite Hn'. destruct o; reflexivity.
Qed.

Lemma H28_NewWUID_configured (name : string) (opts : list H28.Option) :
  Forall H28.built opts ->
  H28.configured (@H28.NewWUID Fn name opts) /\
  H28.N (@H28.NewWUID Fn name opts) = 0.
Proof.
  intros Hb. unfold H28.NewWUID.
  apply (H28_fold_configured opts); [exact Hb | ].
  constructor; cbn; [left; reflexivity | lia | reflexivity].
Qed.

End Configuration.

(** ** Quantisation to the floor *)

Section Quantisation.

Context {Fn : Type}.

(** [q / floor * floor] on [int64], for a positive floor: neither the
    quotient nor the product wraps, and the result is a multiple of the
    floor between [0] and [q]. *)
Lemma quantise_spec (q F : Z) :
  0 < F -> Int64.in_range q ->
  Int64.div q F = Ok (Z.quot q F) /\
  Int64.mul (Z.quot q F) F = q - Z.rem q F /\
  Z.rem (q - Z.rem q F) F = 0.
Proof.
  unfold Int64.in_range, Int64.min_int, Int64.max_int. intros HF Hq.
  pose proof (Z.quot_rem' q F) as E.
  assert (Hr : 0 <= q /\ 0 <= Z.rem q F < F /\ 0 <= Z.quot q F \/
               q <= 0 /\ - F < Z.rem q F <= 0 /\ Z.quot q F <= 0).
  { destruct (Z.le_gt_cases 0 q) as [Hpos | Hneg].
    - left. pose proof (Z.rem_bound_pos q F Hpos HF).
      pose proof (Z.quot_pos q F Hpos HF). lia.
    - right. pose proof (Z.rem_bound_pos_neg q F HF ltac:(lia)).
      assert (Z.quot q F <= 0) by nia. lia. }
  assert (Hd : Int64.in_range (Z.quot q F)).
  { unfold Int64.in_range, Int64.min_int, Int64.max_int. nia. }
  assert (Hm : Int64.in_range (Z.quot q F * F)).
  { unfold Int64.in_range, Int64.min_int, Int64.max_int. nia. }
  split; [ | split].
  - unfold Int64.div. destruct (Z.eqb_spec F 0); [lia | ].
    now rewrite wrap_small.
  - unfold Int64.mul. rewrite wrap_small by assumption. lia.
  - replace (q - Z.rem q F) with (Z.quot q F * F) by lia.
    apply Z.rem_mul. lia.
Qed.

Lemma add_in_range (a b : Z) : Int64.in_range (Int64.add a b).
Proof. apply wrap_range. Qed.

(** In the 28/36 split every value [Next] returns under a positive floor
    is a multiple of the floor. *)
Lemma H28_Next_multiple (w : H28.WUID Fn) (r : Z) :
  0 < H28.Floor w ->
  fst (fst (H28.Next w)) = Ok r ->
  Z.rem r (H28.Floor w) = 0.
Proof.
  intros HF. rewrite H28_Next_eq. cbv zeta.
  destruct (_ >=? H28.PanicValue); cbn [fst]; [discriminate | ].
  unfold H28.Next_floor.
  destruct (Z.eqb_spec (H28.Floor w) 0); [lia | ].
  destruct (quantise_spec (Int64.add (H28.N w) (H28.Step w)) (H28.Floor w)
              HF (add_in_range _ _)) as (Ed & Em & Ez).
  rewrite Ed, Em. intros E. injection E as <-. exact Ez.
Qed.

(** The value that obfuscation builds lies in [0, 2^53). *)
Lemma H32_obfuscated_range (v x : Z) :
  0 <= Z.lor (Z.land v H32.H32Mask) (Z.land x H32.L32Mask) < 2 ^ 53.
Proof.
  rewrite H32_H32Mask, land_hi, H32_low by lia.
  pose proof (Z.mod_pos_bound (v / 2 ^ 32) (2 ^ 21) ltac:(lia)).
  pose proof (Z.mod_pos_bound x (2 ^ 32) ltac:(lia)).
  rewrite lor_hi_lo by lia. nia.
Qed.

(** In the 32/32 split every value [Next] returns from a generator
    configured with a floor of at least 2 is a multiple of the floor. *)
Lemma H32_Next_multiple (w : H32.WUID Fn) (r : Z) :
  H32.configured w ->
  2 <= H32.Floor w ->
  fst (fst (H32.Next w)) = Ok r ->
  Z.rem r (H32.Floor w) = 0.
Proof.
  intros Hc HF. rewrite H32_Next_eq. cbv zeta.
  destruct (_ >=? H32.PanicValue); cbn [fst]; [discriminate | ].
  unfold H32.Next_switch. rewrite (H32.cfg_flags w Hc).
  destruct (Z.leb_spec 2 (H32.Floor w)); [ | lia].
  destruct (H32.Obfuscation w); cbn [Z.b2z Z.add Z.mul Pos.add Pos.mul].
  - set (q := Z.lor _ _).
    assert (Hq : Int64.in_range q).
    { pose proof (H32_obfuscated_range
                    (Int64.add (H32.N w) (H32.Step w))
                    (Z.lxor (Int64.add (H32.N w) (H32.Step w))
                            (H32.ObfuscationMask w))) as Hr.
      fold q in Hr.
      unfold Int64.in_range, Int64.min_int, Int64.max_int. lia. }
    destruct (quantise_spec q (H32.Floor w) ltac:(lia) Hq) as (Ed & Em & Ez).
    rewrite Ed, Em. intros E. injection E as <-. exact Ez.
  - destruct (quantise_spec (Int64.add (H32.N w) (H32.Step w)) (H32.Floor w)
                ltac:(lia) (add_in_range _ _)) as (Ed & Em & Ez).
    rewrite Ed, Em. intros E. injection E as <-. exact Ez.
Qed.

End Quantisation.

(** ** Loading a verified candidate and drawing the first identifier *)

Section Loading.

Context {Fn : Type}.

Lemma steps_pow2 (step : Z) :
  In step H32.steps -> exists j, 0 <= j <= 10 /\ step = 2 ^ j.
Proof.
  intros H. cbn in H.
  destruct H as [<- | [<- | [<- | [<- | [<- | [<- | H]]]]]];
    [exists 0 | exists 1 | exists 2 | exists 3 | exists 4 | exists 5 | ];
    try (split; [lia | reflexivity]).
  destruct H as [<- | [<- | [<- | [<- | [<- | H]]]]];
    [exists 6 | exists 7 | exists 8 | exists 9 | exists 10 | contradiction];
    split; (lia || reflexivity).
Qed.

Lemma H32_configured_set_N (w : H32.WUID Fn) (n : Z) :
  H32.configured w -> H32.configured (H32.set_N w n).
Proof. intros [? ? ? ? ? ?]. constructor; assumption. Qed.

Lemma H28_configured_set_N (w : H28.WUID Fn) (n : Z) :
  H28.configured w -> H28.configured (H28.set_N w n).
Proof. intros [? ? ?]. constructor; assumption. Qed.

(** The section tag of a configured generator, in one form for both
    modes. *)
Lemma H32_section_form (w : H32.WUID Fn) :
  H32.configured w ->
  exists s, 0 <= s <= 7 /\ H32.Section_ w = s * 2 ^ 60 /\
            (H32.Monolithic w = true -> s = 0).
Proof.
  intros Hc. pose proof (H32.cfg_section w Hc) as Hs.
  destruct (H32.Monolithic w).
  - exists 0. rewrite Hs. split; [lia | split; [lia | reflexivity]].
  - destruct Hs as (s & Hr & E). exists s.
    split; [exact Hr | split; [exact E | discriminate]].
Qed.

Lemma H28_section_form (w : H28.WUID Fn) :
  H28.configured w ->
  exists s, 0 <= s <= 7 /\ H28.Section_ w = s * 2 ^ 60 /\
            (H28.Monolithic w = true -> s = 0).
Proof.
  intros Hc. pose proof (H28.cfg_section w Hc) as Hs.
  destruct (H28.Monolithic w).
  - exists 0. rewrite Hs. split; [lia | split; [lia | reflexivity]].
  - destruct Hs as (s & Hr & E). exists s.
    split; [exact Hr | split; [exact E | discriminate]].
Qed.

(** A word [h * 2^k + s * 2^60] with [h] below [2^24] and [k <= 36]: the
    section tag is or-ed in by adding it. *)
Lemma tag_word (h s k : Z) :
  0 <= k <= 36 -> 0 <= h < 2 ^ 24 -> 0 <= s <= 7 ->
  Z.lor (Z.land (h * 2 ^ k) (Z.ones 60)) (s * 2 ^ 60) = h * 2 ^ k + s * 2 ^ 60.
Proof.
  intros Hk Hh Hs.
  assert (Hb : 0 <= h * 2 ^ k < 2 ^ 60).
  { assert (2 ^ k <= 2 ^ 36) by (apply Z.pow_le_mono_r; lia).
    pose proof (pow2_pos k ltac:(lia)). nia. }
  rewrite Z.land_ones, Z.mod_small by lia.
  rewrite Z.lor_comm, lor_hi_lo by lia. lia.
Qed.

Lemma pow2_split (a j : Z) : 0 <= j <= a -> 2 ^ a = 2 ^ (a - j) * 2 ^ j.
Proof. intros H. rewrite <- Z.pow_add_r by lia. f_equal. lia. Qed.

(** Such a word has no bit of [step - 1] set. *)
Lemma tag_word_aligned (h s k j : Z) :
  0 <= j <= 10 -> 32 <= k <= 36 ->
  Z.land (h * 2 ^ k + s * 2 ^ 60) (2 ^ j - 1) = 0.
Proof.
  intros Hj Hk.
  replace (2 ^ j - 1) with (Z.ones j) by (rewrite Z.ones_equiv; lia).
  rewrite Z.land_ones by lia.
  rewrite (pow2_split k j), (pow2_split 60 j) by lia.
  replace (h * (2 ^ (k - j) * 2 ^ j) + s * (2 ^ (60 - j) * 2 ^ j))
    with ((h * 2 ^ (k - j) + s * 2 ^ (60 - j)) * 2 ^ j) by ring.
  apply Z_mod_mult.
Qed.

Lemma H32_shl_candidate (h : Z) :
  0 <= h < 2 ^ 24 -> Int64.shl h 32 = h * 2 ^ 32.
Proof.
  intros H. unfold Int64.shl. rewrite Z.shiftl_mul_pow2 by lia.
  apply wrap_small. unfold Int64.in_range, Int64.min_int, Int64.max_int. lia.
Qed.

Lemma H28_shl_candidate (h : Z) :
  0 <= h < 2 ^ 27 -> Int64.shl h 36 = h * 2 ^ 36.
Proof.
  intros H. unfold Int64.shl. rewrite Z.shiftl_mul_pow2 by lia.
  apply wrap_small. unfold Int64.in_range, Int64.min_int, Int64.max_int. lia.
Qed.

Lemma H32_limit_bound (w : H32.WUID Fn) (h : Z) :
  0 < h <= H32.limit w ->
  0 < h < 2 ^ 24 /\ (H32.Monolithic w = true -> h < 2 ^ 21).
Proof.
  unfold H32.limit. destruct (H32.Monolithic w); intros H; split;
    try lia; discriminate.
Qed.

Lemma H28_limit_bound (w : H28.WUID Fn) (h : Z) :
  0 < h <= H28.limit w ->
  0 < h < 2 ^ 27 /\ (H28.Monolithic w = false -> h < 2 ^ 24).
Proof.
  unfold H28.limit. destruct (H28.Monolithic w); intros H; split;
    try lia; discriminate.
Qed.

(** [Reset(h << 32)] on a configured generator, for a candidate within the
    limit of its mode: the word becomes [h * 2^32] under the section tag. *)
Lemma H32_Reset_candidate (w : H32.WUID Fn) (h : Z) :
  H32.configured w ->
  0 < h <= H32.limit w ->
  H32.Reset w (Int64.shl h 32)
  = (Ok tt, H32.set_N w (h * 2 ^ 32 + H32.Section_ w)).
Proof.
  intros Hc Hh.
  destruct (H32_limit_bound w h Hh) as [Hb _].
  destruct (H32_section_form w Hc) as (s & Hs & Es & Hmono).
  destruct (steps_pow2 _ (H32.cfg_step w Hc)) as (j & Hj & Ej).
  rewrite H32_shl_candidate by lia.
  unfold H32.Reset.
  destruct (Z.ltb_spec (h * 2 ^ 32) 0); [lia | ].
  rewrite H32_low, Z_mod_mult.
  destruct (Z.geb_spec 0 H32.PanicValue) as [Hp | _];
    [rewrite H32_PanicValue in Hp; lia | ].
  assert (Hn : (if H32.Monolithic w then h * 2 ^ 32
                else Z.lor (Z.land (h * 2 ^ 32) H32.L60Mask) (H32.Section_ w))
               = h * 2 ^ 32 + H32.Section_ w).
  { destruct (H32.Monolithic w).
    - rewrite Es, (Hmono eq_refl). lia.
    - rewrite Es. change H32.L60Mask with (Z.ones 60).
      apply tag_word; lia. }
  rewrite Hn.
  assert (Hsub : Int64.sub (H32.Step w) 1 = 2 ^ j - 1).
  { unfold Int64.sub. rewrite Ej. apply wrap_small.
    assert (2 ^ j <= 2 ^ 10) by (apply Z.pow_le_mono_r; lia).
    pose proof (pow2_pos j ltac:(lia)).
    unfold Int64.in_range, Int64.min_int, Int64.max_int. lia. }
  rewrite Hsub, Es, tag_word_aligned by lia.
  destruct (H32.Floor w >? 1); reflexivity.
Qed.

(** [Reset(h << 36)] in the 28/36 split. *)
Lemma H28_Reset_candidate (w : H28.WUID Fn) (h : Z) :
  H28.configured w ->
  0 < h <= H28.limit w ->
  H28.Reset w (Int64.shl h 36)
  = (Ok tt, H28.set_N w (h * 2 ^ 36 + H28.Section_ w)).
Proof.
  intros Hc Hh.
  destruct (H28_limit_bound w h Hh) as [Hb Hsec].
  destruct (H28_section_form w Hc) as (s & Hs & Es & Hmono).
  rewrite H28_shl_candidate by lia.
  unfold H28.Reset.
  destruct (Z.ltb_spec (h * 2 ^ 36) 0); [lia | ].
  destruct (H28.Monolithic w).
  - rewrite Es, (Hmono eq_refl). unfold H28.StoreInt64. do 2 f_equal. lia.
  - rewrite Es. change H28.SectionMask with (Z.ones 60).
    rewrite tag_word by (specialize (Hsec eq_refl); lia). reflexivity.
Qed.

End Loading.

Section First_identifier.

Context {Fn : Type}.

Lemma lxor_low_ones (v m j : Z) :
  Z.land v (Z.ones j) = 0 ->
  Z.land m (Z.ones j) = Z.ones j ->
  Z.land (Z.lxor v m) (Z.ones j) = Z.ones j.
Proof.
  intros Hv Hm. apply Z.bits_inj'; intros i Hi.
  pose proof (f_equal (fun z => Z.testbit z i) Hv) as Bv.
  pose proof (f_equal (fun z => Z.testbit z i) Hm) as Bm.
  cbv beta in Bv, Bm.
  rewrite Z.land_spec in Bv, Bm. rewrite Z.bits_0 in Bv.
  rewrite Z.land_spec, Z.lxor_spec.
  destruct (Z.testbit (Z.ones j) i), (Z.testbit v i), (Z.testbit m i);
    cbn in *; congruence.
Qed.

(** With the low [j] bits of the mask set and those of the word clear, the
    obfuscated low segment is at least [2^j - 1]. *)
Lemma obfuscated_low_bound (v m j : Z) :
  0 <= j <= 32 ->
  v mod 2 ^ j = 0 ->
  Z.land m (2 ^ j - 1) = 2 ^ j - 1 ->
  2 ^ j - 1 <= Z.lxor v m mod 2 ^ 32.
Proof.
  intros Hj Hv Hm.
  replace (2 ^ j - 1) with (Z.ones j) in * by (rewrite Z.ones_equiv; lia).
  rewrite <- Z.land_ones in Hv by lia.
  pose proof (lxor_low_ones v m j Hv Hm) as E.
  rewrite Z.land_ones in E by lia.
  rewrite <- E.
  rewrite <- (Z.mod_mod_divide (Z.lxor v m) (2 ^ 32) (2 ^ j))
    by (exists (2 ^ (32 - j)); apply pow2_split; lia).
  apply Z.mod_le; [ | apply pow2_pos; lia].
  apply Z.mod_pos_bound. lia.
Qed.

(** The high segment of [h * 2^32 + s * 2^60 + t]. *)
Lemma H32_high_plain (w : H32.WUID Fn) (h s t : Z) :
  0 <= h < 2 ^ 24 -> 0 <= t < 2 ^ 32 ->
  (H32.Monolithic w = true -> s = 0) ->
  H32.high_segment w (h * 2 ^ 32 + s * 2 ^ 60 + t) = h.
Proof.
  intros Hh Ht Hs. unfold H32.high_segment. cbv zeta.
  rewrite Z.shiftr_div_pow2 by lia.
  replace (h * 2 ^ 32 + s * 2 ^ 60 + t)
    with ((h + s * 2 ^ 28) * 2 ^ 32 + t) by lia.
  rewrite split_div by lia.
  destruct (H32.Monolithic w).
  - rewrite (Hs eq_refl). lia.
  - change 0x00FFFFFF with (Z.ones 24). rewrite Z.land_ones by lia.
    replace (h + s * 2 ^ 28) with (h + (s * 2 ^ 4) * 2 ^ 24) by lia.
    rewrite Z_mod_plus_full. apply Z.mod_small. lia.
Qed.

Lemma H28_high_plain (w : H28.WUID Fn) (h s t : Z) :
  0 <= h < 2 ^ 27 -> 0 <= t < 2 ^ 36 ->
  (H28.Monolithic w = true -> s = 0) ->
  (H28.Monolithic w = false -> h < 2 ^ 24) ->
  H28.high_segment w (h * 2 ^ 36 + s * 2 ^ 60 + t) = h.
Proof.
  intros Hh Ht Hs Hn. unfold H28.high_segment. cbv zeta.
  rewrite Z.shiftr_div_pow2 by lia.
  replace (h * 2 ^ 36 + s * 2 ^ 60 + t)
    with ((h + s * 2 ^ 24) * 2 ^ 36 + t) by lia.
  rewrite split_div by lia.
  destruct (H28.Monolithic w).
  - rewrite (Hs eq_refl). lia.
  - change 0x00FFFFFF with (Z.ones 24). rewrite Z.land_ones by lia.
    rewrite Z_mod_plus_full. apply Z.mod_small. specialize (Hn eq_refl). lia.
Qed.

(** The call of [Next] that follows [Reset(h << 32)]: no panic, no renewal,
    the word advances by one step. *)
Lemma H32_Next_candidate (w : H32.WUID Fn) (h s : Z) :
  H32.configured w ->
  0 <= h < 2 ^ 24 -> 0 <= s <= 7 ->
  H32.N w = h * 2 ^ 32 + s * 2 ^ 60 ->
  H32.Next w
  = (H32.Next_switch w (H32.N w + H32.Step w), false,
     H32.set_N w (H32.N w + H32.Step w)).
Proof.
  intros Hc Hh Hs HN.
  pose proof (H32_steps_bounds _ (H32.cfg_step w Hc)) as Hstep.
  rewrite H32_Next_eq. cbv zeta.
  assert (Hv : Int64.add (H32.N w) (H32.Step w) = H32.N w + H32.Step w).
  { apply wrap_small.
    unfold Int64.in_range, Int64.min_int, Int64.max_int. lia. }
  rewrite Hv.
  assert (Hl : Z.land (H32.N w + H32.Step w) H32.L32Mask = H32.Step w).
  { rewrite H32_low, HN.
    replace (h * 2 ^ 32 + s * 2 ^ 60 + H32.Step w)
      with ((h + s * 2 ^ 28) * 2 ^ 32 + H32.Step w) by lia.
    apply split_mod; lia. }
  rewrite Hl.
  destruct (Z.geb_spec (H32.Step w) H32.PanicValue) as [Hp | _];
    [rewrite H32_PanicValue in Hp; lia | ].
  destruct (Z.geb_spec (H32.Step w) H32.CriticalValue) as [Hp | _];
    [rewrite H32_CriticalValue in Hp; lia | ].
  reflexivity.
Qed.

Lemma H28_Next_candidate (w : H28.WUID Fn) (h s : Z) :
  H28.configured w ->
  0 <= h < 2 ^ 27 -> 0 <= s <= 7 ->
  (s = 0 \/ h < 2 ^ 24) ->
  H28.N w = h * 2 ^ 36 + s * 2 ^ 60 ->
  H28.Next w
  = (H28.Next_floor w (H28.N w + H28.Step w), false,
     H28.set_N w (H28.N w + H28.Step w)).
Proof.
  intros Hc Hh Hs Hhs HN.
  pose proof (H28_steps_bounds _ (H28.cfg_step w Hc)) as Hstep.
  rewrite H28_Next_eq. cbv zeta.
  assert (Hv : Int64.add (H28.N w) (H28.Step w) = H28.N w + H28.Step w).
  { apply wrap_small.
    unfold Int64.in_range, Int64.min_int, Int64.max_int. lia. }
  rewrite Hv.
  assert (Hl : Z.land (H28.N w + H28.Step w) H28.L36Mask = H28.Step w).
  { rewrite H28_low, HN.
    replace (h * 2 ^ 36 + s * 2 ^ 60 + H28.Step w)
      with ((h + s * 2 ^ 24) * 2 ^ 36 + H28.Step w) by lia.
    apply split_mod; lia. }
  rewrite Hl.
  destruct (Z.geb_spec (H28.Step w) H28.PanicValue) as [Hp | _];
    [rewrite H28_PanicValue in Hp; lia | ].
  destruct (Z.geb_spec (H28.Step w) H28.CriticalValue) as [Hp | _];
    [rewrite H28_CriticalValue in Hp; lia | ].
  reflexivity.
Qed.

End First_identifier.

Section First_identifier_statements.

Context {Fn : Type}.

(** 28/36 split, every configuration that [NewWUID] produces: after a
    candidate [h] within the limit of the mode is installed by
    [Reset(h << 36)], the next [Next] returns normally, starts no renewal,
    and the value it returns has high segment [h]; under a positive floor
    the value is a multiple of the floor. *)
Lemma H28_first_identifier (w : H28.WUID Fn) (h : Z) :
  H28.configured w ->
  0 < h <= H28.limit w ->
  let w1 := H28.set_N w (h * 2 ^ 36 + H28.Section_ w) in
  H28.Reset w (Int64.shl h 36) = (Ok tt, w1) /\
  exists r,
    H28.Next w1 = (Ok r, false, H28.set_N w (H28.N w1 + H28.Step w)) /\
    H28.high_segment w r = h /\
    (0 < H28.Floor w -> Z.rem r (H28.Floor w) = 0).
Proof.
  intros Hc Hh w1.
  split; [now apply H28_Reset_candidate | ].
  destruct (H28_limit_bound w h Hh) as [Hb Hsec].
  destruct (H28_section_form w Hc) as (s & Hs & Es & Hmono).
  pose proof (H28_steps_bounds _ (H28.cfg_step w Hc)) as Hstep.
  pose proof (H28.cfg_floor w Hc) as Hfloor.
  assert (Hs24 : s = 0 \/ h < 2 ^ 24).
  { destruct (H28.Monolithic w); [left; auto | right; auto]. }
  assert (HN : H28.N w1 = h * 2 ^ 36 + s * 2 ^ 60)
    by (unfold w1; cbn [H28.N H28.set_N]; now rewrite Es).
  rewrite (H28_Next_candidate w1 h s
             (H28_configured_set_N w _ Hc) ltac:(lia) Hs Hs24 HN).
  rewrite HN. unfold H28.Next_floor, w1.
  cbn [H28.Step H28.Floor H28.set_N].
  set (x := h * 2 ^ 36 + s * 2 ^ 60 + H28.Step w).
  destruct (Z.eqb_spec (H28.Floor w) 0) as [F0 | F0].
  - exists x. split; [reflexivity | ]. split; [ | lia].
    apply H28_high_plain; (lia || assumption).
  - assert (Hx : Int64.in_range x)
      by (unfold Int64.in_range, Int64.min_int, Int64.max_int, x; lia).
    destruct (quantise_spec x (H28.Floor w) ltac:(lia) Hx) as (Ed & Em & Ez).
    rewrite Ed, Em. exists (x - Z.rem x (H28.Floor w)).
    split; [reflexivity | ]. split; [ | intros _; exact Ez].
    pose proof (Z.rem_bound_pos x (H28.Floor w) ltac:(unfold x; lia)
                                ltac:(lia)) as Hr.
    replace (x - Z.rem x (H28.Floor w))
      with (h * 2 ^ 36 + s * 2 ^ 60
            + (H28.Step w - Z.rem x (H28.Floor w))) by (unfold x; lia).
    apply H28_high_plain; (lia || assumption).
Qed.

(** 32/32 split, every configuration that [NewWUID] produces: after a
    candidate [h] within the limit of the mode is installed by
    [Reset(h << 32)], the next [Next] returns normally and starts no
    renewal; the counter word has high segment [h]; the returned value has
    high segment [h] whenever the generator is monolithic or has no
    obfuscation; under a floor of at least 2 the value is a multiple of the
    floor. *)
Lemma H32_first_identifier (w : H32.WUID Fn) (h : Z) :
  H32.configured w ->
  0 < h <= H32.limit w ->
  let w1 := H32.set_N w (h * 2 ^ 32 + H32.Section_ w) in
  H32.Reset w (Int64.shl h 32) = (Ok tt, w1) /\
  exists r,
    H32.Next w1 = (Ok r, false, H32.set_N w (H32.N w1 + H32.Step w)) /\
    H32.high_segment w (H32.N w1 + H32.Step w) = h /\
    (H32.Monolithic w = true \/ H32.Obfuscation w = false ->
     H32.high_segment w r = h) /\
    (2 <= H32.Floor w -> Z.rem r (H32.Floor w) = 0).
Proof.
  intros Hc Hh w1.
  split; [now apply H32_Reset_candidate | ].
  destruct (H32_limit_bound w h Hh) as [Hb Hmono21].
  destruct (H32_section_form w Hc) as (s & Hs & Es & Hmono).
  pose proof (H32_steps_bounds _ (H32.cfg_step w Hc)) as Hstep.
  pose proof (H32.cfg_floor w Hc) as Hfloor.
  assert (Hc1 : H32.configured w1) by now apply H32_configured_set_N.
  assert (HN : H32.N w1 = h * 2 ^ 32 + s * 2 ^ 60)
    by (unfold w1; cbn [H32.N H32.set_N]; now rewrite Es).
  pose proof (H32_Next_candidate w1 h s Hc1 ltac:(lia) Hs HN) as HNext.
  assert (Hmul : forall r, fst (fst (H32.Next w1)) = Ok r ->
                           2 <= H32.Floor w -> Z.rem r (H32.Floor w) = 0).
  { intros r Hr HF. exact (H32_Next_multiple w1 r Hc1 HF Hr). }
  rewrite HNext in Hmul |- *. cbn [fst] in Hmul.
  rewrite HN in *. clear HNext HN Hc1. unfold w1 in *. clear w1.
  cbn [H32.Step H32.Floor H32.Flags H32.ObfuscationMask H32.set_N] in *.
  set (v1 := h * 2 ^ 32 + s * 2 ^ 60 + H32.Step w) in *.
  assert (Hword : H32.high_segment w v1 = h)
    by (apply H32_high_plain; (lia || assumption)).
  assert (Hv1 : Int64.in_range v1)
    by (unfold Int64.in_range, Int64.min_int, Int64.max_int, v1; lia).
  unfold H32.Next_switch in *.
  cbn [H32.Step H32.Floor H32.Flags H32.ObfuscationMask H32.set_N] in *.
  rewrite (H32.cfg_flags w Hc) in *.
  destruct (H32.Obfuscation w) eqn:Hobf;
    destruct (Z.leb_spec 2 (H32.Floor w)) as [HF | HF];
    cbn [Z.b2z Z.add Z.mul Pos.add Pos.mul] in *.
  - (* obfuscation and floor *)
    set (q := Z.lor (Z.land v1 H32.H32Mask)
                    (Z.land (Z.lxor v1 (H32.ObfuscationMask w))
                            H32.L32Mask)) in *.
    assert (Hq : 0 <= q < 2 ^ 53) by apply H32_obfuscated_range.
    destruct (quantise_spec q (H32.Floor w) ltac:(lia)
                ltac:(unfold Int64.in_range, Int64.min_int, Int64.max_int;
                      lia)) as (Ed & Em & Ez).
    rewrite Ed, Em in *. exists (q - Z.rem q (H32.Floor w)).
    split; [reflexivity | ]. split; [exact Hword | ].
    split; [ | intros _; exact Ez].
    intros [Hm | Hno]; [ | discriminate].
    specialize (Hmono Hm). specialize (Hmono21 Hm). subst s.
    destruct (steps_pow2 _ (H32.cfg_step w Hc)) as (j & Hj & Ej).
    assert (Hp : 2 ^ j - 1
                 <= Z.lxor v1 (H32.ObfuscationMask w) mod 2 ^ 32).
    { apply obfuscated_low_bound; [lia | | ].
      - unfold v1. rewrite Ej, (pow2_split 32 j) by lia.
        replace (h * (2 ^ (32 - j) * 2 ^ j) + 0 * 2 ^ 60 + 2 ^ j)
          with ((h * 2 ^ (32 - j) + 1) * 2 ^ j) by ring.
        apply Z_mod_mult.
      - rewrite <- Ej. apply (H32.cfg_ones w Hc); [exact Hobf | lia]. }
    assert (Eq : q = h * 2 ^ 32
                     + Z.lxor v1 (H32.ObfuscationMask w) mod 2 ^ 32).
    { unfold q. rewrite H32_H32Mask, land_hi, H32_low by lia.
      pose proof (Z.mod_pos_bound (Z.lxor v1 (H32.ObfuscationMask w))
                                  (2 ^ 32) ltac:(lia)).
      rewrite lor_hi_lo by lia.
      replace (v1 / 2 ^ 32) with h
        by (unfold v1; symmetry;
            replace (h * 2 ^ 32 + 0 * 2 ^ 60 + H32.Step w)
              with (h * 2 ^ 32 + H32.Step w) by lia;
            apply split_div; lia).
      rewrite Z.mod_small by lia. reflexivity. }
    pose proof (Z.mod_pos_bound (Z.lxor v1 (H32.ObfuscationMask w))
                                (2 ^ 32) ltac:(lia)) as Hlow.
    pose proof (Z.rem_bound_pos q (H32.Floor w) ltac:(lia) ltac:(lia)) as Hr.
    replace (q - Z.rem q (H32.Floor w))
      with (h * 2 ^ 32 + 0 * 2 ^ 60
            + (Z.lxor v1 (H32.ObfuscationMask w) mod 2 ^ 32
               - Z.rem q (H32.Floor w))) by lia.
    apply H32_high_plain; try lia.
  - (* obfuscation only *)
    eexists. split; [reflexivity | ]. split; [exact Hword | ].
    split; [ | lia].
    intros [Hm | Hno]; [ | discriminate].
    specialize (Hmono Hm). specialize (Hmono21 Hm). subst s.
    rewrite H32_H32Mask, land_hi, H32_low by lia.
    pose proof (Z.mod_pos_bound (Z.lxor v1 (H32.ObfuscationMask w))
                                (2 ^ 32) ltac:(lia)) as Hlow.
    rewrite lor_hi_lo by lia.
    replace (v1 / 2 ^ 32) with h
      by (unfold v1; symmetry;
          replace (h * 2 ^ 32 + 0 * 2 ^ 60 + H32.Step w)
            with (h * 2 ^ 32 + H32.Step w) by lia;
          apply split_div; lia).
    rewrite (Z.mod_small h) by lia.
    replace (h * 2 ^ 32 + Z.lxor v1 (H32.ObfuscationMask w) mod 2 ^ 32)
      with (h * 2 ^ 32 + 0 * 2 ^ 60
            + Z.lxor v1 (H32.ObfuscationMask w) mod 2 ^ 32) by lia.
    apply H32_high_plain; try lia.
  - (* floor only *)
    destruct (quantise_spec v1 (H32.Floor w) ltac:(lia) Hv1)
      as (Ed & Em & Ez).
    rewrite Ed, Em in *. exists (v1 - Z.rem v1 (H32.Floor w)).
    split; [reflexivity | ]. split; [exact Hword | ].
    split; [ | intros _; exact Ez].
    intros _.
    pose proof (Z.rem_bound_pos v1 (H32.Floor w) ltac:(unfold v1; lia)
                                ltac:(lia)) as Hr.
    replace (v1 - Z.rem v1 (H32.Floor w))
      with (h * 2 ^ 32 + s * 2 ^ 60
            + (H32.Step w - Z.rem v1 (H32.Floor w))) by (unfold v1; lia).
    apply H32_high_plain; (lia || assumption).
  - (* neither *)
    exists v1. split; [reflexivity | ]. split; [exact Hword | ].
    split; [intros _; exact Hword | lia].
Qed.

End First_identifier_statements.

Ltac all_built :=
  repeat (apply Forall_cons; [assumption | ]); apply Forall_nil.

(** The sample generators come out of [NewWUID], so they are configured. *)
Lemma Sample_configured :
  H32.configured (@Sample.fresh32 unit) /\
  H32.configured (@Sample.sectioned32 unit) /\
  H32.configured (@Sample.masked32 unit) /\
  H32.configured (@Sample.stepped32 unit) /\
  H28.configured (@Sample.fresh28 unit) /\
  H28.configured (@Sample.sectioned28 unit) /\
  H28.configured (@Sample.stepped28 unit).
Proof.
  assert (B1 : H32.built (H32.WithSection_fn 1))
    by (right; left; exists 1; reflexivity).
  assert (B2 : H32.built (H32.WithObfuscation_fn 1))
    by (right; right; right; exists 1; reflexivity).
  assert (B3 : H32.built (H32.WithStep_fn 4 3))
    by (right; right; left; exists 4, 3; reflexivity).
  assert (B4 : H28.built (H28.WithSection_fn 1))
    by (left; exists 1; reflexivity).
  assert (B5 : H28.built (H28.WithStep_fn 4 3))
    by (right; right; exists 4, 3; reflexivity).
  split_all.
  - apply (H32_NewWUID_configured "g" []); [all_built | reflexivity].
  - apply (H32_NewWUID_configured "g" [H32.WithSection_fn 1]);
      [all_built | reflexivity].
  - apply (H32_NewWUID_configured
             "g" [H32.WithSection_fn 1; H32.WithObfuscation_fn 1]);
      [all_built | reflexivity].
  - apply (H32_NewWUID_configured "g" [H32.WithStep_fn 4 3]);
      [all_built | reflexivity].
  - apply (H28_NewWUID_configured (Fn := unit) "g" []). all_built.
  - apply (H28_NewWUID_configured (Fn := unit) "g" [H28.WithSection_fn 1]).
    all_built.
  - apply (H28_NewWUID_configured (Fn := unit) "g" [H28.WithStep_fn 4 3]).
    all_built.
Qed.

(** The first identifier of epoch 5 on sample generators: sectioned without
    obfuscation, and stepped with a floor. *)
Lemma first_identifier_samples :
  (exists r, fst (fst (H32.Next (snd (H32.Reset (@Sample.sectioned32 unit)
                                                (Int64.shl 5 32))))) = Ok r /\
             H32.high_segment (@Sample.sectioned32 unit) r = 5) /\
  (exists r, fst (fst (H32.Next (snd (H32.Reset (@Sample.stepped32 unit)
                                                (Int64.shl 5 32))))) = Ok r /\
             H32.high_segment (@Sample.stepped32 unit) r = 5 /\
             Z.rem r 3 = 0) /\
  (exists r, fst (fst (H28.Next (snd (H28.Reset (@Sample.sectioned28 unit)
                                                (Int64.shl 5 36))))) = Ok r /\
             H28.high_segment (@Sample.sectioned28 unit) r = 5) /\
  (exists r, fst (fst (H28.Next (snd (H28.Reset (@Sample.stepped28 unit)
                                                (Int64.shl 5 36))))) = Ok r /\
             H28.high_segment (@Sample.stepped28 unit) r = 5 /\
             Z.rem r 3 = 0).
Proof.
  destruct Sample_configured as (_ & C1 & _ & C2 & _ & C3 & C4).
  split_all.
  - destruct (H32_first_identifier _ 5 C1 ltac:(vm_compute; split;
                                                [reflexivity | discriminate]))
      as (ER & r & EN & _ & Hh & _).
    rewrite ER. cbn [snd]. rewrite EN. exists r. split; [reflexivity | ].
    apply Hh. right. reflexivity.
  - destruct (H32_first_identifier _ 5 C2 ltac:(vm_compute; split;
                                                [reflexivity | discriminate]))
      as (ER & r & EN & _ & Hh & Hm).
    rewrite ER. cbn [snd]. rewrite EN. exists r. split; [reflexivity | ].
    split; [apply Hh; left; reflexivity | ].
    apply Hm. vm_compute. discriminate.
  - destruct (H28_first_identifier _ 5 C3 ltac:(vm_compute; split;
                                                [reflexivity | discriminate]))
      as (ER & r & EN & Hh & _).
    rewrite ER. cbn [snd]. rewrite EN. exists r. split; [reflexivity | ].
    exact Hh.
  - destruct (H28_first_identifier _ 5 C4 ltac:(vm_compute; split;
                                                [reflexivity | discriminate]))
      as (ER & r & EN & Hh & Hm).
    rewrite ER. cbn [snd]. rewrite EN. exists r. split; [reflexivity | ].
    split; [exact Hh | ]. apply Hm. reflexivity.
Qed.

(** ** The output transforms *)

Section Transforms.

Context {Fn : Type}.

(** On a configured generator the switch of [Next] is obfuscation first,
    when enabled, and floor quantisation second, when the floor is at
    least 2. *)
Lemma H32_switch_order (w : H32.WUID Fn) (v1 : Z) :
  H32.configured w ->
  H32.Next_switch w v1 =
  let q := if H32.Obfuscation w
           then Z.lor (Z.land v1 H32.H32Mask)
                      (Z.land (Z.lxor v1 (H32.ObfuscationMask w))
                              H32.L32Mask)
           else v1 in
  if 2 <=? H32.Floor w
  then match Int64.div q (H32.Floor w) with
       | Ok d => Ok (Int64.mul d (H32.Floor w))
       | Panic m => Panic m
       end
  else Ok q.
Proof.
  intros Hc. unfold H32.Next_switch. rewrite (H32.cfg_flags w Hc).
  destruct (H32.Obfuscation w), (2 <=? H32.Floor w); reflexivity.
Qed.

(** Obfuscation leaves the upper 32 bits of a word below [2^53] alone and
    changes the low segment only by the mask. *)
Lemma H32_obfuscation_keeps_53_bits (v1 mask : Z) :
  0 <= v1 < 2 ^ 53 ->
  let r := Z.lor (Z.land v1 H32.H32Mask)
                 (Z.land (Z.lxor v1 mask) H32.L32Mask) in
  Z.shiftr r 32 = Z.shiftr v1 32 /\
  Z.land r H32.L32Mask = Z.land (Z.lxor v1 mask) H32.L32Mask.
Proof.
  intros Hv r. unfold r.
  rewrite H32_H32Mask, land_hi by lia.
  pose proof (H32_low_range (Z.lxor v1 mask)) as Hlow.
  rewrite lor_hi_lo by (try apply Hlow; lia).
  assert (Hh : 0 <= v1 / 2 ^ 32 < 2 ^ 21).
  { split; [apply Z.div_pos; lia | apply Z.div_lt_upper_bound; lia]. }
  rewrite (Z.mod_small (v1 / 2 ^ 32)) by exact Hh.
  split.
  - rewrite !Z.shiftr_div_pow2 by lia. apply split_div; [lia | exact Hlow].
  - rewrite (H32_low (_ + _)). apply split_mod; [lia | exact Hlow].
Qed.

(** With a floor above 1, [Reset] rounds a word that is not a multiple of
    the step up to the next one; from just below the panic threshold that
    is the threshold itself. *)
Lemma H32_Reset_rounds_up :
  let w : H32.WUID unit := Sample.stepped32 in
  H32.WithStep 4 3 = Ok (H32.WithStep_fn 4 3) /\
  H32.NewWUID "g" [H32.WithStep_fn 4 3] = Ok w /\
  H32.Reset w (H32.PanicValue - 1)
  = (Ok tt, H32.set_N w H32.PanicValue) /\
  H32.Reset w (Z.shiftl 5 32 + 6) = (Ok tt, H32.set_N w (Z.shiftl 5 32 + 8)).
Proof. repeat split. Qed.

End Transforms.

(** C6.  The claim at the generator
    [NewWUID("g", nil, WithSection(1), WithObfuscation(1))] of the 32/32
    split.  Loaded with the candidate [1], [Next] returns a value without
    the section tag that the counter word carries at bit 60.  Loaded with
    the candidate [0x200000], which [Verifyh32] accepts, the value returned
    has lost the tag and the candidate: its high segment is [0] while the
    counter word holds [0x10200000] there ([0x200000] under the tag); the
    generator loaded with [0x400000] returns the very same identifier. *)
Theorem C6_obfuscation_cuts_high_segment :
  let g : H32.WUID unit := Sample.masked32 in
  let first := snd (H32.Reset g (Int64.shl 1 32)) in
  let loaded := snd (H32.Reset g (Int64.shl 0x200000 32)) in
  let other := snd (H32.Reset g (Int64.shl 0x400000 32)) in
  H32.WithObfuscation 1 = Ok (H32.WithObfuscation_fn 1) /\
  H32.NewWUID "g" [H32.WithSection_fn 1; H32.WithObfuscation_fn 1] = Ok g /\
  (fst (fst (H32.Next first)) = Ok 4564125156 /\
   Z.shiftr 4564125156 60 = 0 /\
   Z.shiftr (H32.N (snd (H32.Next first))) 60 = 1 /\
   Z.shiftr 4564125156 32 <> Z.shiftr (H32.N (snd (H32.Next first))) 32) /\
  H32.Verifyh32 g 0x200000 = None /\
  H32.Verifyh32 g 0x400000 = None /\
  fst (H32.Reset g (Int64.shl 0x200000 32)) = Ok tt /\
  fst (fst (H32.Next loaded)) = Ok 269157860 /\
  Z.shiftr 269157860 32 = 0 /\
  H32.high_segment loaded 269157860 = 0 /\
  Z.shiftr (H32.N (snd (H32.Next loaded))) 32 = 0x10200000 /\
  H32.high_segment loaded (H32.N (snd (H32.Next loaded))) = 0x200000 /\
  fst (fst (H32.Next other)) = fst (fst (H32.Next loaded)).
Proof.
  cbv zeta. split_all; try reflexivity. vm_compute. discriminate.
Qed.

(** C7.  The claim at the generator
    [NewWUID("g", nil, WithSection(1), WithObfuscation(1))] of the 32/32
    split: [Verifyh32] accepts the candidate [h = 0x200001],
    [Reset(h << 32)] installs it, and the next [Next] returns a value whose
    high segment is [1], not [h]. *)
Theorem C7_reset_then_next_loses_segment :
  let g : H32.WUID unit := Sample.masked32 in
  let h := 0x200001 in
  let loaded := snd (H32.Reset g (Int64.shl h 32)) in
  H32.Verifyh32 g h = None /\
  fst (H32.Reset g (Int64.shl h 32)) = Ok tt /\
  H32.high_segment loaded (H32.N loaded) = h /\
  (exists r, fst (fst (H32.Next loaded)) = Ok r /\
             H32.high_segment loaded r = 1 /\
             Z.shiftr r 32 = 1) /\
  h <> 1.
Proof.
  cbv zeta. repeat split.
  - exists 4564125156. repeat split.
  - discriminate.
Qed.

(** ** The threshold constants *)

(** C8, as the code has it.  In either split the panic threshold is 96% of
    the low segment, and the critical threshold 80% of it, both rounded
    down to a multiple of 1024; each lies less than 1024 below the exact
    fraction.  Neither threshold is on a renewal-interval boundary: each
    has bits of [RenewIntervalMask] set, in either split. *)
Theorem C8_thresholds_round_to_1024 :
  H32.PanicValue = percent_down 96 32 1024 /\
  H32.CriticalValue = percent_down 80 32 1024 /\
  H28.PanicValue = percent_down 96 36 1024 /\
  H28.CriticalValue = percent_down 80 36 1024 /\
  0 <= 96 * 2 ^ 32 - 100 * H32.PanicValue < 100 * 1024 /\
  0 <= 80 * 2 ^ 32 - 100 * H32.CriticalValue < 100 * 1024 /\
  0 <= 96 * 2 ^ 36 - 100 * H28.PanicValue < 100 * 1024 /\
  0 <= 80 * 2 ^ 36 - 100 * H28.CriticalValue < 100 * 1024 /\
  Z.land H32.PanicValue H32.RenewIntervalMask = 29527040 /\
  Z.land H32.CriticalValue H32.RenewIntervalMask = 13421568 /\
  Z.land H28.PanicValue H28.RenewIntervalMask = 472445952 /\
  Z.land H28.CriticalValue H28.RenewIntervalMask = 214748160 /\
  H32.PanicValue mod (H32.RenewIntervalMask + 1) <> 0 /\
  H32.CriticalValue mod (H32.RenewIntervalMask + 1) <> 0 /\
  H28.PanicValue mod (H28.RenewIntervalMask + 1) <> 0 /\
  H28.CriticalValue mod (H28.RenewIntervalMask + 1) <> 0.
Proof.
  repeat match goal with |- _ /\ _ => split end;
    first [reflexivity | vm_compute; discriminate].
Qed.

(** C8 as stated fails: neither threshold is a multiple of the renewal
    interval, so the panic threshold is not 96% rounded down to a
    renewal-interval boundary (nor is the critical threshold 80% rounded
    down to one), and the critical threshold is not 80% of the low
    segment, not even rounded to the integer below. *)
Lemma C8_thresholds_off_the_interval :
  H32.PanicValue <> percent_down 96 32 (H32.RenewIntervalMask + 1) /\
  H28.PanicValue <> percent_down 96 36 (H28.RenewIntervalMask + 1) /\
  H32.CriticalValue <> percent_down 80 32 (H32.RenewIntervalMask + 1) /\
  H28.CriticalValue <> percent_down 80 36 (H28.RenewIntervalMask + 1) /\
  Z.land H32.PanicValue H32.RenewIntervalMask <> 0 /\
  Z.land H28.PanicValue H28.RenewIntervalMask <> 0 /\
  Z.land H32.CriticalValue H32.RenewIntervalMask <> 0 /\
  Z.land H28.CriticalValue H28.RenewIntervalMask <> 0 /\
  100 * H32.CriticalValue <> 80 * 2 ^ 32 /\
  100 * H28.CriticalValue <> 80 * 2 ^ 36 /\
  H32.CriticalValue <> percent_down 80 32 1 /\
  H28.CriticalValue <> percent_down 80 36 1.
Proof. repeat split; vm_compute; discriminate. Qed.

(** ** Reset *)

Section Reset_facts.

Context {Fn : Type}.

Lemma H32_Reset_Renew (w : H32.WUID Fn) (n : Z) :
  H32.Renew (snd (H32.Reset w n)) = H32.Renew w.
Proof.
  unfold H32.Reset.
  repeat match goal with
         | |- context [if ?b then _ else _] => destruct b
         end; reflexivity.
Qed.

End Reset_facts.

(** ** Loading a high segment from Redis *)

(** C9.  When a renewal function [f] is already bound and
    [Loadh32FromRedis] succeeds, the generator it leaves behind still has
    [f] bound, whatever [newClient] and [key] this call was given, and it is
    the generator [Reset] produced from the freshly incremented and
    verified value: the value is applied although nothing is bound. *)
Theorem C9_rebinding_keeps_the_first_function :
  forall (newClient : Redis.NewClient) (key : string) (w w' : Redis.WUID)
         (s s' : Redis.Server) (f : Redis.renewFn),
    H32.Renew w = Some f ->
    Redis.Loadh32FromRedis newClient key w s = (Ok None, w', s') ->
    H32.Renew w' = Some f /\
    exists (client : Redis.UniversalClient) (autoClose : bool) (h32 : Z)
           (s1 : Redis.Server),
      newClient = Some (client, autoClose, None) /\
      Redis.Incr client key s = (inl h32, s1) /\
      H32.Verifyh32 w h32 = None /\
      H32.Reset w (Int64.shl h32 32) = (Ok tt, w').
Proof.
  intros newClient key w w' s s' f Hf. unfold Redis.Loadh32FromRedis.
  destruct (Z.of_nat (String.length key) =? 0); [discriminate | ].
  destruct newClient as [[[client autoClose] [err | ]] | ]; try discriminate.
  destruct (Redis.Incr client key s) as [[h32 | err] s1] eqn:Hincr;
    try discriminate.
  destruct (H32.Verifyh32 w h32) as [err | ] eqn:Hver; try discriminate.
  pose proof (H32_Reset_Renew w (Int64.shl h32 32)) as Hkeep.
  destruct (H32.Reset w (Int64.shl h32 32)) as [[[] | m] w1] eqn:Hreset;
    try discriminate.
  cbn [snd] in Hkeep. rewrite Hkeep, Hf.
  intros E. injection E as <- _.
  split; [now rewrite Hkeep | ].
  exists client, autoClose, h32, s1. repeat split; assumption.
Qed.

Lemma C9_rebinding_keeps_the_first_function_witness :
  let load := Redis.Loadh32FromRedis (Some (Redis.Live, false, None)) "other"
                                     Sample.bound32 Sample.server in
  fst (fst load) = Ok None /\
  H32.Renew (snd (fst load))
  = Some (Redis.mkRenewFn (Some (Redis.Live, true, None)) "wuid") /\
  H32.N (snd (fst load)) = Z.shiftl 42 32.
Proof.
  cbv zeta. split; [reflexivity | split; [ | reflexivity]].
  apply (C9_rebinding_keeps_the_first_function
           (Some (Redis.Live, false, None)) "other" Sample.bound32
           (snd (fst (Redis.Loadh32FromRedis
                        (Some (Redis.Live, false, None)) "other"
                        Sample.bound32 Sample.server)))
           Sample.server
           (snd (Redis.Loadh32FromRedis
                   (Some (Redis.Live, false, None)) "other"
                   Sample.bound32 Sample.server)));
    reflexivity.
Defined.

(** On a configured generator the value a successful load obtained is the
    new high segment of the counter word, whether or not a renewal function
    was bound before, and it differs from the one in use before. *)
Lemma Loadh32FromRedis_applies_value (newClient : Redis.NewClient)
      (key : string) (w w' : Redis.WUID) (s s' : Redis.Server) :
  H32.configured w ->
  Redis.Loadh32FromRedis newClient key w s = (Ok None, w', s') ->
  exists h32,
    H32.N w' = h32 * 2 ^ 32 + H32.Section_ w /\
    H32.high_segment w' (H32.N w') = h32 /\
    h32 <> H32.high_segment w (H32.N w) /\
    H32.Renew w' <> None.
Proof.
  intros Hc. unfold Redis.Loadh32FromRedis.
  destruct (Z.of_nat (String.length key) =? 0); [discriminate | ].
  destruct newClient as [[[client autoClose] [err | ]] | ]; try discriminate.
  destruct (Redis.Incr client key s) as [[h32 | err] s1] eqn:Hincr;
    try discriminate.
  destruct (H32.Verifyh32 w h32) as [err | ] eqn:Hver; try discriminate.
  destruct (H32_Verify_None w h32 Hver) as [Hrange Hfresh].
  rewrite (H32_Reset_candidate w h32 Hc Hrange).
  destruct (H32_limit_bound w h32 Hrange) as [Hb _].
  destruct (H32_section_form w Hc) as (t & Ht & Et & Hmono).
  assert (Hhigh : forall g : Redis.WUID,
             H32.Monolithic g = H32.Monolithic w ->
             H32.high_segment g (h32 * 2 ^ 32 + H32.Section_ w) = h32).
  { intros g Hg. rewrite Et.
    replace (h32 * 2 ^ 32 + t * 2 ^ 60)
      with (h32 * 2 ^ 32 + t * 2 ^ 60 + 0) by lia.
    apply H32_high_plain; try lia. now rewrite Hg. }
  cbn [H32.Renew H32.set_N].
  destruct (H32.Renew w) as [f | ] eqn:Hf; intros E; injection E as <- _;
    exists h32; cbn [H32.N H32.set_N H32.set_Renew H32.Renew];
    (split; [reflexivity | ]; split; [now apply Hhigh | ];
     split; [exact Hfresh | ]).
  - rewrite Hf. discriminate.
  - discriminate.
Qed.

(** * Further properties of the code *)

(** ** Construction *)

Section Construction.

Context {Fn : Type}.

(** The options touch neither the counter word nor the binding, so a new
    generator starts at zero with nothing bound. *)
Lemma H32_apply_Options_frame (opts : list H32.Option) :
  forall w w' : H32.WUID Fn,
    H32.apply_Options opts w = Ok w' ->
    H32.Renew w' = H32.Renew w /\ H32.Name w' = H32.Name w /\
    H32.Stats w' = H32.Stats w.
Proof.
  induction opts as [| o opts IH]; intros w w' H.
  - injection H as <-. auto.
  - cbn [H32.apply_Options] in H.
    destruct (H32.apply_Option o w) as [w1 | m] eqn:E; [ | discriminate].
    destruct (IH _ _ H) as (-> & -> & ->).
    destruct o as [cb | section | step floor | seed];
      cbn [H32.apply_Option] in E.
    + injection E as <-. auto.
    + injection E as <-. auto.
    + destruct (negb (H32.Step w =? 1)); [discriminate | ].
      destruct (floor >=? 2); injection E as <-; auto.
    + injection E as <-. auto.
Qed.

Lemma H28_fold_frame (opts : list H28.Option) :
  forall w : H28.WUID Fn,
    H28.Renew (fold_left (fun w opt => H28.apply_Option opt w) opts w)
    = H28.Renew w /\
    H28.Name (fold_left (fun w opt => H28.apply_Option opt w) opts w)
    = H28.Name w.
Proof.
  induction opts as [| o opts IH]; intros w; [auto | ].
  cbn [fold_left]. destruct (IH (H28.apply_Option o w)) as [-> ->].
  destruct o; auto.
Qed.

(** X1.  A generator that [NewWUID] returns, given options that the
    [With...] functions returned, has a step among the eleven powers of two,
    a floor that is zero or at least 2 and below the step (28/36 split: in
    [0, step)), flags that say exactly whether obfuscation and a floor are
    on, a non-negative mask whose low bits cover [step - 1] when both are
    on, a section tag of a section in [0, 7] or none; its counter word is
    zero, nothing is bound to [Renew], and it bears the name given. *)
Theorem X1_NewWUID_yields_configured_generators :
  (forall (name : string) (opts : list H32.Option) (w : H32.WUID Fn),
      Forall H32.built opts ->
      H32.NewWUID name opts = Ok w ->
      H32.configured w /\ H32.N w = 0 /\ H32.Renew w = None /\
      H32.Name w = name /\ H32.Stats w = H32.mkStats 0 0) /\
  (forall (name : string) (opts : list H28.Option),
      Forall H28.built opts ->
      let w : H28.WUID Fn := H28.NewWUID name opts in
      H28.configured w /\ H28.N w = 0 /\ H28.Renew w = None /\
      H28.Name w = name).
Proof.
  split.
  - intros name opts w Hb Hnew.
    destruct (H32_NewWUID_configured name opts w Hb Hnew) as [Hc HN].
    split; [exact Hc | split; [exact HN | ]].
    unfold H32.NewWUID in Hnew.
    destruct (H32.apply_Options opts _) as [w0 | m] eqn:Happ;
      [ | discriminate].
    destruct (H32_apply_Options_frame _ _ _ Happ) as (Hr & Hn & Hs).
    cbn in Hr, Hn, Hs.
    destruct (negb (H32.Obfuscation w0) || (H32.Floor w0 =? 0));
      injection Hnew as <-; cbn [H32.Renew H32.Name H32.Stats]; auto.
  - intros name opts Hb w.
    destruct (H28_NewWUID_configured (Fn := Fn) name opts Hb) as [Hc HN].
    split; [exact Hc | split; [exact HN | ]].
    unfold w, H28.NewWUID.
    destruct (H28_fold_frame opts
                (H28.mkWUID (Fn := Fn) 0 1 0 true 0 name None None))
      as [-> ->].
    auto.
Qed.

End Construction.

Lemma X1_NewWUID_yields_configured_generators_witness :
  H32.configured (@Sample.masked32 unit) /\
  H32.N (@Sample.masked32 unit) = 0 /\
  H28.configured (@Sample.stepped28 unit) /\
  H28.Step (@Sample.stepped28 unit) = 4.
Proof.
  destruct (@X1_NewWUID_yields_configured_generators unit) as [C32 C28].
  destruct (C32 "g" [H32.WithSection_fn 1; H32.WithObfuscation_fn 1]
                Sample.masked32) as (Hc & Hn & _).
  - apply Forall_cons; [right; left; exists 1; reflexivity | ].
    apply Forall_cons; [right; right; right; exists 1; reflexivity | ].
    apply Forall_nil.
  - reflexivity.
  - destruct (C28 "g" [H28.WithStep_fn 4 3]) as (Hc28 & _).
    + apply Forall_cons; [right; right; exists 4, 3; reflexivity | ].
      apply Forall_nil.
    + split; [exact Hc | split; [exact Hn | split; [exact Hc28 | ]]].
      reflexivity.
Defined.

Section Second_WithStep.

Context {Fn : Type}.

Lemma H32_apply_Options_app (pre rest : list H32.Option) (w : H32.WUID Fn) :
  H32.apply_Options (pre ++ rest) w =
  match H32.apply_Options pre w with
  | Ok w1 => H32.apply_Options rest w1
  | Panic m => Panic m
  end.
Proof.
  revert w; induction pre as [| o pre IH]; intros w; [reflexivity | ].
  cbn [app H32.apply_Options].
  destruct (H32.apply_Option o w); [apply IH | reflexivity].
Qed.

(** The only panic an option body raises. *)
Lemma H32_apply_Options_panic (opts : list H32.Option) :
  forall (w : H32.WUID Fn) (m : string),
    H32.apply_Options opts w = Panic m -> m = "a second WithStep detected".
Proof.
  induction opts as [| o opts IH]; intros w m H; [discriminate | ].
  cbn [H32.apply_Options] in H.
  destruct (H32.apply_Option o w) as [w1 | m1] eqn:E.
  - eapply IH; eassumption.
  - injection H as <-.
    destruct o as [cb | section | step floor | seed];
      cbn [H32.apply_Option] in E; try discriminate.
    destruct (negb (H32.Step w =? 1)); [now injection E as <- | ].
    destruct (floor >=? 2); discriminate.
Qed.

(** Once the step is not 1, any later [WithStep] option panics. *)
Lemma H32_WithStep_after_step (opts : list H32.Option) :
  forall (w : H32.WUID Fn) (step floor : Z),
    H32.Step w <> 1 ->
    In (H32.WithStep_fn step floor) opts ->
    H32.apply_Options opts w = Panic "a second WithStep detected".
Proof.
  induction opts as [| o opts IH]; intros w step floor Hs Hin;
    [contradiction | ].
  cbn [H32.apply_Options].
  destruct o as [cb | section | step' floor' | seed];
    cbn [H32.apply_Option].
  - destruct Hin as [E | Hin]; [discriminate | ].
    eapply IH; [exact Hs | exact Hin].
  - destruct Hin as [E | Hin]; [discriminate | ].
    eapply IH; [exact Hs | exact Hin].
  - destruct (Z.eqb_spec (H32.Step w) 1); [contradiction | reflexivity].
  - destruct Hin as [E | Hin]; [discriminate | ].
    eapply IH; [exact Hs | exact Hin].
Qed.

(** X2.  32/32 split: whatever else the option list holds, [NewWUID]
    panics with "a second WithStep detected" when a [WithStep] option comes
    after a [WithStep] option whose step is not 1.  The check is on the
    step being 1, so a [WithStep(1, 0)] goes unnoticed: the option after it
    sets the step as if it were the first.  28/36 split: there is no such
    check, the last [WithStep] option decides step and floor. *)
Theorem X2_second_WithStep :
  (forall (name : string) (pre mid post : list H32.Option)
          (s1 f1 s2 f2 : Z),
      s1 <> 1 ->
      @H32.NewWUID Fn name
        (pre ++ H32.WithStep_fn s1 f1 :: mid ++ H32.WithStep_fn s2 f2 :: post)
      = Panic "a second WithStep detected") /\
  (forall (name : string) (s f : Z),
      exists w : H32.WUID Fn,
        H32.NewWUID name [H32.WithStep_fn 1 0; H32.WithStep_fn s f] = Ok w /\
        H32.Step w = s /\ H32.Floor w = (if f >=? 2 then f else 0)) /\
  (forall (name : string) (pre post : list H28.Option) (s f : Z),
      Forall (fun o => match o with
                       | H28.WithStep_fn _ _ => False
                       | _ => True
                       end) post ->
      let w : H28.WUID Fn :=
        H28.NewWUID name (pre ++ H28.WithStep_fn s f :: post) in
      H28.Step w = s /\ H28.Floor w = f).
Proof.
  split; [ | split].
  - intros name pre mid post s1 f1 s2 f2 Hs1. unfold H32.NewWUID.
    rewrite H32_apply_Options_app.
    destruct (H32.apply_Options pre _) as [w1 | m] eqn:Epre.
    + cbn [H32.apply_Options H32.apply_Option].
      destruct (negb (H32.Step w1 =? 1)); [reflexivity | ].
      set (w2 := if f1 >=? 2 then _ else _).
      assert (Hw2 : exists w2', w2 = Ok w2' /\ H32.Step w2' = s1).
      { unfold w2. destruct (f1 >=? 2); eexists; split; reflexivity. }
      destruct Hw2 as (w2' & -> & Hstep).
      rewrite (H32_WithStep_after_step _ w2' s2 f2);
        [reflexivity | now rewrite Hstep | ].
      apply in_or_app. right. left. reflexivity.
    + now rewrite (H32_apply_Options_panic _ _ _ Epre).
  - intros name s f. unfold H32.NewWUID.
    cbn [H32.apply_Options H32.apply_Option H32.Step Z.eqb negb].
    destruct (f >=? 2);
      cbn [H32.Obfuscation negb orb]; eexists; split;
      try reflexivity; split; reflexivity.
  - intros name pre post s f Hpost w. unfold w, H28.NewWUID.
    rewrite fold_left_app. cbn [fold_left].
    set (w0 := H28.apply_Option (H28.WithStep_fn s f) _).
    assert (H0 : H28.Step w0 = s /\ H28.Floor w0 = f) by (split; reflexivity).
    clearbody w0. revert w0 H0.
    induction Hpost as [| o post Ho Hpost IH]; intros w0 H0; [exact H0 | ].
    cbn [fold_left]. apply IH.
    destruct o as [section | cb | step floor]; [exact H0 | exact H0 | ].
    contradiction.
Qed.

End Second_WithStep.

Lemma X2_second_WithStep_witness :
  @H32.NewWUID unit "g" [H32.WithObfuscation_fn 7; H32.WithStep_fn 4 2;
                         H32.WithSection_fn 1; H32.WithStep_fn 8 0]
  = Panic "a second WithStep detected" /\
  H28.Step (@H28.NewWUID unit "g" [H28.WithStep_fn 4 2; H28.WithStep_fn 8 0;
                                   H28.WithSection_fn 1]) = 8.
Proof.
  destruct (@X2_second_WithStep unit) as (Second & _ & Last).
  split.
  - apply (Second "g" [H32.WithObfuscation_fn 7] [H32.WithSection_fn 1] []
                  4 2 8 0).
    discriminate.
  - apply (Last "g" [H28.WithStep_fn 4 2] [H28.WithSection_fn 1] 8 0).
    apply Forall_cons; [exact I | apply Forall_nil].
Defined.

(** ** A loaded candidate is not accepted twice *)

Section Reload.

Context {Fn : Type}.

Lemma H32_Verify_current (w : H32.WUID Fn) (h : Z) :
  0 < h <= H32.limit w ->
  H32.high_segment w (H32.N w) = h ->
  H32.Verifyh32 w h =
  Some ("h32 should be a different value other than " ++ fmt_d h).
Proof.
  unfold H32.limit, H32.high_segment, H32.Verifyh32, H32.LoadInt64.
  intros Hh Hcur.
  destruct (Z.leb_spec h 0); [lia | ].
  destruct (H32.Monolithic w).
  - destruct (Z.gtb_spec h 0x1FFFFF); [lia | ].
    rewrite Hcur, Z.eqb_refl. reflexivity.
  - destruct (Z.gtb_spec h 0x00FFFFFF); [lia | ].
    rewrite Hcur, Z.eqb_refl. reflexivity.
Qed.

Lemma H28_Verify_current (w : H28.WUID Fn) (h : Z) :
  0 < h <= H28.limit w ->
  H28.high_segment w (H28.N w) = h ->
  H28.VerifyH28 w h =
  Some ("h28 should be a different value other than " ++ fmt_d h
        ++ ". name: " ++ H28.Name w).
Proof.
  unfold H28.limit, H28.high_segment, H28.VerifyH28, H28.LoadInt64.
  intros Hh Hcur.
  destruct (Z.leb_spec h 0); [lia | ].
  destruct (H28.Monolithic w).
  - destruct (Z.gtb_spec h 0x07FFFFFF); [lia | ].
    rewrite Hcur, Z.eqb_refl. reflexivity.
  - destruct (Z.gtb_spec h 0x00FFFFFF); [lia | ].
    rewrite Hcur, Z.eqb_refl. reflexivity.
Qed.

Lemma H32_high_loaded (w : H32.WUID Fn) (h : Z) :
  H32.configured w ->
  0 < h <= H32.limit w ->
  H32.high_segment w (h * 2 ^ 32 + H32.Section_ w) = h.
Proof.
  intros Hc Hh.
  destruct (H32_section_form w Hc) as (s & Hs & Es & Hmono).
  destruct (H32_limit_bound w h Hh) as [Hb _].
  rewrite Es.
  replace (h * 2 ^ 32 + s * 2 ^ 60) with (h * 2 ^ 32 + s * 2 ^ 60 + 0)
    by lia.
  apply H32_high_plain; [lia | lia | exact Hmono].
Qed.

Lemma H28_high_loaded (w : H28.WUID Fn) (h : Z) :
  H28.configured w ->
  0 < h <= H28.limit w ->
  H28.high_segment w (h * 2 ^ 36 + H28.Section_ w) = h.
Proof.
  intros Hc Hh.
  destruct (H28_section_form w Hc) as (s & Hs & Es & Hmono).
  destruct (H28_limit_bound w h Hh) as [Hb Hn].
  rewrite Es.
  replace (h * 2 ^ 36 + s * 2 ^ 60) with (h * 2 ^ 36 + s * 2 ^ 60 + 0)
    by lia.
  apply H28_high_plain; [lia | lia | exact Hmono | exact Hn].
Qed.

(** X3.  A candidate for the high segment that the verifier accepts can
    be loaded, and once [Reset] has installed it the verifier rejects the
    same candidate with "should be a different value": no high segment is
    accepted twice in a row, on either split, whatever the user's verifier
    says. *)
Theorem X3_loaded_candidate_is_rejected_next :
  (forall (w : H32.WUID Fn) (h32 : Z),
      H32.configured w ->
      H32.Verifyh32 w h32 = None ->
      exists w',
        H32.Reset w (Int64.shl h32 32) = (Ok tt, w') /\
        H32.high_segment w' (H32.N w') = h32 /\
        H32.low_segment w' = 0 /\
        H32.Verifyh32 w' h32 =
        Some ("h32 should be a different value other than "
              ++ fmt_d h32)) /\
  (forall (w : H28.WUID Fn) (h28 : Z),
      H28.configured w ->
      H28.VerifyH28 w h28 = None ->
      exists w',
        H28.Reset w (Int64.shl h28 36) = (Ok tt, w') /\
        H28.high_segment w' (H28.N w') = h28 /\
        H28.low_segment w' = 0 /\
        H28.VerifyH28 w' h28 =
        Some ("h28 should be a different value other than "
              ++ fmt_d h28 ++ ". name: " ++ H28.Name w)).
Proof.
  split.
  - intros w h Hc Hv.
    destruct (H32_Verify_None w h Hv) as [Hh _].
    exists (H32.set_N w (h * 2 ^ 32 + H32.Section_ w)).
    pose proof (H32_high_loaded w h Hc Hh) as Hhigh.
    split; [exact (H32_Reset_candidate w h Hc Hh) | ].
    split; [exact Hhigh | ].
    split.
    + unfold H32.low_segment. cbn [H32.set_N H32.N].
      destruct (H32_section_form w Hc) as (s & Hs & Es & _).
      rewrite Es, H32_low.
      replace (h * 2 ^ 32 + s * 2 ^ 60)
        with ((h + s * 2 ^ 28) * 2 ^ 32) by lia.
      apply Z.mod_mul. lia.
    + apply H32_Verify_current; [exact Hh | exact Hhigh].
  - intros w h Hc Hv.
    destruct (H28_Verify_None w h Hv) as [Hh _].
    exists (H28.set_N w (h * 2 ^ 36 + H28.Section_ w)).
    pose proof (H28_high_loaded w h Hc Hh) as Hhigh.
    split; [exact (H28_Reset_candidate w h Hc Hh) | ].
    split; [exact Hhigh | ].
    split.
    + unfold H28.low_segment. cbn [H28.set_N H28.N].
      destruct (H28_section_form w Hc) as (s & Hs & Es & _).
      rewrite Es, H28_low.
      replace (h * 2 ^ 36 + s * 2 ^ 60)
        with ((h + s * 2 ^ 24) * 2 ^ 36) by lia.
      apply Z.mod_mul. lia.
    + apply (H28_Verify_current (H28.set_N w _) h); [exact Hh | exact Hhigh].
Qed.

End Reload.

Lemma X3_loaded_candidate_is_rejected_next_witness :
  H32.Verifyh32 (snd (H32.Reset (@Sample.masked32 unit) (Int64.shl 5 32))) 5
  = Some "h32 should be a different value other than 5" /\
  H28.VerifyH28 (snd (H28.Reset (@Sample.sectioned28 unit) (Int64.shl 5 36)))
                5
  = Some "h28 should be a different value other than 5. name: g".
Proof.
  destruct (@X3_loaded_candidate_is_rejected_next unit) as [L32 L28].
  split.
  - destruct (L32 Sample.masked32 5) as (w' & Er & _ & _ & Ev).
    + apply Sample_configured.
    + reflexivity.
    + rewrite Er. exact Ev.
  - destruct (L28 Sample.sectioned28 5) as (w' & Er & _ & _ & Ev).
    + apply Sample_configured.
    + reflexivity.
    + rewrite Er. exact Ev.
Defined.

(** ** What [Reset] installs *)

Section Reset_rounding.

Context {Fn : Type}.

(** Rounding a word up to a multiple of the step, as [Reset] does it with
    [n &^ (step - 1) + step], for a word whose low segment is below the
    panic threshold. *)
Lemma round_up_step (b j : Z) :
  0 <= j <= 10 ->
  0 <= b < 2 ^ 63 ->
  b mod 2 ^ 32 < H32.PanicValue ->
  let n' := if Z.land b (2 ^ j - 1) =? 0 then b
            else Int64.add (Z.ldiff b (2 ^ j - 1)) (2 ^ j) in
  b <= n' < b + 2 ^ j /\ n' mod 2 ^ j = 0 /\
  n' mod 2 ^ 32 <= H32.PanicValue /\ n' / 2 ^ 32 = b / 2 ^ 32.
Proof.
  intros Hj Hb Hlow. rewrite H32_PanicValue in *.
  replace (2 ^ j - 1) with (Z.ones j) by (rewrite Z.ones_equiv; lia).
  rewrite Z.land_ones, Z.ldiff_ones_r, Z.shiftl_mul_pow2, Z.shiftr_div_pow2
    by lia.
  unfold Int64.add, Int64.wrap.
  assert (Ej : j = 0 \/ j = 1 \/ j = 2 \/ j = 3 \/ j = 4 \/ j = 5 \/ j = 6 \/
               j = 7 \/ j = 8 \/ j = 9 \/ j = 10) by lia.
  change (2 ^ 32) with 4294967296 in *.
  change (2 ^ 63) with 9223372036854775808 in *.
  change (2 ^ 64) with 18446744073709551616.
  repeat destruct Ej as [-> | Ej]; try subst j;
    match goal with
    | |- context [2 ^ ?k] =>
        let v := eval vm_compute in (2 ^ k) in change (2 ^ k) with v
    end;
    cbv zeta;
    match goal with
    | |- context [?x =? 0] => destruct (Z.eqb_spec x 0)
    end; Z.div_mod_to_equations; lia.
Qed.

(** [Reset] on a word below the panic threshold: what it installs. *)
Lemma H32_Reset_rounds :
  forall (w : H32.WUID Fn) (n : Z),
    H32.configured w ->
    0 <= n <= Int64.max_int ->
    Z.land n H32.L32Mask < H32.PanicValue ->
    let base := if H32.Monolithic w then n
                else n mod 2 ^ 60 + H32.Section_ w in
    exists n',
      H32.Reset w n = (Ok tt, H32.set_N w n') /\
      base <= n' < base + H32.Step w /\
      n' <= Int64.max_int /\
      (2 <= H32.Floor w -> n' mod H32.Step w = 0) /\
      (H32.Floor w = 0 -> n' = base) /\
      Z.land n' H32.L32Mask <= H32.PanicValue /\
      Z.shiftr n' 32 = Z.shiftr base 32.
Proof.
  intros w n Hc Hn Hlow base.
  destruct (H32_section_form w Hc) as (s & Hs & Es & Hmono).
  destruct (steps_pow2 _ (H32.cfg_step w Hc)) as (j & Hj & Ej).
  unfold Int64.max_int in *.
  rewrite H32_low in Hlow.
  assert (Hbase : (if H32.Monolithic w then n
                   else Z.lor (Z.land n H32.L60Mask) (H32.Section_ w))
                  = base).
  { unfold base. destruct (H32.Monolithic w); [reflexivity | ].
    change H32.L60Mask with (Z.ones 60).
    rewrite Z.land_ones, Es, Z.lor_comm by lia.
    rewrite lor_hi_lo; [lia | lia | ].
    apply Z.mod_pos_bound. lia. }
  assert (Hrange : 0 <= base < 2 ^ 63 /\ base mod 2 ^ 32 = n mod 2 ^ 32).
  { unfold base. destruct (H32.Monolithic w); [lia | ].
    rewrite Es.
    pose proof (Z.mod_pos_bound n (2 ^ 60) ltac:(lia)).
    split; [lia | ].
    change (2 ^ 60) with 1152921504606846976 in *.
    change (2 ^ 32) with 4294967296.
    Z.div_mod_to_equations. lia. }
  destruct Hrange as [Hb Elow].
  assert (Hsub : Int64.sub (H32.Step w) 1 = 2 ^ j - 1).
  { unfold Int64.sub. rewrite Ej. apply wrap_small.
    assert (2 ^ j <= 2 ^ 10) by (apply Z.pow_le_mono_r; lia).
    pose proof (pow2_pos j ltac:(lia)).
    unfold Int64.in_range, Int64.min_int, Int64.max_int. lia. }
  pose proof (round_up_step base j Hj Hb ltac:(lia)) as Hround.
  cbv zeta in Hround.
  unfold H32.Reset, H32.StoreInt64.
  destruct (Z.ltb_spec n 0); [lia | ].
  rewrite H32_low.
  destruct (Z.geb_spec (n mod 2 ^ 32) H32.PanicValue); [lia | ].
  rewrite Hbase, Hsub.
  assert (Hstep : 0 < 2 ^ j) by (apply pow2_pos; lia).
  destruct (Z.gtb_spec (H32.Floor w) 1) as [Hf | Hf].
  - rewrite Ej.
    destruct (Z.land base (2 ^ j - 1) =? 0) eqn:E;
      eexists; (split; [reflexivity | ]);
      rewrite !Z.shiftr_div_pow2, !H32_low by lia;
      destruct Hround as (H1 & H2 & H3 & H4);
      split_all; try lia; try assumption.
    pose proof (add_in_range (Z.ldiff base (2 ^ j - 1)) (2 ^ j)) as R.
    unfold Int64.in_range, Int64.max_int in R. lia.
  - exists base. split; [reflexivity | ].
    rewrite H32_low, H32_PanicValue in *.
    split_all; try lia.
Qed.

(** X4.  32/32 split: [Reset(n)] with a non-negative [n] whose low segment
    is below the panic threshold never panics, and it never installs a
    word below the one asked for: with a floor the installed word is the
    least multiple of the step at or above it, otherwise the word itself
    (in sectioned mode: the word with its top four bits replaced by the
    section).  The high segment asked for is kept, and the low segment
    installed is at most the panic threshold. *)
Theorem X4_Reset_installs_the_next_multiple_of_step :
  forall (w : H32.WUID Fn) (n : Z),
    H32.configured w ->
    0 <= n <= Int64.max_int ->
    Z.land n H32.L32Mask < H32.PanicValue ->
    let base := if H32.Monolithic w then n
                else n mod 2 ^ 60 + H32.Section_ w in
    exists n',
      H32.Reset w n = (Ok tt, H32.set_N w n') /\
      base <= n' < base + H32.Step w /\
      n' <= Int64.max_int /\
      (2 <= H32.Floor w -> n' mod H32.Step w = 0) /\
      (H32.Floor w = 0 -> n' = base) /\
      Z.land n' H32.L32Mask <= H32.PanicValue /\
      Z.shiftr n' 32 = Z.shiftr base 32.
Proof. exact H32_Reset_rounds. Qed.

End Reset_rounding.

Lemma X4_Reset_installs_the_next_multiple_of_step_witness :
  exists n',
    H32.Reset (@Sample.stepped32 unit) (Z.shiftl 5 32 + 6)
    = (Ok tt, H32.set_N Sample.stepped32 n') /\
    Z.shiftl 5 32 + 6 <= n' < Z.shiftl 5 32 + 6 + 4 /\ n' mod 4 = 0.
Proof.
  destruct (X4_Reset_installs_the_next_multiple_of_step
              (@Sample.stepped32 unit) (Z.shiftl 5 32 + 6))
    as (n' & Er & Hb & _ & Hm & _).
  - apply Sample_configured.
  - vm_compute. split; discriminate.
  - reflexivity.
  - exists n'. split; [exact Er | ]. split; [exact Hb | ].
    apply Hm. vm_compute. discriminate.
Defined.

(** ** The only panic of [Next] *)

Section Next_returns.

Context {Fn : Type}.

(** On a configured generator the output transform always yields a value:
    the flags are in 0..3, and a floor that is divided by is at least 2. *)
Lemma H32_Next_switch_value (w : H32.WUID Fn) (v : Z) :
  H32.configured w ->
  0 <= v <= Int64.max_int ->
  exists r, H32.Next_switch w v = Ok r /\ 0 <= r <= Int64.max_int.
Proof.
  intros Hc Hv. rewrite (H32_switch_order w v Hc). cbv zeta.
  set (q := if H32.Obfuscation w then _ else v).
  assert (Hq : 0 <= q <= Int64.max_int).
  { unfold q. destruct (H32.Obfuscation w); [ | exact Hv].
    pose proof (H32_obfuscated_range v (Z.lxor v (H32.ObfuscationMask w))).
    unfold Int64.max_int. lia. }
  clearbody q.
  destruct (Z.leb_spec 2 (H32.Floor w)) as [Hf | Hf].
  - destruct (quantise_spec q (H32.Floor w)) as (Ed & Em & _); [lia | | ].
    + unfold Int64.in_range, Int64.min_int, Int64.max_int in *. lia.
    + rewrite Ed, Em. eexists. split; [reflexivity | ].
      pose proof (Z.rem_bound_pos q (H32.Floor w) ltac:(lia) ltac:(lia)).
      pose proof (Z.rem_le q (H32.Floor w) ltac:(lia) ltac:(lia)). lia.
  - exists q. split; [reflexivity | exact Hq].
Qed.

Lemma H32_Next_switch_returns (w : H32.WUID Fn) (v : Z) :
  H32.configured w -> exists r, H32.Next_switch w v = Ok r.
Proof.
  intros Hc. rewrite (H32_switch_order w v Hc). cbv zeta.
  destruct (Z.leb_spec 2 (H32.Floor w)) as [Hf | Hf];
    [ | eexists; reflexivity].
  unfold Int64.div.
  destruct (Z.eqb_spec (H32.Floor w) 0); [lia | eexists; reflexivity].
Qed.

Lemma H28_Next_floor_returns (w : H28.WUID Fn) (x : Z) :
  exists r, H28.Next_floor w x = Ok r.
Proof.
  unfold H28.Next_floor, Int64.div.
  destruct (H28.Floor w =? 0); eexists; reflexivity.
Qed.

(** X5.  The only way [Next] panics is exhaustion.  On a generator that
    [NewWUID] configured (32/32 split) and on any generator of the 28/36
    split, a call whose fetch-and-add lands below the panic threshold
    returns a value and leaves the incremented word in place: the
    "impossible" branch of the switch and a division by a zero floor are
    never reached.  A call that panics has landed at or past the
    threshold. *)
Theorem X5_Next_panics_only_when_exhausted :
  (forall w : H32.WUID Fn,
      H32.configured w ->
      let v1 := Int64.add (H32.N w) (H32.Step w) in
      (Z.land v1 H32.L32Mask < H32.PanicValue ->
       exists r, fst (fst (H32.Next w)) = Ok r /\
                 snd (H32.Next w) = H32.set_N w v1) /\
      (forall m, fst (fst (H32.Next w)) = Panic m ->
                 H32.PanicValue <= Z.land v1 H32.L32Mask /\
                 m = "the low 36 bits are about to run out")) /\
  (forall w : H28.WUID Fn,
      let x := Int64.add (H28.N w) (H28.Step w) in
      (Z.land x H28.L36Mask < H28.PanicValue ->
       exists r, fst (fst (H28.Next w)) = Ok r /\
                 snd (H28.Next w) = H28.set_N w x) /\
      (forall m, fst (fst (H28.Next w)) = Panic m ->
                 H28.PanicValue <= Z.land x H28.L36Mask /\
                 m = "<wuid> the low 36 bits are about to run out. name: "
                     ++ H28.Name w)).
Proof.
  split.
  - intros w Hc v1. rewrite H32_Next_eq. cbv zeta. fold v1.
    destruct (H32_Next_switch_returns w v1 Hc) as [r Er].
    destruct (Z.geb_spec (Z.land v1 H32.L32Mask) H32.PanicValue) as [Hp | Hp];
      cbn [fst snd].
    + split; [lia | ]. intros m Hm. injection Hm as <-.
      split; [exact Hp | reflexivity].
    + split; [intros _; exists r; split; [exact Er | reflexivity] | ].
      intros m Hm. rewrite Er in Hm. discriminate.
  - intros w x. rewrite H28_Next_eq. cbv zeta. fold x.
    destruct (H28_Next_floor_returns w x) as [r Er].
    destruct (Z.geb_spec (Z.land x H28.L36Mask) H28.PanicValue) as [Hp | Hp];
      cbn [fst snd].
    + split; [lia | ]. intros m Hm. injection Hm as <-.
      split; [exact Hp | reflexivity].
    + split; [intros _; exists r; split; [exact Er | reflexivity] | ].
      intros m Hm. rewrite Er in Hm. discriminate.
Qed.

End Next_returns.

Lemma X5_Next_panics_only_when_exhausted_witness :
  (exists r, fst (fst (H32.Next (@Sample.masked32 unit))) = Ok r) /\
  (forall m, fst (fst (H28.Next (@Sample.brink28 unit))) = Panic m ->
             m = "<wuid> the low 36 bits are about to run out. name: g").
Proof.
  destruct (@X5_Next_panics_only_when_exhausted unit) as [R32 R28].
  split.
  - destruct (R32 Sample.masked32) as [Hret _]; [apply Sample_configured | ].
    destruct Hret as (r & Er & _); [reflexivity | ].
    exists r. exact Er.
  - intros m Hm. destruct (R28 Sample.brink28) as [_ Hpan].
    apply (Hpan m Hm).
Defined.

(** ** The states a generator goes through *)

(** One case for each step that [WithStep] admits. *)
Ltac step_cases Hs :=
  cbn [In] in Hs;
  repeat (destruct Hs as [Hs | Hs]; [symmetry in Hs | ]);
  [ .. | contradiction].

Section Sound_states.

Context {Fn : Type}.

(** The fetch-and-add of [Next] on a sound state: nothing wraps and
    nothing is carried out of the low segment. *)
Lemma H32_add_sound (n s : Z) :
  0 <= n <= Int64.max_int ->
  0 < s <= 1024 ->
  n mod 2 ^ 32 <= H32.PanicValue ->
  Int64.add n s = n + s /\
  (n + s) mod 2 ^ 32 = n mod 2 ^ 32 + s /\
  (n + s) / 2 ^ 32 = n / 2 ^ 32 /\
  n + s <= Int64.max_int.
Proof.
  intros Hn Hs Hl. rewrite H32_PanicValue in Hl.
  unfold Int64.max_int in *.
  assert (Hsum : (n + s) mod 2 ^ 32 = n mod 2 ^ 32 + s /\
                 (n + s) / 2 ^ 32 = n / 2 ^ 32 /\ n + s <= 2 ^ 63 - 1).
  { change (2 ^ 32) with 4294967296 in *.
    change (2 ^ 63) with 9223372036854775808 in *.
    Z.div_mod_to_equations. lia. }
  split; [ | exact Hsum].
  apply wrap_small. unfold Int64.in_range, Int64.min_int, Int64.max_int. lia.
Qed.

Lemma H28_add_sound (n s : Z) :
  0 <= n <= Int64.max_int ->
  0 < s <= 1024 ->
  n mod 2 ^ 36 <= H28.PanicValue ->
  Int64.add n s = n + s /\
  (n + s) mod 2 ^ 36 = n mod 2 ^ 36 + s /\
  (n + s) / 2 ^ 36 = n / 2 ^ 36 /\
  n + s <= Int64.max_int.
Proof.
  intros Hn Hs Hl. rewrite H28_PanicValue in Hl.
  unfold Int64.max_int in *.
  assert (Hsum : (n + s) mod 2 ^ 36 = n mod 2 ^ 36 + s /\
                 (n + s) / 2 ^ 36 = n / 2 ^ 36 /\ n + s <= 2 ^ 63 - 1).
  { change (2 ^ 36) with 68719476736 in *.
    change (2 ^ 63) with 9223372036854775808 in *.
    Z.div_mod_to_equations. lia. }
  split; [ | exact Hsum].
  apply wrap_small. unfold Int64.in_range, Int64.min_int, Int64.max_int. lia.
Qed.

(** The word a panicking call pins is a multiple of every step. *)
Lemma H32_pinned_aligned (v step : Z) :
  In step H32.steps ->
  Z.lor (Z.land v H32.H32Mask) H32.PanicValue mod step = 0.
Proof.
  intros Hs. rewrite H32_panicValue, H32_PanicValue.
  change (2 ^ 32) with 4294967296. change (2 ^ 21) with 2097152.
  unfold H32.steps in Hs. step_cases Hs; subst step;
    Z.div_mod_to_equations; lia.
Qed.

Lemma H32_pinned_range (v : Z) :
  0 <= Z.lor (Z.land v H32.H32Mask) H32.PanicValue <= Int64.max_int.
Proof.
  rewrite H32_panicValue, H32_PanicValue. unfold Int64.max_int.
  pose proof (Z.mod_pos_bound (v / 2 ^ 32) (2 ^ 21) ltac:(lia)). lia.
Qed.

Lemma H28_pinned_range (v : Z) :
  0 <= Z.lor (Z.land v H28.H28Mask) H28.PanicValue <= Int64.max_int.
Proof.
  rewrite H28_panicValue, H28_PanicValue. unfold Int64.max_int.
  pose proof (Z.mod_pos_bound (v / 2 ^ 36) (2 ^ 27) ltac:(lia)). lia.
Qed.

Lemma H32_Next_sound (w : H32.WUID Fn) :
  sound32 w ->
  sound32 (snd (H32.Next w)) /\
  (exists n, snd (H32.Next w) = H32.set_N w n) /\
  (forall r, fst (fst (H32.Next w)) = Ok r -> 0 <= r <= Int64.max_int).
Proof.
  intros (Hc & Hn & Hl & Ha).
  pose proof (H32_steps_bounds _ (H32.cfg_step w Hc)) as Hs.
  unfold H32.low_segment in Hl. rewrite H32_low in Hl.
  destruct (H32_add_sound _ _ Hn Hs Hl) as (Eadd & Elow & _ & Hmax).
  rewrite H32_Next_eq. cbv zeta. rewrite Eadd, H32_low, Elow.
  destruct (Z.geb_spec (H32.N w mod 2 ^ 32 + H32.Step w) H32.PanicValue)
    as [Hp | Hp]; cbn [fst snd].
  - split; [ | split; [eexists; reflexivity | discriminate]].
    split; [apply H32_configured_set_N, Hc | ].
    unfold H32.low_segment. cbn [H32.set_N H32.N H32.Step H32.Floor].
    split; [apply H32_pinned_range | ].
    split; [rewrite H32_panicValue_low; lia | ].
    intros _. apply H32_pinned_aligned, (H32.cfg_step w Hc).
  - split; [ | split; [eexists; reflexivity | ]].
    + split; [apply H32_configured_set_N, Hc | ].
      unfold H32.low_segment. cbn [H32.set_N H32.N H32.Step H32.Floor].
      split; [lia | ].
      split; [rewrite H32_low, Elow; lia | ].
      intros Hf.
      rewrite <- Z.add_mod_idemp_l, (Ha Hf), Z.add_0_l by lia.
      apply Z.mod_same. lia.
    + intros r Er.
      destruct (H32_Next_switch_value w (H32.N w + H32.Step w) Hc
                                      ltac:(lia)) as (r' & Er' & Hr').
      rewrite Er' in Er. injection Er as <-. exact Hr'.
Qed.

Lemma H32_Reset_sound (w : H32.WUID Fn) (n : Z) :
  sound32 w ->
  Int64.in_range n ->
  sound32 (snd (H32.Reset w n)) /\
  exists n', snd (H32.Reset w n) = H32.set_N w n'.
Proof.
  intros Hw Hn.
  assert (Hsame : sound32 w /\ exists n', w = H32.set_N w n').
  { split; [exact Hw | exists (H32.N w); symmetry; apply H32_set_N_same]. }
  destruct Hw as (Hc & Hw).
  destruct (Z.ltb_spec n 0) as [Hneg | Hpos].
  { unfold H32.Reset. destruct (Z.ltb_spec n 0); [exact Hsame | lia]. }
  destruct (Z.geb_spec (Z.land n H32.L32Mask) H32.PanicValue) as [Hold | Hnew].
  { unfold H32.Reset. destruct (Z.ltb_spec n 0); [lia | ].
    destruct (Z.geb_spec (Z.land n H32.L32Mask) H32.PanicValue);
      [exact Hsame | lia]. }
  destruct (H32_Reset_rounds w n Hc) as (n' & Er & Hb & Hmax & Hm & _ & Hp & _).
  - unfold Int64.in_range in Hn. lia.
  - exact Hnew.
  - rewrite Er. cbn [snd].
    split; [ | exists n'; reflexivity].
    split; [apply H32_configured_set_N, Hc | ].
    unfold H32.low_segment. cbn [H32.set_N H32.N H32.Step H32.Floor].
    split; [ | split; [exact Hp | exact Hm]].
    split; [ | exact Hmax].
    destruct (H32_section_form w Hc) as (s & Hs & Es & _).
    pose proof (Z.mod_pos_bound n (2 ^ 60) ltac:(lia)).
    destruct (H32.Monolithic w); lia.
Qed.

Lemma H28_Next_sound (w : H28.WUID Fn) :
  sound28 w ->
  sound28 (snd (H28.Next w)) /\
  (exists n, snd (H28.Next w) = H28.set_N w n) /\
  (forall r, fst (fst (H28.Next w)) = Ok r -> 0 < r <= Int64.max_int).
Proof.
  intros (Hc & Hn & Hl).
  pose proof (H28_steps_bounds _ (H28.cfg_step w Hc)) as Hs.
  pose proof (H28.cfg_floor w Hc) as Hf.
  unfold H28.low_segment in Hl. rewrite H28_low in Hl.
  destruct (H28_add_sound _ _ Hn Hs Hl) as (Eadd & Elow & _ & Hmax).
  rewrite H28_Next_eq. cbv zeta. rewrite Eadd, H28_low, Elow.
  destruct (Z.geb_spec (H28.N w mod 2 ^ 36 + H28.Step w) H28.PanicValue)
    as [Hp | Hp]; cbn [fst snd].
  - split; [ | split; [eexists; reflexivity | discriminate]].
    split; [apply H28_configured_set_N, Hc | ].
    unfold H28.low_segment. cbn [H28.set_N H28.N].
    split; [apply H28_pinned_range | ].
    rewrite H28_panicValue_low; lia.
  - split; [ | split; [eexists; reflexivity | ]].
    + split; [apply H28_configured_set_N, Hc | ].
      unfold H28.low_segment. cbn [H28.set_N H28.N].
      split; [lia | ].
      rewrite H28_low, Elow; lia.
    + intros r. unfold H28.Next_floor.
      destruct (Z.eqb_spec (H28.Floor w) 0) as [F0 | F0].
      * intros Er. injection Er as <-. lia.
      * set (x := H28.N w + H28.Step w) in *.
        destruct (quantise_spec x (H28.Floor w)) as (Ed & Em & _); [lia | | ].
        { unfold Int64.in_range, Int64.min_int, Int64.max_int in *. lia. }
        rewrite Ed, Em. intros Er. injection Er as <-.
        pose proof (Z.rem_bound_pos x (H28.Floor w) ltac:(lia) ltac:(lia)).
        lia.
Qed.

Lemma H28_Reset_sound (w : H28.WUID Fn) (n : Z) :
  sound28 w ->
  guarded28 (DoReset n) ->
  sound28 (snd (H28.Reset w n)) /\
  exists n', snd (H28.Reset w n) = H28.set_N w n'.
Proof.
  intros Hw [Hn Hg].
  destruct Hw as (Hc & Hw).
  unfold H28.Reset, H28.StoreInt64.
  destruct (Z.ltb_spec n 0) as [Hneg | Hpos]; cbn [snd].
  { split; [split; assumption | ].
    exists (H28.N w); symmetry; apply H28_set_N_same. }
  specialize (Hg Hpos). rewrite H28_low in Hg.
  unfold Int64.in_range in Hn.
  destruct (H28_section_form w Hc) as (s & Hs & Es & Hmono).
  destruct (H28.Monolithic w) eqn:Em; cbn [snd].
  - split; [ | eexists; reflexivity].
    split; [apply H28_configured_set_N; exact Hc | ].
    unfold H28.low_segment. cbn [H28.set_N H28.N].
    rewrite H28_low. lia.
  - split; [ | eexists; reflexivity].
    split; [apply H28_configured_set_N; exact Hc | ].
    unfold H28.low_segment. cbn [H28.set_N H28.N].
    change H28.SectionMask with (Z.ones 60).
    rewrite Z.land_ones, Es, Z.lor_comm by lia.
    rewrite lor_hi_lo, H28_low;
      [ | lia | apply Z.mod_pos_bound; lia].
    rewrite H28_PanicValue in *. unfold Int64.max_int in *.
    change (2 ^ 60) with 1152921504606846976 in *.
    change (2 ^ 36) with 68719476736 in *.
    change (2 ^ 63) with 9223372036854775808 in *.
    Z.div_mod_to_equations. lia.
Qed.

End Sound_states.

Section Runs.

Context {Fn : Type}.

Lemma H32_run_sound (ops : list operation) :
  forall w : H32.WUID Fn,
    Forall well_typed ops ->
    sound32 w ->
    sound32 (fold_left perform32 ops w) /\
    exists n, fold_left perform32 ops w = H32.set_N w n.
Proof.
  induction ops as [| o ops IH]; intros w Ht Hw.
  - split; [exact Hw | ].
    exists (H32.N w). symmetry. apply H32_set_N_same.
  - apply Forall_cons_iff in Ht. destruct Ht as [Ho Ht].
    cbn [fold_left].
    assert (Hstep : sound32 (perform32 w o) /\
                    exists n, perform32 w o = H32.set_N w n).
    { destruct o as [| n]; cbn [perform32].
      - destruct (H32_Next_sound w Hw) as (H1 & H2 & _). split; assumption.
      - apply H32_Reset_sound; assumption. }
    destruct Hstep as [Hs [n En]].
    destruct (IH _ Ht Hs) as [Hr [n' En']].
    split; [exact Hr | ].
    exists n'. rewrite En', En. reflexivity.
Qed.

Lemma H28_run_sound (ops : list operation) :
  forall w : H28.WUID Fn,
    Forall guarded28 ops ->
    sound28 w ->
    sound28 (fold_left perform28 ops w) /\
    exists n, fold_left perform28 ops w = H28.set_N w n.
Proof.
  induction ops as [| o ops IH]; intros w Ht Hw.
  - split; [exact Hw | ].
    exists (H28.N w). symmetry. apply H28_set_N_same.
  - apply Forall_cons_iff in Ht. destruct Ht as [Ho Ht].
    cbn [fold_left].
    assert (Hstep : sound28 (perform28 w o) /\
                    exists n, perform28 w o = H28.set_N w n).
    { destruct o as [| n]; cbn [perform28].
      - destruct (H28_Next_sound w Hw) as (H1 & H2 & _). split; assumption.
      - apply H28_Reset_sound; assumption. }
    destruct Hstep as [Hs [n En]].
    destruct (IH _ Ht Hs) as [Hr [n' En']].
    split; [exact Hr | ].
    exists n'. rewrite En', En. reflexivity.
Qed.

(** X6.  Whatever sequence of [Next] and [Reset] calls a generator from
    [NewWUID] goes through, panicking calls included, it stays in a sound
    state: only the counter word has changed, the word is not negative,
    its low segment is not past the panic threshold (the 28/36 split
    relies on the caller of [Reset] for this), and with a floor the word
    of the 32/32 split is a multiple of the step.  So an identifier that
    [Next] returns is never negative; in the 28/36 split it is positive. *)
Theorem X6_generators_stay_sound :
  (forall (name : string) (opts : list H32.Option) (w0 : H32.WUID Fn)
          (ops : list operation),
      Forall H32.built opts ->
      H32.NewWUID name opts = Ok w0 ->
      Forall well_typed ops ->
      let w := fold_left perform32 ops w0 in
      sound32 w /\ w = H32.set_N w0 (H32.N w) /\
      forall r, fst (fst (H32.Next w)) = Ok r -> 0 <= r <= Int64.max_int) /\
  (forall (name : string) (opts : list H28.Option) (ops : list operation),
      Forall H28.built opts ->
      Forall guarded28 ops ->
      let w0 : H28.WUID Fn := H28.NewWUID name opts in
      let w := fold_left perform28 ops w0 in
      sound28 w /\ w = H28.set_N w0 (H28.N w) /\
      forall r, fst (fst (H28.Next w)) = Ok r -> 0 < r <= Int64.max_int).
Proof.
  split.
  - intros name opts w0 ops Hb Hnew Ht w.
    destruct (H32_NewWUID_configured name opts w0 Hb Hnew) as [Hc H0].
    assert (Hw0 : sound32 w0).
    { split; [exact Hc | ]. unfold H32.low_segment. rewrite H0.
      split; [unfold Int64.max_int; lia | ].
      split; [rewrite H32_PanicValue; cbn; lia | ].
      intros _. apply Z.mod_0_l.
      pose proof (H32_steps_bounds _ (H32.cfg_step w0 Hc)). lia. }
    destruct (H32_run_sound ops w0 Ht Hw0) as [Hs [n En]]. fold w in Hs, En.
    split; [exact Hs | ].
    split; [rewrite En; reflexivity | ].
    apply (H32_Next_sound w Hs).
  - intros name opts ops Hb Ht w0 w.
    destruct (H28_NewWUID_configured (Fn := Fn) name opts Hb) as [Hc H0].
    fold w0 in Hc, H0.
    assert (Hw0 : sound28 w0).
    { split; [exact Hc | ]. unfold H28.low_segment. rewrite H0.
      split; [unfold Int64.max_int; lia | ].
      rewrite H28_PanicValue; cbn; lia. }
    destruct (H28_run_sound ops w0 Ht Hw0) as [Hs [n En]]. fold w in Hs, En.
    split; [exact Hs | ].
    split; [rewrite En; reflexivity | ].
    apply (H28_Next_sound w Hs).
Qed.

End Runs.

Lemma X6_generators_stay_sound_witness :
  sound32 (fold_left perform32
                     [DoNext; DoReset (Z.shiftl 5 32 + 6); DoNext;
                      DoReset (-1)]
                     (@Sample.stepped32 unit)) /\
  sound28 (fold_left perform28 [DoReset (Z.shiftl 5 36); DoNext; DoNext]
                     (@Sample.stepped28 unit)).
Proof.
  destruct (@X6_generators_stay_sound unit) as [S32 S28].
  assert (B32 : H32.built (H32.WithStep_fn 4 3))
    by (right; right; left; exists 4, 3; reflexivity).
  assert (B28 : H28.built (H28.WithStep_fn 4 3))
    by (right; right; exists 4, 3; reflexivity).
  split.
  - apply (S32 "g" [H32.WithStep_fn 4 3] Sample.stepped32).
    + apply Forall_cons; [exact B32 | apply Forall_nil].
    + reflexivity.
    + repeat (apply Forall_cons;
              [first [exact I | vm_compute; split; discriminate] | ]).
      apply Forall_nil.
  - apply (S28 "g" [H28.WithStep_fn 4 3]).
    + apply Forall_cons; [exact B28 | apply Forall_nil].
    + repeat (apply Forall_cons;
              [first [exact I
                     | split; [vm_compute; split; discriminate
                              | intros _; vm_compute; discriminate]] | ]).
      apply Forall_nil.
Defined.

(** ** The identifiers of a run *)

Section Returned.

Variables (W : Type) (word step : W -> Z) (out : W -> Z -> result Z).
Variables (next : W -> observation * W) (good : W -> Prop) (L P : Z).

Hypothesis step_pos : forall w, good w -> 0 < step w.

Hypothesis next_below :
  forall w,
    good w ->
    word w mod L + step w < P ->
    ret (fst (next w)) = out w (word w + step w) /\
    good (snd (next w)) /\
    word (snd (next w)) = word w + step w /\
    step (snd (next w)) = step w /\
    (word w + step w) mod L = word w mod L + step w /\
    (forall v, out (snd (next w)) v = out w v).

(** While the low segment stays below the threshold, the [k]-th call
    returns the transform of [word + k * step]. *)
Lemma calls_ret (n : nat) :
  forall w,
    good w ->
    word w mod L + Z.of_nat n * step w < P ->
    map ret (fst (calls next n w)) =
    map (fun k => out w (word w + Z.of_nat k * step w)) (seq 1 n).
Proof.
  induction n as [| n IH]; intros w Hg Hb; [reflexivity | ].
  pose proof (step_pos w Hg) as Hs.
  destruct (next_below w Hg) as (Eret & Hg1 & Ew & Es & El & Eout); [nia | ].
  rewrite calls_S. cbn [fst map seq].
  f_equal.
  - rewrite Eret. f_equal. lia.
  - rewrite (IH (snd (next w)) Hg1) by (rewrite Ew, El, Es; nia).
    rewrite <- (seq_shift n 1), map_map. apply map_ext. intros k.
    rewrite Eout, Ew, Es. f_equal. lia.
Qed.

End Returned.

Section Lists_of_values.

Variable g : nat -> Z.

Lemma map_seq_nth (n i : nat) :
  (i < n)%nat -> nth i (map g (seq 1 n)) 0 = g (S i).
Proof.
  intros Hi.
  rewrite (nth_indep _ 0 (g O)) by (rewrite length_map, length_seq; exact Hi).
  rewrite map_nth, seq_nth by exact Hi. reflexivity.
Qed.

Lemma map_seq_NoDup (n : nat) :
  (forall a b, (1 <= a <= n)%nat -> (1 <= b <= n)%nat ->
               g a = g b -> a = b) ->
  NoDup (map g (seq 1 n)).
Proof.
  intros Hinj. apply NoDup_map_NoDup_ForallPairs; [ | apply seq_NoDup].
  intros a b Ha Hb. apply in_seq in Ha, Hb. apply Hinj; lia.
Qed.

Lemma map_seq_increasing (n : nat) :
  (forall a b, (1 <= a < b)%nat -> (b <= n)%nat -> g a < g b) ->
  (forall i j, (i < j < n)%nat ->
               nth i (map g (seq 1 n)) 0 < nth j (map g (seq 1 n)) 0) /\
  NoDup (map g (seq 1 n)).
Proof.
  intros Hinc. split.
  - intros i j Hij. rewrite !map_seq_nth by lia. apply Hinc; lia.
  - apply map_seq_NoDup. intros a b Ha Hb E.
    destruct (Nat.lt_trichotomy a b) as [Hlt | [Heq | Hgt]]; [ | exact Heq | ].
    + pose proof (Hinc a b ltac:(lia) ltac:(lia)). lia.
    + pose proof (Hinc b a ltac:(lia) ltac:(lia)). lia.
Qed.

End Lists_of_values.

Section Bits.

(** What case 1 of the switch computes, by segments. *)
Lemma obfuscated_form (v m : Z) :
  Z.lor (Z.land v H32.H32Mask) (Z.land (Z.lxor v m) H32.L32Mask) =
  (v / 2 ^ 32) mod 2 ^ 21 * 2 ^ 32 + Z.lxor v m mod 2 ^ 32.
Proof.
  rewrite H32_H32Mask, land_hi, H32_low by lia.
  apply lor_hi_lo; [lia | apply Z.mod_pos_bound; lia].
Qed.

(** Xor with a fixed mask loses nothing of the low bits. *)
Lemma lxor_low_inj (v v' m k : Z) :
  0 <= k ->
  Z.lxor v m mod 2 ^ k = Z.lxor v' m mod 2 ^ k ->
  v mod 2 ^ k = v' mod 2 ^ k.
Proof.
  intros Hk. rewrite <- !Z.land_ones by exact Hk. intros E.
  apply Z.bits_inj'. intros i Hi.
  apply (f_equal (fun z => Z.testbit z i)) in E.
  rewrite !Z.land_spec, !Z.lxor_spec in E. rewrite !Z.land_spec.
  destruct (Z.testbit v i), (Z.testbit v' i), (Z.testbit m i),
    (Z.testbit (Z.ones k) i); cbn in *; congruence.
Qed.

(** With the low bits of the mask set, an aligned word is obfuscated into
    one whose low bits are all ones. *)
Lemma obfuscated_low_ones (v m j : Z) :
  0 <= j <= 10 ->
  v mod 2 ^ j = 0 ->
  Z.land m (2 ^ j - 1) = 2 ^ j - 1 ->
  Z.lor (Z.land v H32.H32Mask) (Z.land (Z.lxor v m) H32.L32Mask) mod 2 ^ j
  = 2 ^ j - 1.
Proof.
  intros Hj Hv Hm. rewrite obfuscated_form.
  set (a := (v / 2 ^ 32) mod 2 ^ 21).
  replace (a * 2 ^ 32) with (a * 2 ^ (32 - j) * 2 ^ j)
    by (rewrite (pow2_split 32 j) by lia; ring).
  rewrite Z.add_comm, Z.mod_add by (pose proof (pow2_pos j); lia).
  rewrite Z.mod_mod_divide
    by (exists (2 ^ (32 - j)); apply pow2_split; lia).
  replace (2 ^ j - 1) with (Z.ones j) in * by (rewrite Z.ones_equiv; lia).
  rewrite <- Z.land_ones by lia.
  apply lxor_low_ones; [ | exact Hm].
  rewrite Z.land_ones by lia. exact Hv.
Qed.

(** Quantising a word whose low [j] bits are ones to a floor below [2 ^ j]
    stays inside the block of [2 ^ j] words it is in. *)
Lemma floor_keeps_block (q F S : Z) :
  0 <= q ->
  2 <= F < S ->
  q mod S = S - 1 ->
  (q - Z.rem q F) / S = q / S.
Proof.
  intros Hq HF Hm.
  pose proof (Z.rem_bound_pos q F ltac:(lia) ltac:(lia)) as Hr.
  pose proof (Z.div_mod q S ltac:(lia)) as Hd.
  symmetry. apply Z.div_unique_pos with (r := S - 1 - Z.rem q F); lia.
Qed.

End Bits.

Section Identifiers.

Context {Fn : Type}.

(** The word after some calls that stayed below the threshold. *)
Lemma H32_offset (n t : Z) :
  0 <= n <= Int64.max_int ->
  0 <= t ->
  n mod 2 ^ 32 + t < H32.PanicValue ->
  (n + t) mod 2 ^ 32 = n mod 2 ^ 32 + t /\
  (n + t) / 2 ^ 32 = n / 2 ^ 32 /\
  0 <= n + t <= Int64.max_int.
Proof.
  rewrite H32_PanicValue. unfold Int64.max_int.
  change (2 ^ 32) with 4294967296.
  change (2 ^ 63) with 9223372036854775808.
  intros. Z.div_mod_to_equations. lia.
Qed.

Lemma H28_offset (n t : Z) :
  0 <= n <= Int64.max_int ->
  0 <= t ->
  n mod 2 ^ 36 + t < H28.PanicValue ->
  (n + t) mod 2 ^ 36 = n mod 2 ^ 36 + t /\
  (n + t) / 2 ^ 36 = n / 2 ^ 36 /\
  0 <= n + t <= Int64.max_int.
Proof.
  rewrite H28_PanicValue. unfold Int64.max_int.
  change (2 ^ 36) with 68719476736.
  change (2 ^ 63) with 9223372036854775808.
  intros. Z.div_mod_to_equations. lia.
Qed.

(** The value the switch of [Next] yields, without the wrap-around that
    cannot happen. *)
Lemma H32_switch_value (w : H32.WUID Fn) (v : Z) :
  H32.configured w ->
  0 <= v <= Int64.max_int ->
  H32.Next_switch w v =
  Ok (let q := if H32.Obfuscation w
               then Z.lor (Z.land v H32.H32Mask)
                          (Z.land (Z.lxor v (H32.ObfuscationMask w))
                                  H32.L32Mask)
               else v in
      if 2 <=? H32.Floor w then q - Z.rem q (H32.Floor w) else q).
Proof.
  intros Hc Hv. rewrite (H32_switch_order w v Hc). cbv zeta.
  set (q := if H32.Obfuscation w then _ else v).
  assert (Hq : 0 <= q <= Int64.max_int).
  { unfold q. destruct (H32.Obfuscation w); [ | exact Hv].
    pose proof (H32_obfuscated_range v (Z.lxor v (H32.ObfuscationMask w))).
    unfold Int64.max_int. lia. }
  clearbody q.
  destruct (Z.leb_spec 2 (H32.Floor w)) as [Hf | Hf]; [ | reflexivity].
  destruct (quantise_spec q (H32.Floor w)) as (Ed & Em & _); [lia | | ].
  - unfold Int64.in_range, Int64.min_int, Int64.max_int in *. lia.
  - rewrite Ed, Em. reflexivity.
Qed.

Lemma H28_floor_value (w : H28.WUID Fn) (x : Z) :
  0 <= H28.Floor w ->
  0 <= x <= Int64.max_int ->
  H28.Next_floor w x =
  Ok (if H28.Floor w =? 0 then x else x - Z.rem x (H28.Floor w)).
Proof.
  intros Hf Hx. unfold H28.Next_floor.
  destruct (Z.eqb_spec (H28.Floor w) 0) as [F0 | F0]; [reflexivity | ].
  destruct (quantise_spec x (H28.Floor w)) as (Ed & Em & _); [lia | | ].
  - unfold Int64.in_range, Int64.min_int, Int64.max_int in *. lia.
  - rewrite Ed, Em. reflexivity.
Qed.

Lemma H32_next_below (w : H32.WUID Fn) :
  sound32 w ->
  H32.N w mod 2 ^ 32 + H32.Step w < H32.PanicValue ->
  ret (fst (H32.observe w)) = H32.Next_switch w (H32.N w + H32.Step w) /\
  sound32 (snd (H32.observe w)) /\
  H32.N (snd (H32.observe w)) = H32.N w + H32.Step w /\
  H32.Step (snd (H32.observe w)) = H32.Step w /\
  (H32.N w + H32.Step w) mod 2 ^ 32 = H32.N w mod 2 ^ 32 + H32.Step w /\
  (forall v, H32.Next_switch (snd (H32.observe w)) v = H32.Next_switch w v).
Proof.
  intros Hw Hb.
  destruct (H32_Next_sound w Hw) as (Hs1 & _ & _).
  destruct Hw as (Hc & Hn & Hl & Ha).
  pose proof (H32_steps_bounds _ (H32.cfg_step w Hc)) as Hs.
  unfold H32.low_segment in Hl. rewrite H32_low in Hl.
  destruct (H32_add_sound _ _ Hn Hs Hl) as (Eadd & Elow & _ & Hmax).
  rewrite H32_observe_eq. cbn [fst snd ret].
  revert Hs1. rewrite H32_Next_eq. cbv zeta. rewrite Eadd, H32_low, Elow.
  destruct (Z.geb_spec (H32.N w mod 2 ^ 32 + H32.Step w) H32.PanicValue);
    [lia | ].
  cbn [fst snd]. intros Hs1. split_all; try reflexivity; assumption.
Qed.

Lemma H28_next_below (w : H28.WUID Fn) :
  sound28 w ->
  H28.N w mod 2 ^ 36 + H28.Step w < H28.PanicValue ->
  ret (fst (H28.observe w)) = H28.Next_floor w (H28.N w + H28.Step w) /\
  sound28 (snd (H28.observe w)) /\
  H28.N (snd (H28.observe w)) = H28.N w + H28.Step w /\
  H28.Step (snd (H28.observe w)) = H28.Step w /\
  (H28.N w + H28.Step w) mod 2 ^ 36 = H28.N w mod 2 ^ 36 + H28.Step w /\
  (forall v, H28.Next_floor (snd (H28.observe w)) v = H28.Next_floor w v).
Proof.
  intros Hw Hb.
  destruct (H28_Next_sound w Hw) as (Hs1 & _ & _).
  destruct Hw as (Hc & Hn & Hl).
  pose proof (H28_steps_bounds _ (H28.cfg_step w Hc)) as Hs.
  unfold H28.low_segment in Hl. rewrite H28_low in Hl.
  destruct (H28_add_sound _ _ Hn Hs Hl) as (Eadd & Elow & _ & Hmax).
  rewrite H28_observe_eq. cbn [fst snd ret].
  revert Hs1. rewrite H28_Next_eq. cbv zeta. rewrite Eadd, H28_low, Elow.
  destruct (Z.geb_spec (H28.N w mod 2 ^ 36 + H28.Step w) H28.PanicValue);
    [lia | ].
  cbn [fst snd]. intros Hs1. split_all; try reflexivity; assumption.
Qed.

(** The transforms of the words of a run, call by call. *)
Lemma H32_calls_ret (w : H32.WUID Fn) (n : nat) :
  sound32 w ->
  H32.low_segment w + Z.of_nat n * H32.Step w < H32.PanicValue ->
  map ret (fst (calls H32.observe n w)) =
  map (fun k => H32.Next_switch w (H32.N w + Z.of_nat k * H32.Step w))
      (seq 1 n).
Proof.
  intros Hw Hb. unfold H32.low_segment in Hb. rewrite H32_low in Hb.
  apply (calls_ret (H32.WUID Fn) H32.N H32.Step H32.Next_switch H32.observe
                   sound32 (2 ^ 32) H32.PanicValue).
  - intros w' (Hc & _). apply (H32_steps_bounds _ (H32.cfg_step w' Hc)).
  - exact H32_next_below.
  - exact Hw.
  - exact Hb.
Qed.

Lemma H28_calls_ret (w : H28.WUID Fn) (n : nat) :
  sound28 w ->
  H28.low_segment w + Z.of_nat n * H28.Step w < H28.PanicValue ->
  map ret (fst (calls H28.observe n w)) =
  map (fun k => H28.Next_floor w (H28.N w + Z.of_nat k * H28.Step w))
      (seq 1 n).
Proof.
  intros Hw Hb. unfold H28.low_segment in Hb. rewrite H28_low in Hb.
  apply (calls_ret (H28.WUID Fn) H28.N H28.Step H28.Next_floor H28.observe
                   sound28 (2 ^ 36) H28.PanicValue).
  - intros w' (Hc & _). apply (H28_steps_bounds _ (H28.cfg_step w' Hc)).
  - exact H28_next_below.
  - exact Hw.
  - exact Hb.
Qed.

(** Quantising to a floor below the step keeps words a step apart in
    order. *)
Lemma floor_increasing (F s x y : Z) :
  0 <= F < s ->
  0 <= x ->
  x + s <= y ->
  (if F =? 0 then x else x - Z.rem x F) <
  (if F =? 0 then y else y - Z.rem y F).
Proof.
  intros HF Hx Hy.
  destruct (Z.eqb_spec F 0); [lia | ].
  pose proof (Z.rem_bound_pos x F ltac:(lia) ltac:(lia)).
  pose proof (Z.rem_bound_pos y F ltac:(lia) ltac:(lia)).
  lia.
Qed.

End Identifiers.

Section Distinct_identifiers.

Context {Fn : Type}.

Lemma H32_identifiers (w : H32.WUID Fn) (n : nat) :
  sound32 w ->
  H32.low_segment w + Z.of_nat n * H32.Step w < H32.PanicValue ->
  exists rs,
    map ret (fst (calls H32.observe n w)) = map Ok rs /\
    List.length rs = n /\
    NoDup rs /\
    (H32.Obfuscation w = false ->
     forall i j, (i < j < n)%nat -> nth i rs 0 < nth j rs 0).
Proof.
  intros Hw Hb. rewrite (H32_calls_ret w n Hw Hb).
  destruct Hw as (Hc & Hn & Hl & Ha).
  unfold H32.low_segment in Hb. rewrite H32_low in Hb.
  pose proof (H32_steps_bounds _ (H32.cfg_step w Hc)) as Hs.
  set (m := H32.ObfuscationMask w).
  set (F := H32.Floor w) in *.
  set (s := H32.Step w) in *.
  set (obf := fun v => Z.lor (Z.land v H32.H32Mask)
                             (Z.land (Z.lxor v m) H32.L32Mask)).
  set (val := fun v => let q := if H32.Obfuscation w then obf v else v in
                       if 2 <=? F then q - Z.rem q F else q).
  set (g := fun k : nat => val (H32.N w + Z.of_nat k * s)).
  assert (Hoff : forall k : nat,
             (k <= n)%nat ->
             (H32.N w + Z.of_nat k * s) mod 2 ^ 32
             = H32.N w mod 2 ^ 32 + Z.of_nat k * s /\
             0 <= H32.N w + Z.of_nat k * s <= Int64.max_int).
  { intros k Hk.
    destruct (H32_offset (H32.N w) (Z.of_nat k * s)) as (E1 & _ & E2);
      [exact Hn | nia | nia | ].
    split; assumption. }
  exists (map g (seq 1 n)).
  split.
  { rewrite map_map. apply map_ext_in. intros k Hk. apply in_seq in Hk.
    apply H32_switch_value; [exact Hc | apply Hoff; lia]. }
  split; [rewrite length_map, length_seq; reflexivity | ].
  destruct (H32.cfg_floor w Hc) as [F0 | HF]; fold F s in F0 || fold F s in HF.
  - (* no floor *)
    assert (Eval : forall v, val v = if H32.Obfuscation w then obf v else v).
    { intros v. unfold val. cbv zeta.
      destruct (Z.leb_spec 2 F); [lia | reflexivity]. }
    destruct (H32.Obfuscation w) eqn:Eo.
    + split; [ | discriminate].
      apply map_seq_NoDup. intros a b Ha' Hb' E. unfold g in E.
      rewrite !Eval in E. unfold obf in E.
      rewrite !obfuscated_form in E.
      apply (f_equal (fun z => z mod 2 ^ 32)) in E.
      rewrite !split_mod in E by (try apply Z.mod_pos_bound; lia).
      apply lxor_low_inj in E; [ | lia].
      destruct (Hoff a ltac:(lia)) as [Ea _].
      destruct (Hoff b ltac:(lia)) as [Eb _].
      rewrite Ea, Eb in E. nia.
    + assert (Hinc : forall a b, (1 <= a < b)%nat -> (b <= n)%nat ->
                                 g a < g b).
      { intros a b Hab Hbn. unfold g. rewrite !Eval. nia. }
      destruct (map_seq_increasing g n Hinc) as [Hlt Hnd].
      split; [exact Hnd | intros _; exact Hlt].
  - (* with a floor *)
    assert (Eval : forall v, val v = (if H32.Obfuscation w then obf v else v)
                                     - Z.rem (if H32.Obfuscation w
                                              then obf v else v) F).
    { intros v. unfold val. cbv zeta.
      destruct (Z.leb_spec 2 F); [reflexivity | lia]. }
    destruct (H32.Obfuscation w) eqn:Eo.
    + split; [ | discriminate].
      destruct (steps_pow2 _ (H32.cfg_step w Hc)) as (j & Hj & Ej).
      fold s in Ej.
      assert (Hones : Z.land m (2 ^ j - 1) = 2 ^ j - 1).
      { rewrite <- Ej. apply (H32.cfg_ones w Hc Eo). unfold F in HF. lia. }
      assert (Hq : forall k : nat,
                 let q := obf (H32.N w + Z.of_nat k * s) in
                 0 <= q /\ q mod s = s - 1).
      { intros k. cbv zeta. split.
        - apply H32_obfuscated_range.
        - rewrite Ej. apply obfuscated_low_ones; [exact Hj | | exact Hones].
          rewrite <- Ej. rewrite Z.mod_add by lia. apply Ha.
          unfold F in HF. lia. }
      apply map_seq_NoDup. intros a b Ha' Hb' E. unfold g in E.
      rewrite !Eval in E.
      destruct (Hq a) as [Qa Ma]. destruct (Hq b) as [Qb Mb].
      set (qa := obf (H32.N w + Z.of_nat a * s)) in *.
      set (qb := obf (H32.N w + Z.of_nat b * s)) in *.
      assert (Eq : qa = qb).
      { pose proof (floor_keeps_block qa F s Qa HF Ma) as Ba.
        pose proof (floor_keeps_block qb F s Qb HF Mb) as Bb.
        rewrite E in Ba.
        rewrite (Z.div_mod qa s), (Z.div_mod qb s) by lia.
        rewrite Ma, Mb, <- Ba, <- Bb. reflexivity. }
      unfold qa, qb, obf in Eq.
      rewrite !obfuscated_form in Eq.
      apply (f_equal (fun z => z mod 2 ^ 32)) in Eq.
      rewrite !split_mod in Eq by (try apply Z.mod_pos_bound; lia).
      apply lxor_low_inj in Eq; [ | lia].
      destruct (Hoff a ltac:(lia)) as [Ea _].
      destruct (Hoff b ltac:(lia)) as [Eb _].
      rewrite Ea, Eb in Eq. nia.
    + assert (Hinc : forall a b, (1 <= a < b)%nat -> (b <= n)%nat ->
                                 g a < g b).
      { intros a b Hab Hbn. unfold g. rewrite !Eval.
        destruct (Hoff a ltac:(lia)) as [_ Ra].
        destruct (Hoff b ltac:(lia)) as [_ Rb].
        set (x := H32.N w + Z.of_nat a * s) in *.
        set (y := H32.N w + Z.of_nat b * s) in *.
        assert (x + s <= y) by (unfold x, y; nia).
        pose proof (Z.rem_bound_pos x F ltac:(lia) ltac:(lia)).
        pose proof (Z.rem_bound_pos y F ltac:(lia) ltac:(lia)).
        lia. }
      destruct (map_seq_increasing g n Hinc) as [Hlt Hnd].
      split; [exact Hnd | intros _; exact Hlt].
Qed.

Lemma H28_identifiers (w : H28.WUID Fn) (n : nat) :
  sound28 w ->
  H28.low_segment w + Z.of_nat n * H28.Step w < H28.PanicValue ->
  exists rs,
    map ret (fst (calls H28.observe n w)) = map Ok rs /\
    List.length rs = n /\
    NoDup rs /\
    (forall i j, (i < j < n)%nat -> nth i rs 0 < nth j rs 0).
Proof.
  intros Hw Hb. rewrite (H28_calls_ret w n Hw Hb).
  destruct Hw as (Hc & Hn & Hl).
  unfold H28.low_segment in Hb. rewrite H28_low in Hb.
  pose proof (H28_steps_bounds _ (H28.cfg_step w Hc)) as Hs.
  pose proof (H28.cfg_floor w Hc) as HF.
  set (F := H28.Floor w) in *.
  set (s := H28.Step w) in *.
  set (val := fun x => if F =? 0 then x else x - Z.rem x F).
  set (g := fun k : nat => val (H28.N w + Z.of_nat k * s)).
  assert (Hoff : forall k : nat,
             (k <= n)%nat ->
             0 <= H28.N w + Z.of_nat k * s <= Int64.max_int).
  { intros k Hk.
    destruct (H28_offset (H28.N w) (Z.of_nat k * s)) as (_ & _ & E2);
      [exact Hn | nia | nia | exact E2]. }
  exists (map g (seq 1 n)).
  split.
  { rewrite map_map. apply map_ext_in. intros k Hk. apply in_seq in Hk.
    apply H28_floor_value; [apply HF | apply Hoff; lia]. }
  split; [rewrite length_map, length_seq; reflexivity | ].
  assert (Hinc : forall a b, (1 <= a < b)%nat -> (b <= n)%nat -> g a < g b).
  { intros a b Hab Hbn. unfold g, val.
    apply (floor_increasing F s); [exact HF | apply Hoff; lia | nia]. }
  destruct (map_seq_increasing g n Hinc) as [Hlt Hnd].
  split; [exact Hnd | exact Hlt].
Qed.

(** X7.  The identifiers of a run are pairwise different.  On a sound
    generator, the [n] successive calls of [Next] that keep the low
    segment below the panic threshold all return, and no two of them
    return the same identifier, whatever the step, the floor and the
    obfuscation mask are: the floor is below the step, and with
    obfuscation the low bits of the mask that [NewWUID] sets keep words a
    step apart in different blocks after the xor.  Without obfuscation,
    and always in the 28/36 split, the identifiers increase strictly from
    call to call. *)
Theorem X7_identifiers_of_a_run_are_distinct :
  (forall (w : H32.WUID Fn) (n : nat),
      sound32 w ->
      H32.low_segment w + Z.of_nat n * H32.Step w < H32.PanicValue ->
      exists rs,
        map ret (fst (calls H32.observe n w)) = map Ok rs /\
        List.length rs = n /\
        NoDup rs /\
        (H32.Obfuscation w = false ->
         forall i j, (i < j < n)%nat -> nth i rs 0 < nth j rs 0)) /\
  (forall (w : H28.WUID Fn) (n : nat),
      sound28 w ->
      H28.low_segment w + Z.of_nat n * H28.Step w < H28.PanicValue ->
      exists rs,
        map ret (fst (calls H28.observe n w)) = map Ok rs /\
        List.length rs = n /\
        NoDup rs /\
        (forall i j, (i < j < n)%nat -> nth i rs 0 < nth j rs 0)).
Proof.
  split.
  - exact H32_identifiers.
  - exact H28_identifiers.
Qed.

End Distinct_identifiers.

Section Fresh_generators.

Context {Fn : Type}.

(** A generator is sound when [NewWUID] returns it. *)
Lemma H32_NewWUID_sound (name : string) (opts : list H32.Option)
      (w : H32.WUID Fn) :
  Forall H32.built opts ->
  H32.NewWUID name opts = Ok w ->
  sound32 w.
Proof.
  intros Hb Hnew.
  destruct (H32_NewWUID_configured name opts w Hb Hnew) as [Hc H0].
  split; [exact Hc | ]. unfold H32.low_segment. rewrite H0.
  split; [unfold Int64.max_int; lia | ].
  split; [rewrite H32_PanicValue; cbn; lia | ].
  intros _. apply Z.mod_0_l.
  pose proof (H32_steps_bounds _ (H32.cfg_step w Hc)). lia.
Qed.

Lemma H28_NewWUID_sound (name : string) (opts : list H28.Option) :
  Forall H28.built opts ->
  sound28 (@H28.NewWUID Fn name opts).
Proof.
  intros Hb.
  destruct (H28_NewWUID_configured (Fn := Fn) name opts Hb) as [Hc H0].
  split; [exact Hc | ]. unfold H28.low_segment. rewrite H0.
  split; [unfold Int64.max_int; lia | ].
  rewrite H28_PanicValue; cbn; lia.
Qed.

End Fresh_generators.

Lemma quantised_masked32_sound : sound32 quantised_masked32.
Proof.
  apply (H32_NewWUID_sound "g" [H32.WithStep_fn 4 3; H32.WithObfuscation_fn 1]).
  - apply Forall_cons; [right; right; left; exists 4, 3; reflexivity | ].
    apply Forall_cons; [right; right; right; exists 1; reflexivity | ].
    apply Forall_nil.
  - reflexivity.
Qed.

Lemma stepped28_sound : sound28 (@Sample.stepped28 unit).
Proof.
  apply (H28_NewWUID_sound "g" [H28.WithStep_fn 4 3]).
  apply Forall_cons; [right; right; exists 4, 3; reflexivity | ].
  apply Forall_nil.
Qed.

Lemma X7_identifiers_of_a_run_are_distinct_witness :
  (exists rs,
      map ret (fst (calls H32.observe 3 quantised_masked32)) = map Ok rs /\
      NoDup rs) /\
  (exists rs,
      map ret (fst (calls H28.observe 3 (@Sample.stepped28 unit)))
      = map Ok rs /\
      nth 0 rs 0 < nth 1 rs 0).
Proof.
  destruct (@X7_identifiers_of_a_run_are_distinct unit) as [D32 D28].
  split.
  - destruct (D32 quantised_masked32 3%nat) as (rs & E & _ & Hnd & _).
    + exact quantised_masked32_sound.
    + reflexivity.
    + exists rs. split; [exact E | exact Hnd].
  - destruct (D28 Sample.stepped28 3%nat) as (rs & E & _ & _ & Hlt).
    + exact stepped28_sound.
    + reflexivity.
    + exists rs. split; [exact E | apply Hlt; lia].
Defined.

(** ** How many identifiers a generator yields *)

Section Capacity.

Variables (W : Type) (low step : W -> Z) (next : W -> observation * W).
Variables (good : W -> Prop) (P : Z).

Hypothesis next_good :
  forall w,
    good w ->
    good (snd (next w)) /\
    0 < step w /\
    step (snd (next w)) = step w /\
    (is_panic (ret (fst (next w))) = false <-> low w + step w < P) /\
    low (snd (next w)) =
    (if low w + step w <? P then low w + step w else P).

Lemma calls_return_iff (n : nat) :
  forall (w : W) (k : nat) (o : observation),
    good w ->
    nth_error (fst (calls next n w)) k = Some o ->
    (is_panic (ret o) = false <-> low w + Z.of_nat (S k) * step w < P).
Proof.
  induction n as [| n IH]; intros w k o Hg Hk.
  - destruct k; discriminate.
  - destruct (next_good w Hg) as (Hg1 & Hs & Es & Hret & Elow).
    rewrite calls_S in Hk. cbn [fst] in Hk.
    destruct k as [| k].
    + injection Hk as <-. rewrite Hret. lia.
    + cbn [nth_error] in Hk.
      rewrite (IH _ k o Hg1 Hk), Es, Elow.
      destruct (Z.ltb_spec (low w + step w) P); nia.
Qed.

End Capacity.

Section Capacity_statement.

Context {Fn : Type}.

Lemma H32_next_good (w : H32.WUID Fn) :
  sound32 w ->
  sound32 (snd (H32.observe w)) /\
  0 < H32.Step w /\
  H32.Step (snd (H32.observe w)) = H32.Step w /\
  (is_panic (ret (fst (H32.observe w))) = false <->
   H32.low_segment w + H32.Step w < H32.PanicValue) /\
  H32.low_segment (snd (H32.observe w)) =
  (if H32.low_segment w + H32.Step w <? H32.PanicValue
   then H32.low_segment w + H32.Step w else H32.PanicValue).
Proof.
  intros Hw.
  destruct (H32_Next_sound w Hw) as (Hs1 & _ & _).
  destruct Hw as (Hc & Hn & Hl & Ha).
  pose proof (H32_steps_bounds _ (H32.cfg_step w Hc)) as Hs.
  unfold H32.low_segment in *. rewrite H32_low in *.
  destruct (H32_add_sound _ _ Hn Hs Hl) as (Eadd & Elow & _ & Hmax).
  rewrite H32_observe_eq. cbn [fst snd ret].
  revert Hs1. rewrite H32_Next_eq. cbv zeta. rewrite Eadd, H32_low, Elow.
  destruct (H32_Next_switch_returns w (H32.N w + H32.Step w) Hc) as [r Er].
  destruct (Z.geb_spec (H32.N w mod 2 ^ 32 + H32.Step w) H32.PanicValue);
    destruct (Z.ltb_spec (H32.N w mod 2 ^ 32 + H32.Step w) H32.PanicValue);
    try lia; cbn [fst snd H32.set_N H32.N H32.Step]; intros Hs1.
  - split_all; try assumption; try reflexivity; try lia.
    + cbn [is_panic]. split; [discriminate | lia].
    + apply H32_panicValue_low.
  - split_all; try assumption; try reflexivity; try lia.
    + rewrite Er. cbn [is_panic]. split; [lia | reflexivity].
    + rewrite H32_low. exact Elow.
Qed.

Lemma H28_next_good (w : H28.WUID Fn) :
  sound28 w ->
  sound28 (snd (H28.observe w)) /\
  0 < H28.Step w /\
  H28.Step (snd (H28.observe w)) = H28.Step w /\
  (is_panic (ret (fst (H28.observe w))) = false <->
   H28.low_segment w + H28.Step w < H28.PanicValue) /\
  H28.low_segment (snd (H28.observe w)) =
  (if H28.low_segment w + H28.Step w <? H28.PanicValue
   then H28.low_segment w + H28.Step w else H28.PanicValue).
Proof.
  intros Hw.
  destruct (H28_Next_sound w Hw) as (Hs1 & _ & _).
  destruct Hw as (Hc & Hn & Hl).
  pose proof (H28_steps_bounds _ (H28.cfg_step w Hc)) as Hs.
  unfold H28.low_segment in *. rewrite H28_low in *.
  destruct (H28_add_sound _ _ Hn Hs Hl) as (Eadd & Elow & _ & Hmax).
  rewrite H28_observe_eq. cbn [fst snd ret].
  revert Hs1. rewrite H28_Next_eq. cbv zeta. rewrite Eadd, H28_low, Elow.
  destruct (H28_Next_floor_returns w (H28.N w + H28.Step w)) as [r Er].
  destruct (Z.geb_spec (H28.N w mod 2 ^ 36 + H28.Step w) H28.PanicValue);
    destruct (Z.ltb_spec (H28.N w mod 2 ^ 36 + H28.Step w) H28.PanicValue);
    try lia; cbn [fst snd H28.set_N H28.N H28.Step]; intros Hs1.
  - split_all; try assumption; try reflexivity; try lia.
    + cbn [is_panic]. split; [discriminate | lia].
    + apply H28_panicValue_low.
  - split_all; try assumption; try reflexivity; try lia.
    + rewrite Er. cbn [is_panic]. split; [lia | reflexivity].
    + rewrite H28_low. exact Elow.
Qed.

(** X8.  How long a generator lasts.  In a run of successive calls of
    [Next] on a sound generator, call number [k] (counting from 1) returns
    an identifier exactly when [low + k * step] is below the panic
    threshold, [low] being the low segment the run started from; every
    other call panics.  So a generator yields the same number of
    identifiers whatever its transforms are, and once a call has panicked
    all later ones do, until a [Reset]. *)
Theorem X8_a_run_returns_until_the_threshold :
  (forall (w : H32.WUID Fn) (n k : nat) (o : observation),
      sound32 w ->
      nth_error (fst (calls H32.observe n w)) k = Some o ->
      (is_panic (ret o) = false <->
       H32.low_segment w + Z.of_nat (S k) * H32.Step w < H32.PanicValue)) /\
  (forall (w : H28.WUID Fn) (n k : nat) (o : observation),
      sound28 w ->
      nth_error (fst (calls H28.observe n w)) k = Some o ->
      (is_panic (ret o) = false <->
       H28.low_segment w + Z.of_nat (S k) * H28.Step w < H28.PanicValue)).
Proof.
  split.
  - intros w n k o Hw Hk.
    apply (calls_return_iff (H32.WUID Fn) H32.low_segment H32.Step
                            H32.observe sound32 H32.PanicValue
                            H32_next_good n w k o Hw Hk).
  - intros w n k o Hw Hk.
    apply (calls_return_iff (H28.WUID Fn) H28.low_segment H28.Step
                            H28.observe sound28 H28.PanicValue
                            H28_next_good n w k o Hw Hk).
Qed.

End Capacity_statement.

Lemma X8_a_run_returns_until_the_threshold_witness :
  (forall o,
      nth_error (fst (calls H32.observe 3 quantised_masked32)) 2 = Some o ->
      is_panic (ret o) = false) /\
  (forall o,
      nth_error (fst (calls H28.observe 3 (@Sample.stepped28 unit))) 2
      = Some o ->
      is_panic (ret o) = false).
Proof.
  destruct (@X8_a_run_returns_until_the_threshold unit) as [C32 C28].
  split; intros o Ho.
  - apply (C32 quantised_masked32 3%nat 2%nat o quantised_masked32_sound Ho).
    reflexivity.
  - apply (C28 Sample.stepped28 3%nat 2%nat o stepped28_sound Ho).
    reflexivity.
Defined.

(** ** The high segment that identifiers carry *)

Section High_segment_of_identifiers.

Context {Fn : Type}.

Lemma floor_keeps_high (x y r k : Z) :
  0 <= k ->
  x <= r <= y ->
  x / 2 ^ k = y / 2 ^ k ->
  r / 2 ^ k = y / 2 ^ k.
Proof.
  intros Hk Hr E.
  pose proof (pow2_pos k Hk) as Hp.
  pose proof (Z.div_le_mono x r (2 ^ k) Hp ltac:(lia)).
  pose proof (Z.div_le_mono r y (2 ^ k) Hp ltac:(lia)).
  lia.
Qed.

Lemma H32_identifier_high (w : H32.WUID Fn) (n k : nat) :
  sound32 w ->
  H32.low_segment w + Z.of_nat n * H32.Step w < H32.PanicValue ->
  (1 <= k <= n)%nat ->
  exists r,
    H32.Next_switch w (H32.N w + Z.of_nat k * H32.Step w) = Ok r /\
    Z.shiftr r 32 =
    (if H32.Obfuscation w then Z.land (Z.shiftr (H32.N w) 32) 0x1FFFFF
     else Z.shiftr (H32.N w) 32).
Proof.
  intros (Hc & Hn & Hl & Ha) Hb Hk.
  unfold H32.low_segment in Hb. rewrite H32_low in Hb.
  pose proof (H32_steps_bounds _ (H32.cfg_step w Hc)) as Hs.
  set (s := H32.Step w) in *. set (F := H32.Floor w) in *.
  set (v := H32.N w + Z.of_nat k * s).
  destruct (H32_offset (H32.N w) (Z.of_nat k * s)) as (Elow & Ehigh & Hv);
    [exact Hn | nia | nia | ].
  fold v in Elow, Ehigh, Hv.
  rewrite (H32_switch_value w v Hc Hv). cbv zeta. eexists.
  split; [reflexivity | ].
  change 0x1FFFFF with (Z.ones 21).
  rewrite Z.land_ones, !Z.shiftr_div_pow2 by lia.
  fold F. rewrite <- Ehigh.
  destruct (H32.Obfuscation w) eqn:Eo.
  - set (q := Z.lor _ _).
    assert (Eq : q / 2 ^ 32 = (v / 2 ^ 32) mod 2 ^ 21).
    { unfold q. rewrite obfuscated_form.
      apply split_div; [lia | apply Z.mod_pos_bound; lia]. }
    destruct (Z.leb_spec 2 F) as [HF | HF]; [ | exact Eq].
    destruct (steps_pow2 _ (H32.cfg_step w Hc)) as (j & Hj & Ej).
    fold s in Ej.
    assert (Hq : 0 <= q /\ q mod s = s - 1).
    { split; [apply H32_obfuscated_range | ].
      rewrite Ej. apply obfuscated_low_ones; [exact Hj | | ].
      - rewrite <- Ej. unfold v. rewrite Z.mod_add by lia. apply Ha. exact HF.
      - rewrite <- Ej. apply (H32.cfg_ones w Hc Eo). fold F. lia. }
    destruct Hq as [Q0 Qm].
    assert (HFs : 2 <= F < s).
    { destruct (H32.cfg_floor w Hc) as [F0 | HFs];
        [fold F in F0; lia | exact HFs]. }
    pose proof (floor_keeps_block q F s Q0 HFs Qm) as Eblock.
    rewrite <- Eq.
    rewrite (pow2_split 32 j) by lia.
    rewrite (Z.mul_comm (2 ^ (32 - j))), <- Ej.
    rewrite <- !Z.div_div by (try apply pow2_pos; lia).
    rewrite Eblock. reflexivity.
  - destruct (Z.leb_spec 2 F) as [HF | HF]; [ | reflexivity].
    assert (HFs : 2 <= F < s).
    { destruct (H32.cfg_floor w Hc) as [F0 | HFs];
        [fold F in F0; lia | exact HFs]. }
    pose proof (Z.rem_bound_pos v F ltac:(lia) ltac:(lia)).
    apply (floor_keeps_high (H32.N w)); [lia | | ].
    + unfold v in *. nia.
    + symmetry. exact Ehigh.
Qed.

Lemma H28_identifier_high (w : H28.WUID Fn) (n k : nat) :
  sound28 w ->
  H28.low_segment w + Z.of_nat n * H28.Step w < H28.PanicValue ->
  (1 <= k <= n)%nat ->
  exists r,
    H28.Next_floor w (H28.N w + Z.of_nat k * H28.Step w) = Ok r /\
    Z.shiftr r 36 = Z.shiftr (H28.N w) 36.
Proof.
  intros (Hc & Hn & Hl) Hb Hk.
  unfold H28.low_segment in Hb. rewrite H28_low in Hb.
  pose proof (H28_steps_bounds _ (H28.cfg_step w Hc)) as Hs.
  pose proof (H28.cfg_floor w Hc) as HF.
  set (s := H28.Step w) in *. set (F := H28.Floor w) in *.
  set (v := H28.N w + Z.of_nat k * s).
  destruct (H28_offset (H28.N w) (Z.of_nat k * s)) as (Elow & Ehigh & Hv);
    [exact Hn | nia | nia | ].
  fold v in Elow, Ehigh, Hv.
  rewrite (H28_floor_value w v (proj1 HF) Hv). eexists.
  split; [reflexivity | ].
  rewrite !Z.shiftr_div_pow2 by lia. fold F. rewrite <- Ehigh.
  destruct (Z.eqb_spec F 0) as [F0 | F0]; [reflexivity | ].
  pose proof (Z.rem_bound_pos v F ltac:(lia) ltac:(lia)).
  apply (floor_keeps_high (H28.N w)); [lia | | ].
  - unfold v in *. nia.
  - symmetry. exact Ehigh.
Qed.

(** X9.  Every identifier of a run carries the high segment of the
    generator.  On a sound generator, each of the [n] successive calls of
    [Next] that keep the low segment below the panic threshold returns an
    identifier whose bits above the low segment are those of the counter
    word, floor or no floor.  With obfuscation (32/32 split) they are the
    low 21 bits of the word's upper half: what is above them, a section
    tag included, is not in the identifier. *)
Theorem X9_identifiers_carry_the_high_segment :
  (forall (w : H32.WUID Fn) (n : nat),
      sound32 w ->
      H32.low_segment w + Z.of_nat n * H32.Step w < H32.PanicValue ->
      Forall (fun res =>
                exists r, res = Ok r /\
                  Z.shiftr r 32 =
                  (if H32.Obfuscation w
                   then Z.land (Z.shiftr (H32.N w) 32) 0x1FFFFF
                   else Z.shiftr (H32.N w) 32))
             (map ret (fst (calls H32.observe n w)))) /\
  (forall (w : H28.WUID Fn) (n : nat),
      sound28 w ->
      H28.low_segment w + Z.of_nat n * H28.Step w < H28.PanicValue ->
      Forall (fun res =>
                exists r, res = Ok r /\
                  Z.shiftr r 36 = Z.shiftr (H28.N w) 36)
             (map ret (fst (calls H28.observe n w)))).
Proof.
  split; intros w n Hw Hb.
  - rewrite (H32_calls_ret w n Hw Hb).
    apply Forall_map, Forall_forall. intros k Hk. apply in_seq in Hk.
    destruct (H32_identifier_high w n k Hw Hb ltac:(lia)) as (r & Er & Hr).
    exists r. split; assumption.
  - rewrite (H28_calls_ret w n Hw Hb).
    apply Forall_map, Forall_forall. intros k Hk. apply in_seq in Hk.
    destruct (H28_identifier_high w n k Hw Hb ltac:(lia)) as (r & Er & Hr).
    exists r. split; assumption.
Qed.

End High_segment_of_identifiers.

Lemma X9_identifiers_carry_the_high_segment_witness :
  Forall (fun res => exists r, res = Ok r /\ Z.shiftr r 32 = 5)
         (map ret
              (fst (calls H32.observe 3
                          (snd (H32.Reset quantised_masked32
                                          (Z.shiftl 5 32)))))) /\
  Forall (fun res => exists r, res = Ok r /\ Z.shiftr r 36 = 5)
         (map ret
              (fst (calls H28.observe 3
                          (snd (H28.Reset (@Sample.stepped28 unit)
                                          (Z.shiftl 5 36)))))).
Proof.
  destruct (@X9_identifiers_carry_the_high_segment unit) as [Hi32 Hi28].
  split.
  - apply (Hi32 (snd (H32.Reset quantised_masked32 (Z.shiftl 5 32))) 3%nat).
    + apply H32_Reset_sound; [exact quantised_masked32_sound | ].
      vm_compute. split; discriminate.
    + reflexivity.
  - apply (Hi28 (snd (H28.Reset (@Sample.stepped28 unit) (Z.shiftl 5 36)))
               3%nat).
    + apply H28_Reset_sound; [exact stepped28_sound | ].
      split; [vm_compute; split; discriminate
             | intros _; vm_compute; discriminate].
    + reflexivity.
Defined.

(** ** How many renewals a run starts between two resets *)

Section Renewal_budget.

(** Observations that start a renewal, when they are [I] apart and lie
    between [a] and [b]: there are at most [(b - a) / I + 1] of them. *)
Lemma spaced_count (I b : Z) (os : list observation) :
  0 < I ->
  forall a : Z,
    (forall i j oi oj,
        (i < j)%nat ->
        nth_error os i = Some oi -> nth_error os j = Some oj ->
        renew oi = true -> renew oj = true -> raw oi + I <= raw oj) ->
    (forall o, In o os -> renew o = true -> a <= raw o <= b) ->
    Z.of_nat (List.length (filter renew os)) * I <= Z.max 0 (b - a + I).
Proof.
  intros HI. induction os as [| o os IH]; intros a Hsp Hin.
  - cbn. lia.
  - assert (Hsp' : forall i j oi oj,
               (i < j)%nat ->
               nth_error os i = Some oi -> nth_error os j = Some oj ->
               renew oi = true -> renew oj = true -> raw oi + I <= raw oj).
    { intros i j oi oj Hij Hi Hj. apply (Hsp (S i) (S j)); [lia | | ];
        assumption. }
    cbn [filter]. destruct (renew o) eqn:Ro.
    + assert (Hin' : forall o', In o' os -> renew o' = true ->
                                raw o + I <= raw o' <= b).
      { intros o' Ho' Ro'. split; [ | apply Hin; [right | ]; assumption].
        destruct (In_nth_error _ _ Ho') as [j Hj].
        apply (Hsp O (S j) o o'); [lia | reflexivity | exact Hj | | ];
          assumption. }
      pose proof (IH (raw o + I) Hsp' Hin') as Hlen.
      pose proof (Hin o (or_introl eq_refl) Ro) as Ho.
      cbn [List.length]. rewrite Nat2Z.inj_succ. lia.
    + apply IH; [exact Hsp' | ].
      intros o' Ho'. apply Hin. right. exact Ho'.
Qed.

Context {Fn : Type}.

(** The renewals of a run, counted. *)
Lemma H32_renewals_bounded (w : H32.WUID Fn) (n : nat) :
  0 < H32.Step w <= 1024 ->
  (List.length (filter renew (fst (calls H32.observe n w))) <= 20)%nat.
Proof.
  intros Hs.
  assert (P_pos : 0 < H32.PanicValue) by reflexivity.
  assert (P_room : H32.PanicValue + 1024 < 2 ^ 32) by reflexivity.
  assert (I_pos : 0 < 2 ^ 25) by reflexivity.
  pose proof (spaced_count (2 ^ 25) (122 * 2 ^ 25)
                           (fst (calls H32.observe n w)) I_pos
                           (103 * 2 ^ 25)) as Hcount.
  assert (Hlen : Z.of_nat (List.length
                             (filter renew (fst (calls H32.observe n w))))
                 * 2 ^ 25 <= Z.max 0 (122 * 2 ^ 25 - 103 * 2 ^ 25 + 2 ^ 25)).
  { apply Hcount.
    - intros i j oi oj Hij Hi Hj Ri Rj.
      exact (renews_spaced (H32.WUID Fn) H32.low_segment H32.Step
                           H32.observe (2 ^ 32) H32.PanicValue
                           H32.CriticalValue (2 ^ 25) P_pos P_room I_pos
                           (fun w' => H32_low_range (H32.N w'))
                           H32_raw_next H32_low_next H32_step_next
                           H32_renew_next n w i j oi oj Hs Hij Hi Hj Ri Rj).
    - intros o Ho Ro. destruct (In_nth_error _ _ Ho) as [j Hj].
      destruct (renew_in_calls (H32.WUID Fn) H32.observe H32.PanicValue
                               H32.CriticalValue (2 ^ 25) H32_renew_next
                               n w j o Hj Ro) as (Hp & Hc & Hm).
      rewrite H32_PanicValue in Hp. rewrite H32_CriticalValue in Hc.
      change (2 ^ 25) with 33554432 in *.
      Z.div_mod_to_equations. lia. }
  change (2 ^ 25) with 33554432 in Hlen. lia.
Qed.

Lemma H28_renewals_bounded (w : H28.WUID Fn) (n : nat) :
  0 < H28.Step w <= 1024 ->
  (List.length (filter renew (fst (calls H28.observe n w))) <= 20)%nat.
Proof.
  intros Hs.
  assert (P_pos : 0 < H28.PanicValue) by reflexivity.
  assert (P_room : H28.PanicValue + 1024 < 2 ^ 36) by reflexivity.
  assert (I_pos : 0 < 2 ^ 29) by reflexivity.
  pose proof (spaced_count (2 ^ 29) (122 * 2 ^ 29)
                           (fst (calls H28.observe n w)) I_pos
                           (103 * 2 ^ 29)) as Hcount.
  assert (Hlen : Z.of_nat (List.length
                             (filter renew (fst (calls H28.observe n w))))
                 * 2 ^ 29 <= Z.max 0 (122 * 2 ^ 29 - 103 * 2 ^ 29 + 2 ^ 29)).
  { apply Hcount.
    - intros i j oi oj Hij Hi Hj Ri Rj.
      exact (renews_spaced (H28.WUID Fn) H28.low_segment H28.Step
                           H28.observe (2 ^ 36) H28.PanicValue
                           H28.CriticalValue (2 ^ 29) P_pos P_room I_pos
                           (fun w' => H28_low_range (H28.N w'))
                           H28_raw_next H28_low_next H28_step_next
                           H28_renew_next n w i j oi oj Hs Hij Hi Hj Ri Rj).
    - intros o Ho Ro. destruct (In_nth_error _ _ Ho) as [j Hj].
      destruct (renew_in_calls (H28.WUID Fn) H28.observe H28.PanicValue
                               H28.CriticalValue (2 ^ 29) H28_renew_next
                               n w j o Hj Ro) as (Hp & Hc & Hm).
      rewrite H28_PanicValue in Hp. rewrite H28_CriticalValue in Hc.
      change (2 ^ 29) with 536870912 in *.
      Z.div_mod_to_equations. lia. }
  change (2 ^ 29) with 536870912 in Hlen. lia.
Qed.

(** X10.  Between two resets of the counter word a run starts at most
    twenty renewals.  Let calls of [Next] follow one another with nothing
    else writing the counter word: no [Reset] in between, so that none of
    the renewals these calls start has installed a new high segment yet.
    However many the calls, whatever the word the first one finds, and
    whatever step [WithStep] admits, at most twenty of them start a
    renewal goroutine: the renewal boundaries between the critical and the
    panic threshold number twenty in either split, and within such a run
    no boundary is used twice.  A renewal that succeeds sets the low
    segment back to 0, and the count starts again. *)
Theorem X10_a_run_starts_at_most_twenty_renewals :
  (forall (w : H32.WUID Fn) (n : nat),
      0 < H32.Step w <= 1024 ->
      (List.length (filter renew (fst (calls H32.observe n w))) <= 20)%nat) /\
  (forall (w : H28.WUID Fn) (n : nat),
      0 < H28.Step w <= 1024 ->
      (List.length (filter renew (fst (calls H28.observe n w))) <= 20)%nat).
Proof.
  split; intros w n Hs.
  - apply H32_renewals_bounded, Hs.
  - apply H28_renewals_bounded, Hs.
Qed.

End Renewal_budget.

Lemma X10_a_run_starts_at_most_twenty_renewals_witness :
  (List.length (filter renew
                       (fst (calls H32.observe 3 (@Sample.critical32 unit))))
   <= 20)%nat /\
  (List.length (filter renew
                       (fst (calls H28.observe 3 (@Sample.critical28 unit))))
   <= 20)%nat.
Proof.
  destruct (@X10_a_run_starts_at_most_twenty_renewals unit) as [B32 B28].
  split.
  - apply (B32 Sample.critical32 3%nat). vm_compute. split; [reflexivity | ].
    discriminate.
  - apply (B28 Sample.critical28 3%nat). vm_compute. split; [reflexivity | ].
    discriminate.
Defined.

(** ** Loading from Redis: what a failed load leaves behind *)

Section Failed_load.

Lemma H32_Reset_panic_same {Fn : Type} (w : H32.WUID Fn) (n : Z) (m : string) :
  fst (H32.Reset w n) = Panic m -> snd (H32.Reset w n) = w.
Proof.
  unfold H32.Reset.
  destruct (n <? 0); [reflexivity | ].
  destruct (Z.land n H32.L32Mask >=? H32.PanicValue); [reflexivity | ].
  destruct (H32.Floor w >? 1); [ | discriminate].
  destruct (Z.land _ _ =? 0); discriminate.
Qed.

(** A candidate that passed the verifier is loaded without a panic. *)
Lemma H32_Reset_verified {Fn : Type} (w : H32.WUID Fn) (h : Z) :
  H32.Verifyh32 w h = None ->
  fst (H32.Reset w (Int64.shl h 32)) = Ok tt.
Proof.
  intros Hv. destruct (H32_Verify_None w h Hv) as [Hrange _].
  destruct (H32_limit_bound w h Hrange) as [Hb _].
  unfold H32.Reset. rewrite H32_shl_candidate by lia.
  destruct (Z.ltb_spec (h * 2 ^ 32) 0); [lia | ].
  rewrite H32_low, Z_mod_mult.
  destruct (Z.geb_spec 0 H32.PanicValue) as [Hp | _];
    [rewrite H32_PanicValue in Hp; lia | ].
  destruct (H32.Floor w >? 1); [ | reflexivity].
  destruct (Z.land _ _ =? 0); reflexivity.
Qed.

Variables (key : string) (w : Redis.WUID) (s : Redis.Server).

Hypothesis key_given : String.length key <> O.

Lemma Load_unfold (newClient : Redis.NewClient) :
  Redis.Loadh32FromRedis newClient key w s =
  match newClient with
  | None => (Panic nil_call, w, s)
  | Some (client, autoClose, Some err) => (Ok (Some err), w, s)
  | Some (client, autoClose, None) =>
      let finish (s : Redis.Server) :=
        if autoClose then Redis.Close s else s in
      match Redis.Incr client key s with
      | (inr err, s1) => (Ok (Some err), w, finish s1)
      | (inl h32, s1) =>
          match H32.Verifyh32 w h32 with
          | Some err => (Ok (Some err), w, finish s1)
          | None =>
              match H32.Reset w (Int64.shl h32 32) with
              | (Panic m, w1) => (Panic m, w1, finish s1)
              | (Ok _, w1) =>
                  match H32.Renew w1 with
                  | Some _ => (Ok None, w1, finish s1)
                  | None =>
                      (Ok None,
                       H32.set_Renew
                         w1 (Some (Redis.mkRenewFn newClient key)),
                       finish s1)
                  end
              end
          end
      end
  end.
Proof.
  unfold Redis.Loadh32FromRedis.
  destruct (Z.eqb_spec (Z.of_nat (String.length key)) 0); [lia | reflexivity].
Qed.

(** Where a load with a client ends, the client has done its [Incr] and
    is closed if [autoClose] says so. *)
Lemma Load_server (client : Redis.UniversalClient) (autoClose : bool) :
  snd (Redis.Loadh32FromRedis (Some (client, autoClose, None)) key w s) =
  (if autoClose then Redis.Close (snd (Redis.Incr client key s))
   else snd (Redis.Incr client key s)).
Proof.
  rewrite Load_unfold. cbv zeta.
  destruct (Redis.Incr client key s) as [[h | err] s1]; [ | reflexivity].
  destruct (H32.Verifyh32 w h); [reflexivity | ].
  destruct (H32.Reset w (Int64.shl h 32)) as [[[] | m] w1]; [ | reflexivity].
  destruct (H32.Renew w1); reflexivity.
Qed.

Lemma Load_result_live (autoClose : bool) :
  let h := Int64.add (Redis.value s key) 1 in
  fst (fst (Redis.Loadh32FromRedis (Some (Redis.Live, autoClose, None))
                                   key w s)) =
  match H32.Verifyh32 w h with
  | Some err => Ok (Some err)
  | None => Ok None
  end.
Proof.
  intros h. rewrite Load_unfold. cbv zeta. cbn [Redis.Incr]. fold h.
  destruct (H32.Verifyh32 w h) eqn:Hv; [reflexivity | ].
  pose proof (H32_Reset_verified w h Hv) as Hr.
  destruct (H32.Reset w (Int64.shl h 32)) as [[[] | m] w1];
    [ | discriminate].
  destruct (H32.Renew w1); reflexivity.
Qed.

End Failed_load.

Lemma Load_failed_same (newClient : Redis.NewClient) (key : string)
      (w : Redis.WUID) (s : Redis.Server) :
  fst (fst (Redis.Loadh32FromRedis newClient key w s)) <> Ok None ->
  snd (fst (Redis.Loadh32FromRedis newClient key w s)) = w.
Proof.
  unfold Redis.Loadh32FromRedis.
  destruct (Z.of_nat (String.length key) =? 0); [reflexivity | ].
  destruct newClient as [[[client ac] [err | ]] | ]; try reflexivity.
  destruct (Redis.Incr client key s) as [[h | err] s1]; [ | reflexivity].
  destruct (H32.Verifyh32 w h); [reflexivity | ].
  pose proof (H32_Reset_panic_same w (Int64.shl h 32)) as Hsame.
  destruct (H32.Reset w (Int64.shl h 32)) as [[[] | m] w1];
    cbn [fst snd] in *.
  - destruct (H32.Renew w1); intros Hne; contradiction Hne; reflexivity.
  - intros _. apply (Hsame m eq_refl).
Qed.

(** X11.  [Loadh32FromRedis] either succeeds or leaves the generator as
    it was.  An empty key and an error from [newClient] are reported
    before Redis is touched, and in the second case the client is not
    closed even when [autoClose] is set.  Once a client has been obtained
    it is closed exactly when [autoClose] is set, however the load ends,
    and a live client has incremented the key by then: a candidate that
    the verifier rejects is used up all the same, and the load succeeds
    exactly when the verifier accepts the incremented value.  A client
    whose [Incr] fails changes no key. *)
Theorem X11_a_failed_load_leaves_the_generator :
  forall (newClient : Redis.NewClient) (key : string) (w : Redis.WUID)
         (s : Redis.Server),
    let r := fst (fst (Redis.Loadh32FromRedis newClient key w s)) in
    let w' := snd (fst (Redis.Loadh32FromRedis newClient key w s)) in
    let s' := snd (Redis.Loadh32FromRedis newClient key w s) in
    (r <> Ok None -> w' = w) /\
    (String.length key = O ->
     r = Ok (Some "key cannot be empty") /\ s' = s) /\
    (forall client autoClose err,
        String.length key <> O ->
        newClient = Some (client, autoClose, Some err) ->
        r = Ok (Some err) /\ s' = s) /\
    (forall client autoClose,
        String.length key <> O ->
        newClient = Some (client, autoClose, None) ->
        Redis.closed s' = Redis.closed s + (if autoClose then 1 else 0) /\
        (client = Redis.Live ->
         Redis.value s' key = Int64.add (Redis.value s key) 1 /\
         (forall k, k <> key -> Redis.value s' k = Redis.value s k) /\
         (r = Ok None <->
          H32.Verifyh32 w (Int64.add (Redis.value s key) 1) = None)) /\
        (forall err, client = Redis.Faulty err ->
                     r = Ok (Some err) /\ Redis.value s' = Redis.value s)).
Proof.
  intros newClient key w s. cbv zeta.
  split; [apply Load_failed_same | ].
  split.
  { intros K0. unfold Redis.Loadh32FromRedis. rewrite K0.
    split; reflexivity. }
  split.
  { intros client ac err Hkey ->. rewrite Load_unfold by exact Hkey.
    split; reflexivity. }
  intros client ac Hkey ->.
  rewrite Load_server by exact Hkey.
  split.
  { destruct client, ac; cbn; lia. }
  split.
  - intros ->. rewrite (Load_result_live key w s Hkey ac). cbv zeta.
    split; [destruct ac; cbn; rewrite String.eqb_refl; reflexivity | ].
    split.
    + intros k Hk. destruct ac; cbn;
        (destruct (String.eqb_spec k key); [contradiction | reflexivity]).
    + destruct (H32.Verifyh32 w _); split; congruence.
  - intros err ->. rewrite Load_unfold by exact Hkey. cbv zeta.
    cbn [Redis.Incr fst snd]. split; [reflexivity | ].
    destruct ac; reflexivity.
Qed.

Lemma X11_a_failed_load_leaves_the_generator_witness :
  let load := Redis.Loadh32FromRedis (Some (Redis.Live, true, None)) "wuid"
                                     Sample.bound32
                                     (Redis.mkServer (fun _ => -1) 0) in
  snd (fst load) = Sample.bound32 /\
  Redis.closed (snd load) = 1 /\ Redis.value (snd load) "wuid" = 0.
Proof.
  cbv zeta.
  destruct (X11_a_failed_load_leaves_the_generator
              (Some (Redis.Live, true, None)) "wuid" Sample.bound32
              (Redis.mkServer (fun _ => -1) 0))
    as (Hsame & _ & _ & Hclient).
  destruct (Hclient Redis.Live true ltac:(discriminate) eq_refl)
    as (Hclosed & Hlive & _).
  destruct (Hlive eq_refl) as (Hval & _).
  split; [apply Hsame; vm_compute; discriminate | ].
  split; [exact Hclosed | exact Hval].
Defined.

(** ** Renewing from a live Redis *)

Section Renewing.

Variables (key : string) (autoClose : bool).



End Renewing.

(** ** A generator that Redis keeps alive *)

Lemma bound32_sound : sound32 Sample.bound32.
Proof.
  split.
  - constructor; cbn.
    + left. reflexivity.
    + left. reflexivity.
    + reflexivity.
    + lia.
    + discriminate.
    + reflexivity.
  - cbn. unfold Int64.max_int. split_all; lia.
Qed.

Lemma bound32_served :
  served "wuid" true Sample.bound32 (Redis.mkServer (fun _ => 0) 0).
Proof.
  split; [exact bound32_sound | ].
  split_all; try reflexivity. discriminate.
Qed.


Section Kept_alive.

Variables (key : string) (autoClose : bool).





Lemma serve_S (n : nat) (w : Redis.WUID) (s : Redis.Server) :
  let next := Redis.Next w in
  let after := if snd (fst next)
               then H32.renewImpl Redis.call (snd next) s
               else (snd next, s) in
  let rest := serve n (fst after) (snd after) in
  serve (S n) w s = (fst (fst next) :: fst (fst rest), snd (fst rest), snd rest).
Proof.
  cbv zeta. cbn [serve].
  destruct (Redis.Next w) as [[r go] w1]. cbn [fst snd].
  destruct (if go then _ else _) as [w2 s2]. cbn [fst snd].
  destruct (serve n w2 s2) as [[rs w3] s3]. reflexivity.
Qed.




End Kept_alive.


(** ** Rounds of calls and renewals *)

Section Rounds.

Variables (key : string) (autoClose : bool).






End Rounds.


(** ** [Reset] without a guard, 28/36 split *)

Section Unguarded_Reset.

Context {Fn : Type}.

(** X14.  The [Reset] of the 28/36 split takes any non-negative word; it
    has no check of the low segment as the 32/32 split has.  On a
    monolithic generator it installs the word as it is.  If the low
    segment of that word is so close to its end that the next step leaves
    it, the next call of [Next] does not panic: it returns an identifier
    above the word installed and leaves the counter word in the
    following high segment, one that was never loaded.  If the step
    stays inside the low segment at or past the panic threshold, the next
    call panics. *)
Theorem X14_unguarded_Reset_lets_Next_leave_the_segment :
  forall (w : H28.WUID Fn) (n : Z),
    H28.configured w ->
    H28.Monolithic w = true ->
    0 <= n ->
    n + H28.Step w <= Int64.max_int ->
    let w1 := H28.set_N w n in
    let low := Z.land n H28.L36Mask in
    H28.Reset w n = (Ok tt, w1) /\
    (H28.PanicValue <= low + H28.Step w < 2 ^ 36 ->
     is_panic (fst (fst (H28.Next w1))) = true) /\
    (2 ^ 36 <= low + H28.Step w ->
     exists r,
       H28.Next w1 = (Ok r, false, H28.set_N w (n + H28.Step w)) /\
       n < r <= n + H28.Step w /\
       Z.shiftr (n + H28.Step w) 36 = Z.shiftr n 36 + 1 /\
       (H28.Floor w = 0 -> r = n + H28.Step w)).
Proof.
  intros w n Hc Hm Hn Hmax w1 low.
  pose proof (H28_steps_bounds _ (H28.cfg_step w Hc)) as Hs.
  pose proof (H28.cfg_floor w Hc) as HF.
  assert (Eadd : Int64.add n (H28.Step w) = n + H28.Step w).
  { apply wrap_small.
    unfold Int64.in_range, Int64.min_int, Int64.max_int in *. lia. }
  unfold low. rewrite H28_low.
  split.
  { unfold H28.Reset, H28.StoreInt64.
    destruct (Z.ltb_spec n 0); [lia | ]. rewrite Hm. reflexivity. }
  rewrite H28_Next_eq. cbv zeta.
  unfold w1. cbn [H28.set_N H28.N H28.Step H28.Name H28.Floor].
  rewrite Eadd, H28_low.
  split.
  - intros Hlow.
    assert (E : (n + H28.Step w) mod 2 ^ 36 = n mod 2 ^ 36 + H28.Step w).
    { change (2 ^ 36) with 68719476736 in *.
      Z.div_mod_to_equations. lia. }
    rewrite E.
    destruct (Z.geb_spec (n mod 2 ^ 36 + H28.Step w) H28.PanicValue);
      [reflexivity | lia].
  - intros Hlow.
    assert (E : (n + H28.Step w) mod 2 ^ 36
                = n mod 2 ^ 36 + H28.Step w - 2 ^ 36 /\
                (n + H28.Step w) / 2 ^ 36 = n / 2 ^ 36 + 1).
    { change (2 ^ 36) with 68719476736 in *.
      Z.div_mod_to_equations. lia. }
    destruct E as [Elow Ehigh]. rewrite Elow.
    pose proof (Z.mod_pos_bound n (2 ^ 36) ltac:(lia)) as Hb.
    assert (Hsmall : 0 <= n mod 2 ^ 36 + H28.Step w - 2 ^ 36 < 1024) by lia.
    destruct (Z.geb_spec (n mod 2 ^ 36 + H28.Step w - 2 ^ 36)
                         H28.PanicValue) as [Hp | _];
      [rewrite H28_PanicValue in Hp; lia | ].
    destruct (Z.geb_spec (n mod 2 ^ 36 + H28.Step w - 2 ^ 36)
                         H28.CriticalValue) as [Hp | _];
      [rewrite H28_CriticalValue in Hp; lia | ].
    cbn [andb].
    set (x := n + H28.Step w) in *.
    assert (Hx : 0 <= x <= Int64.max_int) by (unfold x; lia).
    replace (H28.Next_floor (H28.set_N w n) x) with (H28.Next_floor w x)
      by reflexivity.
    rewrite (H28_floor_value w x (proj1 HF) Hx).
    eexists. split; [reflexivity | ].
    rewrite !Z.shiftr_div_pow2 by lia.
    destruct (Z.eqb_spec (H28.Floor w) 0) as [F0 | F0].
    + unfold x in *. split_all; lia.
    + pose proof (Z.rem_bound_pos x (H28.Floor w) ltac:(lia) ltac:(lia)).
      unfold x in *. split_all; lia.
Qed.

End Unguarded_Reset.

Lemma X14_unguarded_Reset_lets_Next_leave_the_segment_witness :
  let n := Z.shiftl 5 36 + (2 ^ 36 - 1) in
  H28.Reset (@Sample.fresh28 unit) n = (Ok tt, H28.set_N Sample.fresh28 n) /\
  exists r,
    H28.Next (H28.set_N (@Sample.fresh28 unit) n)
    = (Ok r, false, H28.set_N Sample.fresh28 (n + 1)) /\
    r = Z.shiftl 6 36.
Proof.
  cbv zeta.
  destruct (X14_unguarded_Reset_lets_Next_leave_the_segment
              (@Sample.fresh28 unit) (Z.shiftl 5 36 + (2 ^ 36 - 1)))
    as (Hreset & _ & Hleave).
  - apply Sample_configured.
  - reflexivity.
  - vm_compute. discriminate.
  - vm_compute. discriminate.
  - split; [exact Hreset | ].
    destruct Hleave as (r & En & _ & _ & Hr); [vm_compute; discriminate | ].
    exists r. split; [exact En | apply Hr; reflexivity].
Defined.

(** ** Obfuscation can be undone *)

Section Deobfuscation.

Lemma H32Mask_bit (i : Z) :
  0 <= i -> Z.testbit H32.H32Mask i = (32 <=? i) && (i <? 53).
Proof.
  intros Hi. rewrite H32_H32Mask, Z.shiftl_spec, Z.testbit_ones by lia.
  destruct (Z.leb_spec 0 (i - 32)), (Z.leb_spec 32 i),
    (Z.ltb_spec (i - 32) 21), (Z.ltb_spec i 53); cbn; try reflexivity; lia.
Qed.

Lemma L32Mask_bit (i : Z) :
  0 <= i -> Z.testbit H32.L32Mask i = (i <? 32).
Proof.
  intros Hi. rewrite H32_L32Mask, Z.testbit_ones by lia.
  destruct (Z.leb_spec 0 i); [reflexivity | lia].
Qed.

Lemma high_bits_clear (v i : Z) :
  0 <= v < 2 ^ 53 -> 53 <= i -> Z.testbit v i = false.
Proof.
  intros Hv Hi.
  destruct (Z.eq_dec v 0) as [-> | Hne]; [apply Z.bits_0 | ].
  apply Z.bits_above_log2; [lia | ].
  assert (Z.log2 v < 53) by (apply Z.log2_lt_pow2; lia). lia.
Qed.

(** Case 1 of the switch, applied twice, gives the word back. *)
Lemma obfuscate_twice (v m : Z) :
  0 <= v < 2 ^ 53 ->
  let r := Z.lor (Z.land v H32.H32Mask) (Z.land (Z.lxor v m) H32.L32Mask) in
  Z.lor (Z.land r H32.H32Mask) (Z.land (Z.lxor r m) H32.L32Mask) = v.
Proof.
  intros Hv r. unfold r. apply Z.bits_inj'. intros i Hi.
  rewrite !Z.lor_spec, !Z.land_spec, !Z.lxor_spec, !Z.lor_spec,
    !Z.land_spec, !Z.lxor_spec, !H32Mask_bit, !L32Mask_bit by exact Hi.
  destruct (Z.leb_spec 32 i), (Z.ltb_spec i 53), (Z.ltb_spec i 32);
    try lia; cbn [andb orb];
    rewrite ?andb_false_r, ?andb_true_r, ?orb_false_r, ?orb_false_l.
  - reflexivity.
  - symmetry. apply high_bits_clear; [exact Hv | lia].
  - destruct (Z.testbit v i), (Z.testbit m i); reflexivity.
Qed.

Context {Fn : Type}.

(** X15.  Obfuscation can be undone with the mask.  On a generator with
    obfuscation and without a floor, the transform that closes [Next]
    maps a word below [2 ^ 53] to an identifier below [2 ^ 53] with the
    same bits from 32 up, and applying the transform to the identifier
    gives the word back; so two different words never get the same
    identifier. *)
Theorem X15_obfuscation_is_its_own_inverse :
  forall (w : H32.WUID Fn) (v r : Z),
    H32.Flags w = 1 ->
    0 <= v < 2 ^ 53 ->
    H32.Next_switch w v = Ok r ->
    H32.Next_switch w r = Ok v /\
    0 <= r < 2 ^ 53 /\
    Z.shiftr r 32 = Z.shiftr v 32 /\
    (forall v' : Z,
        0 <= v' < 2 ^ 53 -> H32.Next_switch w v' = Ok r -> v' = v).
Proof.
  intros w v r Hf Hv. unfold H32.Next_switch. rewrite Hf. cbv zeta.
  intros E. injection E as <-.
  set (m := H32.ObfuscationMask w).
  pose proof (obfuscate_twice v m Hv) as Htwice. cbv zeta in Htwice.
  split; [rewrite Htwice; reflexivity | ].
  split; [apply H32_obfuscated_range | ].
  split; [apply (H32_obfuscation_keeps_53_bits v m Hv) | ].
  intros v' Hv' E. injection E as E.
  pose proof (obfuscate_twice v' m Hv') as Htwice'. cbv zeta in Htwice'.
  rewrite E, Htwice in Htwice'. symmetry. exact Htwice'.
Qed.

End Deobfuscation.

Lemma X15_obfuscation_is_its_own_inverse_witness :
  exists r,
    H32.Next_switch (@Sample.masked32 unit) (Z.shiftl 5 32 + 7) = Ok r /\
    H32.Next_switch (@Sample.masked32 unit) r = Ok (Z.shiftl 5 32 + 7).
Proof.
  eexists. split; [reflexivity | ].
  apply (X15_obfuscation_is_its_own_inverse
           (@Sample.masked32 unit) (Z.shiftl 5 32 + 7)).
  - reflexivity.
  - vm_compute. split; [discriminate | reflexivity].
  - reflexivity.
Defined.

(** ** Identifiers of concurrent calls *)

Section Concurrent_identifiers.

Lemma drop_nth_Permutation {A : Type} (l : list A) :
  forall (k : nat) (v : A),
    nth_error l k = Some v -> Permutation (v :: drop_nth k l) l.
Proof.
  induction l as [| a l IH]; intros k v Hk.
  - destruct k; discriminate.
  - destruct k as [| k]; cbn in *.
    + injection Hk as ->. apply Permutation_refl.
    + apply perm_trans with (a :: v :: drop_nth k l); [apply perm_swap | ].
      apply perm_skip, IH, Hk.
Qed.

Variables (W : Type) (word step : W -> Z).
Variables (add : W -> Z * W) (rest : Z -> W -> result Z * bool * W).
Variables (F : Z -> result Z) (inv : W -> Prop) (ok : Z -> Prop).

Hypothesis add_spec :
  forall w,
    inv w ->
    ok (word w + step w) ->
    fst (add w) = word w + step w /\
    word (snd (add w)) = word w + step w /\
    step (snd (add w)) = step w /\
    inv (snd (add w)).

Hypothesis rest_spec :
  forall v w,
    inv w -> ok v -> fst (fst (rest v w)) = F v /\ snd (rest v w) = w.

(** What holds of a pool after [m] fetches: the values handed out are
    [n0 + s, ..., n0 + m * s]; each is held by one call, under way or
    finished; what a finished call returned is the transform of the value
    it held. *)
Let consistent (n0 s : Z) (m : nat) (p : pool W) : Prop :=
  inv (shared p) /\
  step (shared p) = s /\
  word (shared p) = n0 + Z.of_nat m * s /\
  fetched p = map (fun k => n0 + Z.of_nat k * s) (seq 1 m) /\
  Permutation (map fetched_by (finished p) ++ under_way p) (fetched p) /\
  map returned_to (finished p) = map F (map fetched_by (finished p)).

Lemma schedule_consistent (n0 s : Z) (acts : list action) :
  forall (p : pool W) (m : nat),
    consistent n0 s m p ->
    (forall k, (1 <= k <= m + fetches acts)%nat ->
               ok (n0 + Z.of_nat k * s)) ->
    consistent n0 s (m + fetches acts)
               (fold_left (schedule_step add rest) acts p).
Proof.
  induction acts as [| a acts IH]; intros p m Hp Hok.
  - cbn [fetches fold_left]. rewrite Nat.add_0_r. exact Hp.
  - destruct Hp as (Hinv & Hs & Hw & Hf & Hperm & Hret).
    cbn [fold_left]. destruct a as [| k].
    + (* a call starts *)
      cbn [fetches] in *.
      replace (m + S (fetches acts))%nat with (S m + fetches acts)%nat
        in * by lia.
      assert (Hnext : ok (word (shared p) + step (shared p))).
      { rewrite Hw, Hs.
        replace (n0 + Z.of_nat m * s + s) with (n0 + Z.of_nat (S m) * s)
          by lia.
        apply Hok. lia. }
      destruct (add_spec (shared p) Hinv Hnext) as (Ev & Ew & Es & Hinv').
      apply IH; [ | exact Hok].
      unfold schedule_step.
      destruct (add (shared p)) as [v w'] eqn:Eadd. cbn [fst snd] in *.
      assert (Ev' : v = n0 + Z.of_nat (S m) * s) by (rewrite Ev, Hw, Hs; lia).
      unfold consistent. cbn [shared fetched under_way finished].
      split; [exact Hinv' | ].
      split; [rewrite Es; exact Hs | ].
      split; [rewrite Ew, Hw, Hs; lia | ].
      split; [rewrite seq_S, map_app, Hf, Ev'; reflexivity | ].
      split; [ | exact Hret].
      rewrite app_assoc. apply Permutation_app_tail. exact Hperm.
    + (* a call finishes *)
      cbn [fetches] in *.
      apply IH; [ | exact Hok].
      unfold schedule_step.
      destruct (nth_error (under_way p) k) as [v | ] eqn:Ek;
        [ | unfold consistent; split_all; assumption].
      assert (Hv : ok v).
      { assert (Hin : In v (fetched p)).
        { apply (Permutation_in v Hperm). apply in_or_app. right.
          apply nth_error_In with k. exact Ek. }
        rewrite Hf in Hin. apply in_map_iff in Hin.
        destruct Hin as (j & <- & Hj). apply in_seq in Hj.
        apply Hok. lia. }
      destruct (rest_spec v (shared p) Hinv Hv) as (Er & Ew).
      destruct (rest v (shared p)) as [[r go] w'] eqn:Erest.
      cbn [fst snd] in Er, Ew. subst w'.
      unfold consistent. cbn [shared fetched under_way finished].
      split_all; try assumption.
      * rewrite map_app. cbn [map fetched_by fst].
        rewrite <- app_assoc. cbn [app].
        apply perm_trans
          with (map fetched_by (finished p) ++ under_way p)%list;
          [ | exact Hperm].
        apply Permutation_app_head, drop_nth_Permutation, Ek.
      * rewrite !map_app, Hret. cbn [map returned_to fetched_by fst snd].
        rewrite Er. reflexivity.
Qed.

(** When the transform tells the values of the progression apart, the
    calls that have finished were all handed different results. *)
Lemma schedule_returns_distinct (n0 s : Z) (acts : list action) (w : W) :
  inv w ->
  step w = s ->
  word w = n0 ->
  (forall k, (1 <= k <= fetches acts)%nat -> ok (n0 + Z.of_nat k * s)) ->
  NoDup (map (fun k => F (n0 + Z.of_nat k * s)) (seq 1 (fetches acts))) ->
  let p := schedule add rest acts w in
  NoDup (map returned_to (finished p)) /\
  Forall (fun x => In (fetched_by x) (fetched p) /\
                   returned_to x = F (fetched_by x)) (finished p) /\
  fetched p = map (fun k => n0 + Z.of_nat k * s) (seq 1 (fetches acts)).
Proof.
  intros Hinv Hs Hw Hok Hnd p.
  assert (H0 : consistent n0 s 0 (mkPool w [] [] [])).
  { unfold consistent. cbn [shared fetched under_way finished map seq app].
    split_all; try assumption; try reflexivity; try lia;
      try apply perm_nil. }
  pose proof (schedule_consistent n0 s acts _ 0%nat H0 Hok) as Hp.
  cbn [Nat.add] in Hp. fold (schedule add rest acts w) in Hp. fold p in Hp.
  destruct Hp as (_ & _ & _ & Hf & Hperm & Hret).
  split; [ | split; [ | exact Hf]].
  - rewrite Hret.
    assert (Hall : NoDup (map F (fetched p)))
      by (rewrite Hf, map_map; exact Hnd).
    apply (Permutation_NoDup
             (Permutation_sym (Permutation_map F Hperm))) in Hall.
    rewrite map_app in Hall. apply NoDup_app_remove_r in Hall. exact Hall.
  - apply Forall_forall. intros x Hx. split.
    + apply (Permutation_in _ Hperm). apply in_or_app. left.
      apply in_map. exact Hx.
    + clear - Hret Hx. induction (finished p) as [| y l IH];
        [contradiction | ].
      cbn [map] in Hret. injection Hret as Ey El.
      destruct Hx as [<- | Hx]; [exact Ey | apply IH; assumption].
Qed.

End Concurrent_identifiers.

Section Concurrent_statement.

Context {Fn : Type}.

Lemma H32_transforms_distinct (w : H32.WUID Fn) (n : nat) :
  sound32 w ->
  H32.low_segment w + Z.of_nat n * H32.Step w < H32.PanicValue ->
  NoDup (map (fun k => H32.Next_switch w (H32.N w + Z.of_nat k * H32.Step w))
             (seq 1 n)).
Proof.
  intros Hw Hb.
  destruct (H32_identifiers w n Hw Hb) as (rs & E & _ & Hnd & _).
  rewrite <- (H32_calls_ret w n Hw Hb), E.
  apply NoDup_map_NoDup_ForallPairs; [ | exact Hnd].
  intros a b _ _ Hab. injection Hab as ->. reflexivity.
Qed.

Lemma H28_transforms_distinct (w : H28.WUID Fn) (n : nat) :
  sound28 w ->
  H28.low_segment w + Z.of_nat n * H28.Step w < H28.PanicValue ->
  NoDup (map (fun k => H28.Next_floor w (H28.N w + Z.of_nat k * H28.Step w))
             (seq 1 n)).
Proof.
  intros Hw Hb.
  destruct (H28_identifiers w n Hw Hb) as (rs & E & _ & Hnd & _).
  rewrite <- (H28_calls_ret w n Hw Hb), E.
  apply NoDup_map_NoDup_ForallPairs; [ | exact Hnd].
  intros a b _ _ Hab. injection Hab as ->. reflexivity.
Qed.

Lemma H32_schedule_distinct (w : H32.WUID Fn) (acts : list action) :
  sound32 w ->
  H32.low_segment w + Z.of_nat (fetches acts) * H32.Step w
  < H32.PanicValue ->
  let p := schedule H32.Next_add H32.Next_rest acts w in
  NoDup (map returned_to (finished p)) /\
  Forall (fun x => is_panic (returned_to x) = false /\
                   returned_to x = H32.Next_switch w (fetched_by x))
         (finished p).
Proof.
  intros Hw Hb p.
  pose proof Hw as (Hc & Hn & Hl & _).
  pose proof (H32_steps_bounds _ (H32.cfg_step w Hc)) as Hs.
  unfold H32.low_segment in Hb. rewrite H32_low in Hb.
  set (ok := fun v => 0 <= v <= Int64.max_int /\
                      Z.land v H32.L32Mask < H32.PanicValue).
  set (inv := fun g : H32.WUID Fn => exists n, g = H32.set_N w n).
  destruct (schedule_returns_distinct
              (H32.WUID Fn) H32.N H32.Step H32.Next_add H32.Next_rest
              (H32.Next_switch w) inv ok) with
    (n0 := H32.N w) (s := H32.Step w) (acts := acts) (w := w)
    as (Hnd & Hall & _).
  - intros g [n ->] [Hr Hlow]. cbn [H32.set_N H32.N H32.Step] in *.
    unfold H32.Next_add, H32.AddInt64. cbn [fst snd H32.set_N H32.N H32.Step].
    assert (E : Int64.add n (H32.Step w) = n + H32.Step w).
    { apply wrap_small.
      unfold Int64.in_range, Int64.min_int, Int64.max_int in *. lia. }
    rewrite E. split_all; try reflexivity.
    exists (n + H32.Step w). reflexivity.
  - intros v g [n ->] [Hr Hlow]. unfold H32.Next_rest. cbv zeta.
    destruct (Z.geb_spec (Z.land v H32.L32Mask) H32.PanicValue); [lia | ].
    cbn [fst snd]. split; reflexivity.
  - exists (H32.N w). symmetry. apply H32_set_N_same.
  - reflexivity.
  - reflexivity.
  - intros k Hk.
    destruct (H32_offset (H32.N w) (Z.of_nat k * H32.Step w))
      as (Elow & _ & Hr); [exact Hn | nia | nia | ].
    split; [exact Hr | ]. rewrite H32_low, Elow. nia.
  - apply H32_transforms_distinct; [exact Hw | ].
    unfold H32.low_segment. rewrite H32_low. exact Hb.
  - fold p in Hnd, Hall. split; [exact Hnd | ].
    apply Forall_forall. intros x Hx.
    rewrite Forall_forall in Hall. destruct (Hall x Hx) as [_ Ex].
    split; [ | exact Ex].
    rewrite Ex.
    destruct (H32_Next_switch_returns w (fetched_by x) Hc) as [r ->].
    reflexivity.
Qed.

Lemma H28_schedule_distinct (w : H28.WUID Fn) (acts : list action) :
  sound28 w ->
  H28.low_segment w + Z.of_nat (fetches acts) * H28.Step w
  < H28.PanicValue ->
  let p := schedule H28.Next_add H28.Next_rest acts w in
  NoDup (map returned_to (finished p)) /\
  Forall (fun x => is_panic (returned_to x) = false /\
                   returned_to x = H28.Next_floor w (fetched_by x))
         (finished p).
Proof.
  intros Hw Hb p.
  pose proof Hw as (Hc & Hn & Hl).
  pose proof (H28_steps_bounds _ (H28.cfg_step w Hc)) as Hs.
  unfold H28.low_segment in Hb. rewrite H28_low in Hb.
  set (ok := fun v => 0 <= v <= Int64.max_int /\
                      Z.land v H28.L36Mask < H28.PanicValue).
  set (inv := fun g : H28.WUID Fn => exists n, g = H28.set_N w n).
  destruct (schedule_returns_distinct
              (H28.WUID Fn) H28.N H28.Step H28.Next_add H28.Next_rest
              (H28.Next_floor w) inv ok) with
    (n0 := H28.N w) (s := H28.Step w) (acts := acts) (w := w)
    as (Hnd & Hall & _).
  - intros g [n ->] [Hr Hlow]. cbn [H28.set_N H28.N H28.Step] in *.
    unfold H28.Next_add, H28.AddInt64. cbn [fst snd H28.set_N H28.N H28.Step].
    assert (E : Int64.add n (H28.Step w) = n + H28.Step w).
    { apply wrap_small.
      unfold Int64.in_range, Int64.min_int, Int64.max_int in *. lia. }
    rewrite E. split_all; try reflexivity.
    exists (n + H28.Step w). reflexivity.
  - intros v g [n ->] [Hr Hlow]. unfold H28.Next_rest. cbv zeta.
    destruct (Z.geb_spec (Z.land v H28.L36Mask) H28.PanicValue); [lia | ].
    cbn [fst snd]. split; reflexivity.
  - exists (H28.N w). symmetry. apply H28_set_N_same.
  - reflexivity.
  - reflexivity.
  - intros k Hk.
    destruct (H28_offset (H28.N w) (Z.of_nat k * H28.Step w))
      as (Elow & _ & Hr); [exact Hn | nia | nia | ].
    split; [exact Hr | ]. rewrite H28_low, Elow. nia.
  - apply H28_transforms_distinct; [exact Hw | ].
    unfold H28.low_segment. rewrite H28_low. exact Hb.
  - fold p in Hnd, Hall. split; [exact Hnd | ].
    apply Forall_forall. intros x Hx.
    rewrite Forall_forall in Hall. destruct (Hall x Hx) as [_ Ex].
    split; [ | exact Ex].
    rewrite Ex.
    destruct (H28_Next_floor_returns w (fetched_by x)) as [r ->].
    reflexivity.
Qed.

(** X16.  Concurrent calls get different identifiers.  When goroutines
    call [Next] on one sound generator, whatever the interleaving of the
    fetch-and-adds and the rest of the calls, as long as the calls started
    keep the low segment below the panic threshold: every call that has
    finished returned an identifier, the transform of the word its
    fetch-and-add handed it, and no two calls returned the same one.  Both
    splits. *)
Theorem X16_concurrent_calls_get_distinct_identifiers :
  (forall (w : H32.WUID Fn) (acts : list action),
      sound32 w ->
      H32.low_segment w + Z.of_nat (fetches acts) * H32.Step w
      < H32.PanicValue ->
      let p := schedule H32.Next_add H32.Next_rest acts w in
      NoDup (map returned_to (finished p)) /\
      Forall (fun x => is_panic (returned_to x) = false /\
                       returned_to x = H32.Next_switch w (fetched_by x))
             (finished p)) /\
  (forall (w : H28.WUID Fn) (acts : list action),
      sound28 w ->
      H28.low_segment w + Z.of_nat (fetches acts) * H28.Step w
      < H28.PanicValue ->
      let p := schedule H28.Next_add H28.Next_rest acts w in
      NoDup (map returned_to (finished p)) /\
      Forall (fun x => is_panic (returned_to x) = false /\
                       returned_to x = H28.Next_floor w (fetched_by x))
             (finished p)).
Proof.
  split.
  - exact H32_schedule_distinct.
  - exact H28_schedule_distinct.
Qed.

End Concurrent_statement.

Lemma X16_concurrent_calls_get_distinct_identifiers_witness :
  let acts := [Fetch; Fetch; Finish 1; Fetch; Finish 0; Finish 0] in
  NoDup (map returned_to
             (finished (schedule H32.Next_add H32.Next_rest acts
                                 quantised_masked32))) /\
  NoDup (map returned_to
             (finished (schedule H28.Next_add H28.Next_rest acts
                                 (@Sample.stepped28 unit)))).
Proof.
  cbv zeta.
  destruct (@X16_concurrent_calls_get_distinct_identifiers unit)
    as [D32 D28].
  split.
  - apply D32; [exact quantised_masked32_sound | reflexivity].
  - apply D28; [exact stepped28_sound | reflexivity].
Defined.

(** ** The pin under concurrency *)

Section Concurrent_pin.

Lemma drop_nth_In {A : Type} (l : list A) :
  forall (k : nat) (v a : A),
    nth_error l k = Some v -> In a l -> a <> v -> In a (drop_nth k l).
Proof.
  induction l as [| b l IH]; intros k v a Hk Ha Hne; [contradiction | ].
  destruct k as [| k]; cbn in *.
  - injection Hk as ->. destruct Ha as [-> | Ha]; [contradiction | exact Ha].
  - destruct Ha as [-> | Ha]; [left; reflexivity | ].
    right. apply (IH k v); assumption.
Qed.

Variables (W : Type) (word step : W -> Z) (low : Z -> Z).
Variables (add : W -> Z * W) (rest : Z -> W -> result Z * bool * W).
Variables (inv : W -> Prop) (L P : Z).

Hypothesis add_spec :
  forall w,
    inv w ->
    low (word w) + step w < L ->
    low (fst (add w)) = low (word w) + step w /\
    word (snd (add w)) = fst (add w) /\
    step (snd (add w)) = step w /\
    inv (snd (add w)).

Hypothesis rest_below :
  forall v w,
    inv w -> low v < P ->
    snd (rest v w) = w /\ is_panic (fst (fst (rest v w))) = false.

Hypothesis rest_hit :
  forall v w,
    inv w -> P <= low v -> word w = v ->
    low (word (snd (rest v w))) = P /\
    step (snd (rest v w)) = step w /\
    inv (snd (rest v w)) /\
    is_panic (fst (fst (rest v w))) = true.

Hypothesis rest_miss :
  forall v w,
    inv w -> P <= low v -> word w <> v ->
    snd (rest v w) = w /\ is_panic (fst (fst (rest v w))) = true.

(** What holds of a pool whatever the schedule: while the shared word is
    below the threshold so is every value handed out; a shared word past
    the threshold is held by a call under way, whose compare-and-swap will
    pin it; a finished call has panicked exactly when its value was at or
    past the threshold. *)
Let pinning (s bound : Z) (p : pool W) : Prop :=
  inv (shared p) /\
  step (shared p) = s /\
  low (word (shared p)) <= bound /\
  (low (word (shared p)) < P ->
   Forall (fun v => low v < P) (fetched p)) /\
  Forall (fun v => In v (fetched p)) (under_way p) /\
  (P < low (word (shared p)) -> In (word (shared p)) (under_way p)) /\
  Forall (fun x => is_panic (returned_to x) = (P <=? low (fetched_by x)))
         (finished p).

Lemma schedule_pinning (s : Z) (acts : list action) :
  0 < s ->
  forall (p : pool W) (bound : Z),
    pinning s bound p ->
    P <= bound ->
    bound + Z.of_nat (fetches acts) * s < L ->
    pinning s (bound + Z.of_nat (fetches acts) * s)
            (fold_left (schedule_step add rest) acts p).
Proof.
  intros Hs. induction acts as [| a acts IH]; intros p bound Hp HP Hb.
  - cbn [fetches fold_left]. rewrite Z.add_0_r. exact Hp.
  - destruct Hp as (Hinv & Hst & Hlow & Hbelow & Hsub & Hheld & Hfin).
    cbn [fold_left]. destruct a as [| k].
    + (* a call starts *)
      cbn [fetches] in *. rewrite Nat2Z.inj_succ in *.
      replace (bound + Z.succ (Z.of_nat (fetches acts)) * s)
        with (bound + s + Z.of_nat (fetches acts) * s) in * by lia.
      destruct (add_spec (shared p) Hinv ltac:(nia))
        as (Elow & Ew & Es & Hinv').
      apply IH; [ | lia | lia].
      unfold schedule_step.
      destruct (add (shared p)) as [v w'] eqn:Eadd. cbn [fst snd] in *.
      unfold pinning. cbn [shared fetched under_way finished].
      rewrite Ew, Es, Elow, Hst.
      split; [exact Hinv' | ].
      split; [reflexivity | ].
      split; [lia | ].
      split.
      { intros Hv. apply Forall_app. split; [apply Hbelow; lia | ].
        apply Forall_cons; [rewrite Elow, Hst; exact Hv | apply Forall_nil]. }
      split.
      { apply Forall_app. split.
        - eapply Forall_impl; [ | exact Hsub].
          intros a Ha. apply in_or_app. left. exact Ha.
        - apply Forall_cons; [ | apply Forall_nil].
          apply in_or_app. right. left. reflexivity. }
      split; [ | exact Hfin].
      intros _. apply in_or_app. right. left. reflexivity.
    + (* a call finishes *)
      cbn [fetches] in *.
      apply IH; [ | exact HP | exact Hb].
      unfold schedule_step.
      destruct (nth_error (under_way p) k) as [v | ] eqn:Ek;
        [ | unfold pinning; split_all; assumption].
      assert (Hsub' : Forall (fun v0 => In v0 (fetched p))
                             (drop_nth k (under_way p))).
      { apply drop_nth_Forall. exact Hsub. }
      assert (Hvin : In v (fetched p)).
      { rewrite Forall_forall in Hsub. apply Hsub.
        apply nth_error_In with k. exact Ek. }
      destruct (Z.ltb_spec (low v) P) as [Hv | Hv].
      * (* its value is below the threshold *)
        destruct (rest_below v (shared p) Hinv Hv) as (Ew & Er).
        destruct (rest v (shared p)) as [[r go] w'] eqn:Erest.
        cbn [fst snd] in Ew, Er. subst w'.
        unfold pinning. cbn [shared fetched under_way finished].
        split_all; try assumption.
        -- intros Hpast. apply (drop_nth_In _ k v); [exact Ek | | ].
           ++ apply Hheld. exact Hpast.
           ++ intros E. rewrite E in Hpast. lia.
        -- apply Forall_app. split; [exact Hfin | ].
           apply Forall_cons; [ | apply Forall_nil].
           cbn [returned_to fetched_by fst snd]. rewrite Er.
           destruct (Z.leb_spec P (low v)); [lia | reflexivity].
      * (* its value is at or past the threshold *)
        assert (Hnot : ~ low (word (shared p)) < P).
        { intros Hlt. specialize (Hbelow Hlt).
          rewrite Forall_forall in Hbelow. specialize (Hbelow v Hvin). lia. }
        destruct (Z.eq_dec (word (shared p)) v) as [Eq | Hne].
        -- destruct (rest_hit v (shared p) Hinv Hv Eq)
             as (Elow & Es & Hinv' & Er).
           destruct (rest v (shared p)) as [[r go] w'] eqn:Erest.
           cbn [fst snd] in Elow, Es, Hinv', Er.
           unfold pinning. cbn [shared fetched under_way finished].
           rewrite Elow, Es.
           split_all; try assumption; try lia.
           ++ apply Forall_app. split; [exact Hfin | ].
              apply Forall_cons; [ | apply Forall_nil].
              cbn [returned_to fetched_by fst snd]. rewrite Er.
              destruct (Z.leb_spec P (low v)); [reflexivity | lia].
        -- destruct (rest_miss v (shared p) Hinv Hv Hne) as (Ew & Er).
           destruct (rest v (shared p)) as [[r go] w'] eqn:Erest.
           cbn [fst snd] in Ew, Er. subst w'.
           unfold pinning. cbn [shared fetched under_way finished].
           split_all; try assumption.
           ++ intros Hpast. apply (drop_nth_In _ k v); [exact Ek | | exact Hne].
              apply Hheld. exact Hpast.
           ++ apply Forall_app. split; [exact Hfin | ].
              apply Forall_cons; [ | apply Forall_nil].
              cbn [returned_to fetched_by fst snd]. rewrite Er.
              destruct (Z.leb_spec P (low v)); [reflexivity | lia].
Qed.

(** Once every call has finished, the shared word is at most on the
    threshold, and it is on it when a call has gone past. *)
Lemma schedule_pinned (acts : list action) (w : W) :
  inv w ->
  0 < step w ->
  low (word w) <= P ->
  P + Z.of_nat (fetches acts) * step w < L ->
  let p := schedule add rest acts w in
  inv (shared p) /\
  step (shared p) = step w /\
  Forall (fun x => is_panic (returned_to x) = (P <=? low (fetched_by x)))
         (finished p) /\
  (under_way p = [] ->
   low (word (shared p)) <= P /\
   (Exists (fun v => P <= low v) (fetched p) ->
    low (word (shared p)) = P)).
Proof.
  intros Hinv Hs Hlow Hb p.
  assert (H0 : pinning (step w) P (mkPool w [] [] [])).
  { unfold pinning. cbn [shared fetched under_way finished].
    split_all; try assumption; try reflexivity; try apply Forall_nil.
    - intros _. apply Forall_nil.
    - intros Hpast. lia. }
  pose proof (schedule_pinning (step w) acts Hs _ P H0 ltac:(lia) Hb) as Hp.
  fold (schedule add rest acts w) in Hp. fold p in Hp.
  destruct Hp as (Hinv' & Hst' & _ & Hbelow & _ & Hheld & Hfin).
  split; [exact Hinv' | ].
  split; [exact Hst' | ].
  split; [exact Hfin | ].
  intros Hdone. rewrite Hdone in Hheld.
  assert (Hle : low (word (shared p)) <= P).
  { destruct (Z.le_gt_cases (low (word (shared p))) P) as [Hle | Hgt];
      [exact Hle | ].
    contradiction (Hheld ltac:(lia)). }
  split; [exact Hle | ].
  intros Hex.
  destruct (Z.eq_dec (low (word (shared p))) P) as [E | Hne]; [exact E | ].
  exfalso. specialize (Hbelow ltac:(lia)).
  apply Exists_exists in Hex. destruct Hex as (v & Hv & Hpast).
  rewrite Forall_forall in Hbelow. specialize (Hbelow v Hv). lia.
Qed.

End Concurrent_pin.

Section Concurrent_pin_statement.

Context {Fn : Type}.

(** The fetch-and-add on a word whose low segment has room for the
    step. *)
Lemma H32_add_in_segment (n s : Z) :
  0 <= n <= Int64.max_int ->
  0 < s ->
  Z.land n H32.L32Mask + s < 2 ^ 32 ->
  Int64.add n s = n + s /\
  Z.land (n + s) H32.L32Mask = Z.land n H32.L32Mask + s /\
  0 <= n + s <= Int64.max_int.
Proof.
  rewrite !H32_low. unfold Int64.max_int. intros Hn Hs Hl.
  assert (H : (n + s) mod 2 ^ 32 = n mod 2 ^ 32 + s /\ n + s <= 2 ^ 63 - 1).
  { change (2 ^ 32) with 4294967296 in *.
    change (2 ^ 63) with 9223372036854775808 in *.
    Z.div_mod_to_equations. lia. }
  split; [ | split; [apply H | lia]].
  apply wrap_small. unfold Int64.in_range, Int64.min_int, Int64.max_int. lia.
Qed.

Lemma H28_add_in_segment (n s : Z) :
  0 <= n <= Int64.max_int ->
  0 < s ->
  Z.land n H28.L36Mask + s < 2 ^ 36 ->
  Int64.add n s = n + s /\
  Z.land (n + s) H28.L36Mask = Z.land n H28.L36Mask + s /\
  0 <= n + s <= Int64.max_int.
Proof.
  rewrite !H28_low. unfold Int64.max_int. intros Hn Hs Hl.
  assert (H : (n + s) mod 2 ^ 36 = n mod 2 ^ 36 + s /\ n + s <= 2 ^ 63 - 1).
  { change (2 ^ 36) with 68719476736 in *.
    change (2 ^ 63) with 9223372036854775808 in *.
    Z.div_mod_to_equations. lia. }
  split; [ | split; [apply H | lia]].
  apply wrap_small. unfold Int64.in_range, Int64.min_int, Int64.max_int. lia.
Qed.

Lemma H32_schedule_pinned (w : H32.WUID Fn) (acts : list action) :
  sound32 w ->
  H32.PanicValue + Z.of_nat (fetches acts) * H32.Step w < 2 ^ 32 ->
  let p := schedule H32.Next_add H32.Next_rest acts w in
  Forall (fun x => is_panic (returned_to x)
                   = (H32.PanicValue <=? Z.land (fetched_by x) H32.L32Mask))
         (finished p) /\
  (under_way p = [] ->
   H32.low_segment (shared p) <= H32.PanicValue /\
   (Exists (fun v => H32.PanicValue <= Z.land v H32.L32Mask) (fetched p) ->
    H32.low_segment (shared p) = H32.PanicValue /\
    is_panic (fst (fst (H32.Next (shared p)))) = true)).
Proof.
  intros (Hc & Hn & Hl & _) Hb p.
  pose proof (H32_steps_bounds _ (H32.cfg_step w Hc)) as Hs.
  set (inv := fun g : H32.WUID Fn =>
                H32.configured g /\ 0 <= H32.N g <= Int64.max_int).
  destruct (schedule_pinned
              (H32.WUID Fn) H32.N H32.Step
              (fun v => Z.land v H32.L32Mask) H32.Next_add H32.Next_rest
              inv (2 ^ 32) H32.PanicValue) with (acts := acts) (w := w)
    as ((Hc' & Hn') & Hst & Hfin & Hdone).
  - intros g [Hg Hr] Hroom.
    pose proof (H32_steps_bounds _ (H32.cfg_step g Hg)) as Hsg.
    destruct (H32_add_in_segment (H32.N g) (H32.Step g) Hr ltac:(lia) Hroom)
      as (Eadd & Elow & Hr').
    unfold H32.Next_add, H32.AddInt64. cbn [fst snd H32.set_N H32.N H32.Step].
    rewrite Eadd. split_all; try reflexivity; try lia; try exact Elow.
    split; [apply H32_configured_set_N, Hg | exact Hr'].
  - intros v g [Hg Hr] Hv. unfold H32.Next_rest. cbv zeta.
    destruct (Z.geb_spec (Z.land v H32.L32Mask) H32.PanicValue); [lia | ].
    cbn [fst snd]. split; [reflexivity | ].
    destruct (H32_Next_switch_returns g v Hg) as [r ->]. reflexivity.
  - intros v g [Hg Hr] Hv Eg. unfold H32.Next_rest. cbv zeta.
    destruct (Z.geb_spec (Z.land v H32.L32Mask) H32.PanicValue); [ | lia].
    unfold H32.CompareAndSwapInt64. rewrite Eg, Z.eqb_refl.
    cbn [fst snd H32.set_N H32.N H32.Step].
    split; [apply H32_panicValue_low | ].
    split; [reflexivity | ].
    split; [ | reflexivity].
    split; [apply H32_configured_set_N, Hg | apply H32_pinned_range].
  - intros v g [Hg Hr] Hv Hne. unfold H32.Next_rest. cbv zeta.
    destruct (Z.geb_spec (Z.land v H32.L32Mask) H32.PanicValue); [ | lia].
    unfold H32.CompareAndSwapInt64.
    destruct (Z.eqb_spec (H32.N g) v); [contradiction | ].
    split; reflexivity.
  - split; assumption.
  - lia.
  - exact Hl.
  - exact Hb.
  - fold p in Hc', Hn', Hst, Hfin, Hdone.
    split; [exact Hfin | ].
    intros Hempty. destruct (Hdone Hempty) as [Hle Hpin].
    split; [exact Hle | ].
    intros Hex. specialize (Hpin Hex).
    split; [exact Hpin | ].
    rewrite H32_Next_panics; [reflexivity | ].
    unfold H32.Next_add, H32.AddInt64. cbn [fst].
    destruct (H32_add_in_segment (H32.N (shared p)) (H32.Step (shared p))
                                 Hn')
      as (Eadd & Elow & _).
    + rewrite Hst. lia.
    + rewrite Hpin, Hst. rewrite H32_PanicValue. lia.
    + rewrite Eadd, Elow, Hpin, Hst. lia.
Qed.

Lemma H28_schedule_pinned (w : H28.WUID Fn) (acts : list action) :
  sound28 w ->
  H28.PanicValue + Z.of_nat (fetches acts) * H28.Step w < 2 ^ 36 ->
  let p := schedule H28.Next_add H28.Next_rest acts w in
  Forall (fun x => is_panic (returned_to x)
                   = (H28.PanicValue <=? Z.land (fetched_by x) H28.L36Mask))
         (finished p) /\
  (under_way p = [] ->
   H28.low_segment (shared p) <= H28.PanicValue /\
   (Exists (fun v => H28.PanicValue <= Z.land v H28.L36Mask) (fetched p) ->
    H28.low_segment (shared p) = H28.PanicValue /\
    is_panic (fst (fst (H28.Next (shared p)))) = true)).
Proof.
  intros (Hc & Hn & Hl) Hb p.
  pose proof (H28_steps_bounds _ (H28.cfg_step w Hc)) as Hs.
  set (inv := fun g : H28.WUID Fn =>
                H28.configured g /\ 0 <= H28.N g <= Int64.max_int).
  destruct (schedule_pinned
              (H28.WUID Fn) H28.N H28.Step
              (fun v => Z.land v H28.L36Mask) H28.Next_add H28.Next_rest
              inv (2 ^ 36) H28.PanicValue) with (acts := acts) (w := w)
    as ((Hc' & Hn') & Hst & Hfin & Hdone).
  - intros g [Hg Hr] Hroom.
    pose proof (H28_steps_bounds _ (H28.cfg_step g Hg)) as Hsg.
    destruct (H28_add_in_segment (H28.N g) (H28.Step g) Hr ltac:(lia) Hroom)
      as (Eadd & Elow & Hr').
    unfold H28.Next_add, H28.AddInt64. cbn [fst snd H28.set_N H28.N H28.Step].
    rewrite Eadd. split_all; try reflexivity; try lia; try exact Elow.
    split; [apply H28_configured_set_N, Hg | exact Hr'].
  - intros v g [Hg Hr] Hv. unfold H28.Next_rest. cbv zeta.
    destruct (Z.geb_spec (Z.land v H28.L36Mask) H28.PanicValue); [lia | ].
    cbn [fst snd]. split; [reflexivity | ].
    destruct (H28_Next_floor_returns g v) as [r ->]. reflexivity.
  - intros v g [Hg Hr] Hv Eg. unfold H28.Next_rest. cbv zeta.
    destruct (Z.geb_spec (Z.land v H28.L36Mask) H28.PanicValue); [ | lia].
    unfold H28.CompareAndSwapInt64. rewrite Eg, Z.eqb_refl.
    cbn [fst snd H28.set_N H28.N H28.Step].
    split; [apply H28_panicValue_low | ].
    split; [reflexivity | ].
    split; [ | reflexivity].
    split; [apply H28_configured_set_N, Hg | apply H28_pinned_range].
  - intros v g [Hg Hr] Hv Hne. unfold H28.Next_rest. cbv zeta.
    destruct (Z.geb_spec (Z.land v H28.L36Mask) H28.PanicValue); [ | lia].
    unfold H28.CompareAndSwapInt64.
    destruct (Z.eqb_spec (H28.N g) v); [contradiction | ].
    split; reflexivity.
  - split; assumption.
  - lia.
  - exact Hl.
  - exact Hb.
  - fold p in Hc', Hn', Hst, Hfin, Hdone.
    split; [exact Hfin | ].
    intros Hempty. destruct (Hdone Hempty) as [Hle Hpin].
    split; [exact Hle | ].
    intros Hex. specialize (Hpin Hex).
    split; [exact Hpin | ].
    rewrite H28_Next_panics; [reflexivity | ].
    unfold H28.Next_add, H28.AddInt64. cbn [fst].
    destruct (H28_add_in_segment (H28.N (shared p)) (H28.Step (shared p))
                                 Hn')
      as (Eadd & Elow & _).
    + rewrite Hst. lia.
    + rewrite Hpin, Hst. rewrite H28_PanicValue. lia.
    + rewrite Eadd, Elow, Hpin, Hst. lia.
Qed.

(** X17.  The pin holds under concurrency.  When goroutines call [Next]
    on one sound generator, whatever the interleaving of the
    fetch-and-adds and the rest of the calls, and also past the panic
    threshold, as long as the calls started leave the low segment room:
    a call that has finished has panicked exactly when the word it was
    handed was at or past the threshold; and once every call has finished,
    the low segment of the shared word is at most the threshold, and if
    any call went past it the word is pinned on the threshold, so the
    next call panics.  A compare-and-swap that fails leaves the pinning to
    the call that holds the current word.  Both splits. *)
Theorem X17_the_pin_holds_under_concurrency :
  (forall (w : H32.WUID Fn) (acts : list action),
      sound32 w ->
      H32.PanicValue + Z.of_nat (fetches acts) * H32.Step w < 2 ^ 32 ->
      let p := schedule H32.Next_add H32.Next_rest acts w in
      Forall (fun x =>
                is_panic (returned_to x)
                = (H32.PanicValue <=? Z.land (fetched_by x) H32.L32Mask))
             (finished p) /\
      (under_way p = [] ->
       H32.low_segment (shared p) <= H32.PanicValue /\
       (Exists (fun v => H32.PanicValue <= Z.land v H32.L32Mask)
               (fetched p) ->
        H32.low_segment (shared p) = H32.PanicValue /\
        is_panic (fst (fst (H32.Next (shared p)))) = true))) /\
  (forall (w : H28.WUID Fn) (acts : list action),
      sound28 w ->
      H28.PanicValue + Z.of_nat (fetches acts) * H28.Step w < 2 ^ 36 ->
      let p := schedule H28.Next_add H28.Next_rest acts w in
      Forall (fun x =>
                is_panic (returned_to x)
                = (H28.PanicValue <=? Z.land (fetched_by x) H28.L36Mask))
             (finished p) /\
      (under_way p = [] ->
       H28.low_segment (shared p) <= H28.PanicValue /\
       (Exists (fun v => H28.PanicValue <= Z.land v H28.L36Mask)
               (fetched p) ->
        H28.low_segment (shared p) = H28.PanicValue /\
        is_panic (fst (fst (H28.Next (shared p)))) = true))).
Proof.
  split.
  - exact H32_schedule_pinned.
  - exact H28_schedule_pinned.
Qed.

End Concurrent_pin_statement.

Lemma brink_sound :
  sound32 (@Sample.brink32 unit) /\ sound28 (@Sample.brink28 unit).
Proof.
  destruct Sample_configured as (C32 & _ & _ & _ & C28 & _).
  split.
  - split; [apply H32_configured_set_N, C32 | ].
    cbn. unfold Int64.max_int. split_all; lia.
  - split; [apply H28_configured_set_N, C28 | ].
    cbn. unfold Int64.max_int. split_all; lia.
Qed.

Lemma X17_the_pin_holds_under_concurrency_witness :
  let acts := [Fetch; Fetch; Finish 0; Finish 0] in
  H32.low_segment
    (shared (schedule H32.Next_add H32.Next_rest acts
                      (@Sample.brink32 unit))) = H32.PanicValue /\
  H28.low_segment
    (shared (schedule H28.Next_add H28.Next_rest acts
                      (@Sample.brink28 unit))) = H28.PanicValue.
Proof.
  cbv zeta.
  destruct (@X17_the_pin_holds_under_concurrency unit) as [P32 P28].
  destruct brink_sound as [S32 S28].
  split.
  - destruct (P32 Sample.brink32 [Fetch; Fetch; Finish 0; Finish 0] S32)
      as [_ Hdone]; [reflexivity | ].
    destruct (Hdone eq_refl) as [_ Hpin].
    apply Hpin. apply Exists_cons_hd. vm_compute. discriminate.
  - destruct (P28 Sample.brink28 [Fetch; Fetch; Finish 0; Finish 0] S28)
      as [_ Hdone]; [reflexivity | ].
    destruct (Hdone eq_refl) as [_ Hpin].
    apply Hpin. apply Exists_cons_hd. vm_compute. discriminate.
Defined.

(** ** A generator that Redis does not answer *)

Section Unreachable.

(** A renewal that cannot succeed changes neither the generator nor the
    keys. *)
Lemma RenewNow_unreachable (w : Redis.WUID) (s : Redis.Server) :
  unreachable (H32.Renew w) ->
  fst (fst (Redis.RenewNow w s)) <> Ok None /\
  snd (fst (Redis.RenewNow w s)) = w /\
  Redis.value (snd (Redis.RenewNow w s)) = Redis.value s.
Proof.
  unfold Redis.RenewNow, H32.RenewNow, unreachable.
  destruct (H32.Renew w) as [[newClient key] | ];
    [ | intros _; cbn; split_all; [discriminate | reflexivity | reflexivity]].
  unfold Redis.call. cbn [Redis.fn_key Redis.fn_newClient].
  unfold Redis.Loadh32FromRedis.
  destruct (Z.eqb_spec (Z.of_nat (String.length key)) 0) as [K0 | K0].
  { intros _. cbn. split_all; [discriminate | reflexivity | reflexivity]. }
  intros [Hk | Hc]; [lia | ].
  destruct newClient as [[[[ | cerr] ac] [err | ]] | ];
    try contradiction;
    cbn [Redis.Incr fst snd];
    (split_all; [discriminate | reflexivity | ]);
    try reflexivity.
  destruct ac; reflexivity.
Qed.

(** [renewImpl] then counts the attempt and nothing else. *)
Lemma renewImpl_unreachable (w : Redis.WUID) (s : Redis.Server) :
  unreachable (H32.Renew w) ->
  fst (H32.renewImpl Redis.call w s) =
  H32.set_Stats
    w (H32.mkStats (Int64.add (H32.NumRenewAttempts (H32.Stats w)) 1)
                   (H32.NumRenewed (H32.Stats w))) /\
  Redis.value (snd (H32.renewImpl Redis.call w s)) = Redis.value s.
Proof.
  intros Hu.
  destruct (RenewNow_unreachable w s Hu) as (Hr & Hw & Hv).
  unfold H32.renewImpl.
  change (H32.RenewNow Redis.call w s) with (Redis.RenewNow w s).
  destruct (Redis.RenewNow w s) as [[r w1] s1]. cbn [fst snd] in *.
  subst w1. split; [ | exact Hv].
  destruct r as [[e | ] | m]; [reflexivity | contradiction | reflexivity].
Qed.

(** The statistics play no part in [Next]. *)
Lemma Next_set_Stats (w : Redis.WUID) (st : H32.Stats_t) :
  H32.Next (H32.set_Stats w st) =
  (fst (fst (H32.Next w)), snd (fst (H32.Next w)),
   H32.set_Stats (snd (H32.Next w)) st).
Proof.
  unfold H32.Next, H32.Next_add, H32.AddInt64, H32.Next_rest,
    H32.CompareAndSwapInt64.
  cbn [H32.set_Stats H32.set_N H32.N H32.Step fst snd]. cbv zeta.
  destruct (Z.land _ H32.L32Mask >=? H32.PanicValue); cbn [fst snd].
  - rewrite Z.eqb_refl. reflexivity.
  - reflexivity.
Qed.

Lemma serve_unreachable (n : nat) :
  forall (w : Redis.WUID) (s : Redis.Server) (a b : Z),
    unreachable (H32.Renew w) ->
    let obs := fst (calls H32.observe n w) in
    let k := Z.of_nat (List.length (filter renew obs)) in
    0 <= a ->
    a + k <= Int64.max_int ->
    let res := serve n (H32.set_Stats w (H32.mkStats a b)) s in
    fst (fst res) = map ret obs /\
    snd (fst res)
    = H32.set_Stats (snd (calls H32.observe n w)) (H32.mkStats (a + k) b) /\
    Redis.value (snd res) = Redis.value s.
Proof.
  induction n as [| n IH]; intros w s a b Hu obs k Ha Hk res.
  - unfold res, k, obs. cbn. split_all; try reflexivity.
    rewrite Z.add_0_r. reflexivity.
  - unfold res. rewrite serve_S. cbv zeta. unfold Redis.Next.
    rewrite Next_set_Stats. cbn [fst snd].
    unfold k, obs in *. rewrite calls_S in *. cbn [fst snd] in *.
    rewrite H32_observe_eq in *. cbn [fst snd renew ret filter map] in *.
    set (w1 := snd (H32.Next w)) in *.
    assert (Hu1 : unreachable (H32.Renew w1)).
    { unfold w1. rewrite H32_Next_eq. cbv zeta.
      destruct (Z.land _ H32.L32Mask >=? H32.PanicValue); exact Hu. }
    destruct (snd (fst (H32.Next w))) eqn:Ego; cbn [fst snd].
    + cbn [List.length] in *. rewrite Nat2Z.inj_succ in *.
      destruct (renewImpl_unreachable (H32.set_Stats w1 (H32.mkStats a b)) s
                                      Hu1) as (Ew & Ev).
      cbn [H32.set_Stats H32.Stats H32.NumRenewAttempts H32.NumRenewed]
        in Ew.
      assert (Ea : Int64.add a 1 = a + 1).
      { apply wrap_small.
        unfold Int64.in_range, Int64.min_int, Int64.max_int in *. lia. }
      rewrite Ea in Ew. rewrite Ew.
      change (H32.set_Stats (H32.set_Stats w1 (H32.mkStats a b))
                            (H32.mkStats (a + 1) b))
        with (H32.set_Stats w1 (H32.mkStats (a + 1) b)).
      destruct (IH w1 (snd (H32.renewImpl Redis.call
                                          (H32.set_Stats w1 (H32.mkStats a b))
                                          s))
                   (a + 1) b Hu1 ltac:(lia) ltac:(lia))
        as (Er & Es & Evs).
      cbv zeta in Er, Es, Evs.
      rewrite Er, Es, Evs, Ev.
      split_all; try reflexivity. do 2 f_equal. lia.
    + destruct (IH w1 s a b Hu1 Ha Hk) as (Er & Es & Evs).
      cbv zeta in Er, Es, Evs.
      rewrite Er, Es, Evs. split_all; reflexivity.
Qed.

(** X18.  Without Redis the generator lives on its segment and no
    longer.  When no renewal function is bound, or the one bound cannot
    succeed (empty key, nil or failing [newClient], failing [Incr]), and
    each renewal goroutine finishes before the next call: successive
    calls of [Next] return and panic exactly as they do with no renewal
    at all, the counter word is the same, no key is changed, [NumRenewed]
    stays 0, and [NumRenewAttempts] is the number of calls that started a
    renewal, at most twenty. *)
Theorem X18_unreachable_Redis_changes_nothing :
  forall (n : nat) (w : Redis.WUID) (s : Redis.Server),
    0 < H32.Step w <= 1024 ->
    unreachable (H32.Renew w) ->
    H32.Stats w = H32.mkStats 0 0 ->
    let res := serve n w s in
    let alone := calls H32.observe n w in
    let attempts := Z.of_nat (List.length (filter renew (fst alone))) in
    fst (fst res) = map ret (fst alone) /\
    H32.N (snd (fst res)) = H32.N (snd alone) /\
    H32.Stats (snd (fst res)) = H32.mkStats attempts 0 /\
    0 <= attempts <= 20 /\
    Redis.value (snd res) = Redis.value s.
Proof.
  intros n w s Hs Hu Hst res alone attempts.
  pose proof (H32_renewals_bounded w n Hs) as Hmax.
  fold alone in Hmax.
  assert (Hatt : 0 <= attempts <= 20) by (unfold attempts; lia).
  assert (Ew : w = H32.set_Stats w (H32.mkStats 0 0)).
  { rewrite <- Hst. destruct w. reflexivity. }
  destruct (serve_unreachable n w s 0 0 Hu ltac:(lia)) as (Er & Es & Ev).
  { fold alone. fold attempts. unfold Int64.max_int. lia. }
  cbv zeta in Er, Es, Ev. rewrite <- Ew in Er, Es, Ev.
  fold res in Er, Es, Ev. fold alone in Er, Es. fold attempts in Es.
  split; [exact Er | ].
  rewrite Es. cbn [H32.set_Stats H32.N H32.Stats].
  split_all; try reflexivity; try lia. exact Ev.
Qed.

End Unreachable.

Lemma X18_unreachable_Redis_changes_nothing_witness :
  let res := serve 3 (@Sample.critical32 Redis.renewFn) Sample.server in
  map is_panic (fst (fst res)) = [false; false; false] /\
  H32.Stats (snd (fst res)) = H32.mkStats 1 0 /\
  Redis.value (snd res) "wuid" = 41.
Proof.
  cbv zeta.
  destruct (X18_unreachable_Redis_changes_nothing
              3%nat (@Sample.critical32 Redis.renewFn) Sample.server)
    as (Er & _ & Est & _ & Ev).
  - vm_compute. split; [reflexivity | discriminate].
  - exact I.
  - reflexivity.
  - rewrite Er, Ev. split; [reflexivity | ].
    split; [exact Est | reflexivity].
Defined.

(** * The renewal test and the guard of [Reset] on sound states *)

(** ** When a renewal is started *)

Section Renewal_test.

Context {Fn : Type}.

(** From the panic threshold on, as far as one step reaches, no low
    segment is on a renewal boundary. *)
Lemma H32_no_boundary_past_panic (r : Z) :
  H32.PanicValue <= r <= H32.PanicValue + 1024 ->
  Z.land r H32.RenewIntervalMask <> 0.
Proof.
  intros Hr. rewrite H32_RenewIntervalMask, Z.land_ones by lia.
  rewrite H32_PanicValue in Hr. change (2 ^ 25) with 33554432.
  Z.div_mod_to_equations. lia.
Qed.

Lemma H28_no_boundary_past_panic (r : Z) :
  H28.PanicValue <= r <= H28.PanicValue + 1024 ->
  Z.land r H28.RenewIntervalMask <> 0.
Proof.
  intros Hr. rewrite H28_RenewIntervalMask, Z.land_ones by lia.
  rewrite H28_PanicValue in Hr. change (2 ^ 29) with 536870912.
  Z.div_mod_to_equations. lia.
Qed.

(** The low segment a call produces on a sound state is at most one step
    past the panic threshold. *)
Lemma H32_raw_sound (w : H32.WUID Fn) :
  sound32 w -> 0 <= raw (fst (H32.observe w)) <= H32.PanicValue + 1024.
Proof.
  intros (Hc & _ & Hl & _).
  pose proof (H32_steps_bounds _ (H32.cfg_step w Hc)) as Hs.
  pose proof (H32_low_range (H32.N w)) as Hr.
  rewrite H32_raw_next. unfold H32.low_segment in *.
  rewrite H32_PanicValue in *. change (2 ^ 32) with 4294967296 in *.
  rewrite Z.mod_small; lia.
Qed.

Lemma H28_raw_sound (w : H28.WUID Fn) :
  sound28 w -> 0 <= raw (fst (H28.observe w)) <= H28.PanicValue + 1024.
Proof.
  intros (Hc & _ & Hl).
  pose proof (H28_steps_bounds _ (H28.cfg_step w Hc)) as Hs.
  pose proof (H28_low_range (H28.N w)) as Hr.
  rewrite H28_raw_next. unfold H28.low_segment in *.
  rewrite H28_PanicValue in *. change (2 ^ 36) with 68719476736 in *.
  rewrite Z.mod_small; lia.
Qed.

(** C4.  A call of [Next] starts a renewal if and only if the low segment
    its fetch-and-add produced is at or above the critical threshold and
    has no bit of [RenewIntervalMask] set.  This is the test of the
    branch that a call takes when it does not panic, that is when the low
    segment is below the panic threshold; and it holds of every call on a
    sound state, panicking or not, since a call there gets at most one
    step past the panic threshold and no renewal boundary lies that close
    behind it.  As the code has it, for any state whatever: a renewal is
    started exactly when the low segment is below the panic threshold, at
    or above the critical threshold and on a boundary.  Consequently, in
    any sequence of calls on a generator whose step is one that
    [WithStep] admits, once a call has started a renewal no later call
    starts another one until the low segment lies a whole renewal interval
    further: at most one attempt per boundary, not one per call past the
    threshold.  Both splits. *)
Theorem C4_renewal_on_boundaries_below_panic :
  (forall w : H32.WUID Fn,
      let o := fst (H32.observe w) in
      (renew o = true <->
       raw o < H32.PanicValue /\ H32.CriticalValue <= raw o /\
       Z.land (raw o) H32.RenewIntervalMask = 0) /\
      (raw o < H32.PanicValue ->
       (renew o = true <->
        H32.CriticalValue <= raw o /\
        Z.land (raw o) H32.RenewIntervalMask = 0)) /\
      (sound32 w ->
       (renew o = true <->
        H32.CriticalValue <= raw o /\
        Z.land (raw o) H32.RenewIntervalMask = 0))) /\
  (forall (w : H32.WUID Fn) (n i j : nat) (oi oj : observation),
      0 < H32.Step w <= 1024 ->
      (i < j)%nat ->
      nth_error (fst (calls H32.observe n w)) i = Some oi ->
      nth_error (fst (calls H32.observe n w)) j = Some oj ->
      renew oi = true ->
      raw oj < raw oi + (H32.RenewIntervalMask + 1) ->
      renew oj = false) /\
  (forall w : H28.WUID Fn,
      let o := fst (H28.observe w) in
      (renew o = true <->
       raw o < H28.PanicValue /\ H28.CriticalValue <= raw o /\
       Z.land (raw o) H28.RenewIntervalMask = 0) /\
      (raw o < H28.PanicValue ->
       (renew o = true <->
        H28.CriticalValue <= raw o /\
        Z.land (raw o) H28.RenewIntervalMask = 0)) /\
      (sound28 w ->
       (renew o = true <->
        H28.CriticalValue <= raw o /\
        Z.land (raw o) H28.RenewIntervalMask = 0))) /\
  (forall (w : H28.WUID Fn) (n i j : nat) (oi oj : observation),
      0 < H28.Step w <= 1024 ->
      (i < j)%nat ->
      nth_error (fst (calls H28.observe n w)) i = Some oi ->
      nth_error (fst (calls H28.observe n w)) j = Some oj ->
      renew oi = true ->
      raw oj < raw oi + (H28.RenewIntervalMask + 1) ->
      renew oj = false).
Proof.
  split; [ | split; [ | split]].
  - intros w o.
    assert (Hcode : renew o = true <->
                    raw o < H32.PanicValue /\ H32.CriticalValue <= raw o /\
                    Z.land (raw o) H32.RenewIntervalMask = 0).
    { unfold o. rewrite H32_renew_next, H32_RenewIntervalMask.
      apply renew_condition. lia. }
    split; [exact Hcode | ]. split.
    + intros Hlt. rewrite Hcode. split; [intros (_ & H); exact H | ].
      intros H. split; [exact Hlt | exact H].
    + intros Hw. rewrite Hcode. split; [intros (_ & H); exact H | ].
      intros [Hcrit Hbound]. split; [ | split; assumption].
      destruct (Z.lt_ge_cases (raw o) H32.PanicValue) as [Hlt | Hge];
        [exact Hlt | ].
      exfalso. apply (H32_no_boundary_past_panic (raw o)); [ | exact Hbound].
      pose proof (H32_raw_sound w Hw) as Hr. fold o in Hr. lia.
  - intros w n i j oi oj Hs Hij Hi Hj Ri Hnear.
    change (H32.RenewIntervalMask + 1) with (2 ^ 25) in Hnear.
    destruct (renew oj) eqn:Rj; [exfalso | reflexivity].
    apply (Z.lt_irrefl (raw oj)).
    eapply Z.lt_le_trans; [exact Hnear | ].
    assert (P_pos : 0 < H32.PanicValue) by reflexivity.
    assert (P_room : H32.PanicValue + 1024 < 2 ^ 32) by reflexivity.
    assert (I_pos : 0 < 2 ^ 25) by reflexivity.
    exact (renews_spaced (H32.WUID Fn) H32.low_segment H32.Step
                         H32.observe (2 ^ 32) H32.PanicValue
                         H32.CriticalValue (2 ^ 25) P_pos P_room I_pos
                         (fun w' => H32_low_range (H32.N w'))
                         H32_raw_next H32_low_next H32_step_next
                         H32_renew_next n w i j oi oj Hs Hij Hi Hj Ri Rj).
  - intros w o.
    assert (Hcode : renew o = true <->
                    raw o < H28.PanicValue /\ H28.CriticalValue <= raw o /\
                    Z.land (raw o) H28.RenewIntervalMask = 0).
    { unfold o. rewrite H28_renew_next, H28_RenewIntervalMask.
      apply renew_condition. lia. }
    split; [exact Hcode | ]. split.
    + intros Hlt. rewrite Hcode. split; [intros (_ & H); exact H | ].
      intros H. split; [exact Hlt | exact H].
    + intros Hw. rewrite Hcode. split; [intros (_ & H); exact H | ].
      intros [Hcrit Hbound]. split; [ | split; assumption].
      destruct (Z.lt_ge_cases (raw o) H28.PanicValue) as [Hlt | Hge];
        [exact Hlt | ].
      exfalso. apply (H28_no_boundary_past_panic (raw o)); [ | exact Hbound].
      pose proof (H28_raw_sound w Hw) as Hr. fold o in Hr. lia.
  - intros w n i j oi oj Hs Hij Hi Hj Ri Hnear.
    change (H28.RenewIntervalMask + 1) with (2 ^ 29) in Hnear.
    destruct (renew oj) eqn:Rj; [exfalso | reflexivity].
    apply (Z.lt_irrefl (raw oj)).
    eapply Z.lt_le_trans; [exact Hnear | ].
    assert (P_pos : 0 < H28.PanicValue) by reflexivity.
    assert (P_room : H28.PanicValue + 1024 < 2 ^ 36) by reflexivity.
    assert (I_pos : 0 < 2 ^ 29) by reflexivity.
    exact (renews_spaced (H28.WUID Fn) H28.low_segment H28.Step
                         H28.observe (2 ^ 36) H28.PanicValue
                         H28.CriticalValue (2 ^ 29) P_pos P_room I_pos
                         (fun w' => H28_low_range (H28.N w'))
                         H28_raw_next H28_low_next H28_step_next
                         H28_renew_next n w i j oi oj Hs Hij Hi Hj Ri Rj).
Qed.

End Renewal_test.

Lemma critical_sound :
  sound32 (@Sample.critical32 unit) /\ sound28 (@Sample.critical28 unit).
Proof.
  destruct Sample_configured as (C32 & _ & _ & _ & C28 & _).
  split.
  - split; [apply H32_configured_set_N, C32 | ].
    cbn. unfold Int64.max_int. split_all; lia.
  - split; [apply H28_configured_set_N, C28 | ].
    cbn. unfold Int64.max_int. split_all; lia.
Qed.

Lemma C4_renewal_on_boundaries_below_panic_witness :
  let o32 := fst (H32.observe (@Sample.critical32 unit)) in
  let o28 := fst (H28.observe (@Sample.critical28 unit)) in
  let c32 := fst (calls H32.observe 3 (@Sample.critical32 unit)) in
  let c28 := fst (calls H28.observe 3 (@Sample.critical28 unit)) in
  (raw o32 < H32.PanicValue /\ H32.CriticalValue <= raw o32 /\
   Z.land (raw o32) H32.RenewIntervalMask = 0) /\
  (raw o28 < H28.PanicValue /\ H28.CriticalValue <= raw o28 /\
   Z.land (raw o28) H28.RenewIntervalMask = 0) /\
  (renew o32 = true /\ renew o28 = true) /\
  (H32.CriticalValue <= raw o32 /\
   Z.land (raw o32) H32.RenewIntervalMask = 0) /\
  (H28.CriticalValue <= raw o28 /\
   Z.land (raw o28) H28.RenewIntervalMask = 0) /\
  (nth_error c32 0 = Some o32 /\
   forall o, nth_error c32 2 = Some o -> renew o = false) /\
  (nth_error c28 0 = Some o28 /\
   forall o, nth_error c28 2 = Some o -> renew o = false).
Proof.
  cbv zeta.
  destruct (@C4_renewal_on_boundaries_below_panic unit)
    as (On32 & Once32 & On28 & Once28).
  destruct (On32 Sample.critical32) as (Code32 & Branch32 & Sound32).
  destruct (On28 Sample.critical28) as (Code28 & Branch28 & Sound28).
  destruct critical_sound as [S32 S28].
  split; [apply Code32; reflexivity | ].
  split; [apply Code28; reflexivity | ].
  split.
  { split.
    - apply Branch32; [reflexivity | ].
      split; [vm_compute; discriminate | reflexivity].
    - apply Branch28; [reflexivity | ].
      split; [vm_compute; discriminate | reflexivity]. }
  split; [apply (Sound32 S32); reflexivity | ].
  split; [apply (Sound28 S28); reflexivity | ].
  split.
  - split; [reflexivity | ]. intros o Ho.
    apply (Once32 Sample.critical32 3%nat 0%nat 2%nat
                  (fst (H32.observe (@Sample.critical32 unit))) o);
      [ vm_compute; split; [reflexivity | discriminate]
      | repeat constructor | reflexivity | exact Ho | reflexivity | ].
    vm_compute in Ho. injection Ho as <-. reflexivity.
  - split; [reflexivity | ]. intros o Ho.
    apply (Once28 Sample.critical28 3%nat 0%nat 2%nat
                  (fst (H28.observe (@Sample.critical28 unit))) o);
      [ vm_compute; split; [reflexivity | discriminate]
      | repeat constructor | reflexivity | exact Ho | reflexivity | ].
    vm_compute in Ho. injection Ho as <-. reflexivity.
Defined.

(** ** What the guard of [Reset] keeps out *)

Section Reset_guard.

(** The low 32 bits of the word [Reset] works on are those of its
    argument, with or without the section tag. *)
Lemma H32_base_low (n s : Z) :
  0 <= n -> 0 <= s ->
  (n mod 2 ^ 60 + s * 2 ^ 60) mod 2 ^ 32 = n mod 2 ^ 32.
Proof.
  intros Hn Hs.
  change (2 ^ 60) with 1152921504606846976.
  change (2 ^ 32) with 4294967296.
  Z.div_mod_to_equations. lia.
Qed.

(** What an accepted [Reset] installs in the low segment: the low segment
    it was given, rounded up by less than a step, and never more than the
    panic threshold. *)
Lemma H32_Reset_low {Fn : Type} (w : H32.WUID Fn) (n : Z) :
  H32.configured w ->
  Int64.in_range n ->
  fst (H32.Reset w n) = Ok tt ->
  let w' := snd (H32.Reset w n) in
  0 <= n /\ Z.land n H32.L32Mask < H32.PanicValue /\
  H32.low_segment w' <= H32.PanicValue /\
  Z.land n H32.L32Mask <= H32.low_segment w'
  < Z.land n H32.L32Mask + H32.Step w /\
  (H32.Floor w = 0 -> H32.low_segment w' = Z.land n H32.L32Mask).
Proof.
  intros Hc Hr Hok.
  assert (Hn : 0 <= n /\ Z.land n H32.L32Mask < H32.PanicValue).
  { revert Hok. unfold H32.Reset.
    destruct (Z.ltb_spec n 0); [discriminate | ].
    destruct (Z.geb_spec (Z.land n H32.L32Mask) H32.PanicValue);
      [discriminate | ].
    intros _. lia. }
  destruct Hn as [Hpos Hlow]. cbv zeta.
  unfold Int64.in_range in Hr.
  destruct (H32_Reset_rounds w n Hc ltac:(lia) Hlow)
    as (n' & Er & Hb & _ & _ & Hplain & Hp & Hh).
  cbv zeta in Er, Hb, Hplain, Hh.
  rewrite Er. cbn [snd]. unfold H32.low_segment. cbn [H32.set_N H32.N].
  destruct (H32_section_form w Hc) as (s & Hs & Es & Hmono).
  pose proof (H32_steps_bounds _ (H32.cfg_step w Hc)) as Hst.
  set (base := if H32.Monolithic w then n
               else n mod 2 ^ 60 + H32.Section_ w) in *.
  assert (Hbase : base mod 2 ^ 32 = n mod 2 ^ 32 /\ 0 <= base).
  { unfold base. destruct (H32.Monolithic w); [split; [reflexivity | lia] | ].
    rewrite Es. split; [apply H32_base_low; lia | ].
    pose proof (Z.mod_pos_bound n (2 ^ 60) ltac:(lia)). lia. }
  destruct Hbase as [Ebase Hbase].
  rewrite !Z.shiftr_div_pow2 in Hh by lia.
  rewrite !H32_low in *.
  split; [exact Hpos | ]. split; [exact Hlow | ]. split; [exact Hp | ].
  split.
  - rewrite <- Ebase. change (2 ^ 32) with 4294967296 in *.
    Z.div_mod_to_equations. lia.
  - intros Hf. rewrite (Hplain Hf). exact Ebase.
Qed.

(** A successful load leaves a sound generator with an empty low
    segment. *)
Lemma Loadh32FromRedis_sound (newClient : Redis.NewClient) (key : string)
      (w w' : Redis.WUID) (s s' : Redis.Server) :
  H32.configured w ->
  Redis.Loadh32FromRedis newClient key w s = (Ok None, w', s') ->
  sound32 w' /\ H32.low_segment w' = 0 /\ H32.Step w' = H32.Step w.
Proof.
  intros Hc. unfold Redis.Loadh32FromRedis.
  destruct (Z.of_nat (String.length key) =? 0); [discriminate | ].
  destruct newClient as [[[client autoClose] [err | ]] | ]; try discriminate.
  destruct (Redis.Incr client key s) as [[h32 | err] s1] eqn:Hincr;
    try discriminate.
  destruct (H32.Verifyh32 w h32) as [err | ] eqn:Hver; try discriminate.
  destruct (H32_Verify_None w h32 Hver) as [Hrange Hfresh].
  rewrite (H32_Reset_candidate w h32 Hc Hrange).
  destruct (H32_limit_bound w h32 Hrange) as [Hb _].
  destruct (H32_section_form w Hc) as (t & Ht & Et & Hmono).
  destruct (steps_pow2 _ (H32.cfg_step w Hc)) as (j & Hj & Ej).
  set (v := h32 * 2 ^ 32 + H32.Section_ w).
  assert (Hv : 0 <= v <= Int64.max_int /\ v mod 2 ^ 32 = 0 /\
               v mod H32.Step w = 0).
  { unfold v, Int64.max_int. rewrite Et, Ej. split; [lia | ].
    split.
    - replace (h32 * 2 ^ 32 + t * 2 ^ 60)
        with ((h32 + t * 2 ^ 28) * 2 ^ 32) by lia.
      apply Z.mod_mul. lia.
    - replace (h32 * 2 ^ 32 + t * 2 ^ 60)
        with ((h32 * 2 ^ (32 - j) + t * 2 ^ (60 - j)) * 2 ^ j).
      + apply Z.mod_mul. pose proof (pow2_pos j). lia.
      + rewrite Z.mul_add_distr_r, <- !Z.mul_assoc, <- !Z.pow_add_r by lia.
        replace (32 - j + j) with 32 by lia.
        replace (60 - j + j) with 60 by lia. reflexivity. }
  destruct Hv as (Hvr & Hv0 & Hva).
  assert (Hsound : sound32 (H32.set_N w v)).
  { split; [apply H32_configured_set_N, Hc | ].
    unfold H32.low_segment. cbn [H32.set_N H32.N H32.Step H32.Floor].
    rewrite H32_low, Hv0, H32_PanicValue.
    split; [exact Hvr | ]. split; [lia | ]. intros _. exact Hva. }
  assert (Hlow : H32.low_segment (H32.set_N w v) = 0).
  { unfold H32.low_segment. cbn [H32.set_N H32.N]. rewrite H32_low.
    exact Hv0. }
  cbn [H32.Renew H32.set_N].
  destruct (H32.Renew w) as [f | ] eqn:Hf; intros E; injection E as <- _.
  - split; [exact Hsound | ]. split; [exact Hlow | reflexivity].
  - split; [ | split; [exact Hlow | reflexivity]].
    destruct Hsound as (Hc' & Hrest).
    split; [ | exact Hrest].
    destruct Hc'. constructor; assumption.
Qed.

(** C10.  In the 32/32 split [Reset(n)] panics on a negative [n], and
    also on a non-negative [n] whose low segment is at or above the panic
    threshold; in both cases the generator, and so its counter word, is
    left as it was.  Hence a [Reset] that goes through was given a
    non-negative word with a low segment below the threshold, and what it
    installs on a configured generator is that low segment, rounded up by
    less than a step when a floor is set: never more than the panic
    threshold, and the threshold itself only out of a word less than a
    step below it.  A renewal, [Loadh32FromRedis], hands [Reset] a
    candidate shifted to the high segment: when it succeeds the low
    segment it has installed is 0, and the next call of [Next] returns an
    identifier. *)
Theorem C10_Reset_rejects_exhausted_words :
  (forall (Fn : Type) (w : H32.WUID Fn) (n : Z),
      (n < 0 -> H32.Reset w n = (Panic "n cannot be negative", w)) /\
      (0 <= n -> H32.PanicValue <= Z.land n H32.L32Mask ->
       H32.Reset w n = (Panic "n is too old", w)) /\
      (fst (H32.Reset w n) = Ok tt ->
       0 <= n /\ Z.land n H32.L32Mask < H32.PanicValue)) /\
  (forall (Fn : Type) (w : H32.WUID Fn) (n : Z),
      H32.configured w ->
      Int64.in_range n ->
      fst (H32.Reset w n) = Ok tt ->
      let w' := snd (H32.Reset w n) in
      H32.low_segment w' <= H32.PanicValue /\
      Z.land n H32.L32Mask <= H32.low_segment w'
      < Z.land n H32.L32Mask + H32.Step w /\
      (H32.Floor w = 0 ->
       H32.low_segment w' = Z.land n H32.L32Mask /\
       H32.low_segment w' < H32.PanicValue) /\
      (H32.low_segment w' = H32.PanicValue ->
       2 <= H32.Floor w /\
       H32.PanicValue - H32.Step w < Z.land n H32.L32Mask
       < H32.PanicValue)) /\
  (forall (newClient : Redis.NewClient) (key : string) (w w' : Redis.WUID)
          (s s' : Redis.Server),
      H32.configured w ->
      Redis.Loadh32FromRedis newClient key w s = (Ok None, w', s') ->
      H32.low_segment w' = 0 /\
      raw (fst (H32.observe w')) = H32.Step w /\
      raw (fst (H32.observe w')) < H32.PanicValue /\
      is_panic (ret (fst (H32.observe w'))) = false).
Proof.
  split; [ | split].
  - intros Fn w n. unfold H32.Reset.
    destruct (Z.ltb_spec n 0) as [Hneg | Hpos].
    + split; [reflexivity | split; [lia | discriminate]].
    + destruct (Z.geb_spec (Z.land n H32.L32Mask) H32.PanicValue)
        as [Hold | Hnew].
      * split; [lia | split; [reflexivity | discriminate]].
      * split; [lia | split; [lia | ]]. intros _. lia.
  - intros Fn w n Hc Hr Hok.
    destruct (H32_Reset_low w n Hc Hr Hok) as (_ & Hlow & Hp & Hb & Hplain).
    cbv zeta in Hp, Hb, Hplain |- *.
    split; [exact Hp | ]. split; [exact Hb | ].
    split.
    + intros Hf. rewrite (Hplain Hf). split; [reflexivity | exact Hlow].
    + intros Heq.
      destruct (H32.cfg_floor w Hc) as [Hf | Hf].
      * rewrite (Hplain Hf) in Heq. lia.
      * lia.
  - intros newClient key w w' s s' Hc Hload.
    destruct (Loadh32FromRedis_sound newClient key w w' s s' Hc Hload)
      as (Hw' & Hlow & Hstep).
    pose proof (H32_steps_bounds _ (H32.cfg_step w Hc)) as Hst.
    destruct (H32_next_good w' Hw') as (_ & _ & _ & Hret & _).
    assert (Eraw : raw (fst (H32.observe w')) = H32.Step w).
    { rewrite H32_raw_next, Hlow, Hstep, Z.add_0_l.
      apply Z.mod_small. lia. }
    split; [exact Hlow | ]. split; [exact Eraw | ].
    split; [rewrite Eraw, H32_PanicValue; lia | ].
    apply Hret. rewrite Hlow, Hstep, H32_PanicValue. lia.
Qed.

End Reset_guard.

Lemma C10_Reset_rejects_exhausted_words_witness :
  let w : H32.WUID unit := Sample.brink32 in
  let stepped : H32.WUID unit := Sample.stepped32 in
  let load := Redis.Loadh32FromRedis (Some (Redis.Live, true, None)) "wuid"
                                     Sample.bound32 Sample.server in
  H32.Reset w (-1) = (Panic "n cannot be negative", w) /\
  H32.Reset w (Z.shiftl 7 32 + H32.PanicValue) = (Panic "n is too old", w) /\
  Z.land (Z.shiftl 7 32) H32.L32Mask < H32.PanicValue /\
  H32.low_segment (snd (H32.Reset stepped (H32.PanicValue - 1)))
  <= H32.PanicValue /\
  H32.low_segment (snd (fst load)) = 0 /\
  is_panic (ret (fst (H32.observe (snd (fst load))))) = false.
Proof.
  cbv zeta.
  destruct C10_Reset_rejects_exhausted_words as (Guard & Installed & Renewal).
  destruct (Guard unit Sample.brink32 (-1)) as (Hneg & _ & _).
  destruct (Guard unit Sample.brink32 (Z.shiftl 7 32 + H32.PanicValue))
    as (_ & Hold & _).
  destruct (Guard unit Sample.brink32 (Z.shiftl 7 32)) as (_ & _ & Hok).
  destruct Sample_configured as (_ & _ & _ & C32 & _).
  destruct bound32_sound as (Cb & _).
  split; [apply Hneg; reflexivity | ].
  split; [apply Hold; vm_compute; discriminate | ].
  split; [apply Hok; reflexivity | ].
  split.
  - destruct (Installed unit Sample.stepped32 (H32.PanicValue - 1) C32)
      as (Hle & _).
    + vm_compute. split; discriminate.
    + reflexivity.
    + exact Hle.
  - destruct (Renewal (Some (Redis.Live, true, None)) "wuid" Sample.bound32
                      (snd (fst (Redis.Loadh32FromRedis
                                   (Some (Redis.Live, true, None)) "wuid"
                                   Sample.bound32 Sample.server)))
                      Sample.server
                      (snd (Redis.Loadh32FromRedis
                              (Some (Redis.Live, true, None)) "wuid"
                              Sample.bound32 Sample.server)) Cb)
      as (Hlow & _ & _ & Hret).
    + reflexivity.
    + split; [exact Hlow | exact Hret].
Defined.
